(** * udtube: the CoNLL-U reader and writer ([udtube/data/conllu.py])

    A shallow embedding of the module and the properties of its line
    classifier, its two sentence assemblers and its serializer, followed
    by the configuration code of the sweep driver
    ([examples/wandb_sweeps/sweep.py]): first on configurations that are
    trees, then on a store of dictionary objects, where two paths can
    lead to one dictionary.

    Python strings are sequences of Unicode code points: a character is a
    code point in [N], a string a list of them.  Dictionaries keep their
    insertion order, which the serializer depends on, so they are
    association lists with the update rule of [dict.__setitem__]. *)

From Stdlib Require Import String Ascii.
From Stdlib Require Import List NArith ZArith Bool Arith Lia.
Import ListNotations.

Set Implicit Arguments.

(** ** Python strings *)

Definition char := N.
Definition str := list char.

(** A literal, written as a Rocq string of ASCII characters. *)
Definition py (s : string) : str := map N_of_ascii (list_ascii_of_string s).

Definition TAB : char := 9%N.
Definition LF : char := 10%N.
Definition CR : char := 13%N.
Definition SPACE : char := 32%N.
Definition HASH : char := 35%N.
Definition EQUALS : char := 61%N.
Definition UNDERSCORE : char := 95%N.

Definition in_range (lo hi c : N) : bool := (lo <=? c)%N && (c <=? hi)%N.

(** [str.isspace] on one character, which is also the class [\s] of [re]
    on [str] patterns (CPython's [_PyUnicode_IsWhitespace]). *)
Definition is_space (c : char) : bool :=
  in_range 9 13 c || in_range 28 32 c || (c =? 133)%N || (c =? 160)%N
  || (c =? 5760)%N || in_range 8192 8202 c || (c =? 8232)%N || (c =? 8233)%N
  || (c =? 8239)%N || (c =? 8287)%N || (c =? 12288)%N.

(** The line boundaries of [str.splitlines]
    (CPython's [_PyUnicode_IsLinebreak]). *)
Definition is_linebreak (c : char) : bool :=
  in_range 10 13 c || in_range 28 30 c || (c =? 133)%N
  || (c =? 8232)%N || (c =? 8233)%N.

Fixpoint str_eqb (a b : str) : bool :=
  match a, b with
  | [], [] => true
  | x :: a', y :: b' => (x =? y)%N && str_eqb a' b'
  | _, _ => false
  end.

(** Truth value of a string: non-empty. *)
Definition truthy (A : Type) (l : list A) : bool :=
  match l with [] => false | _ :: _ => true end.

(** [str.lstrip()], [str.rstrip()], [str.strip()]. *)
Fixpoint lstrip (s : str) : str :=
  match s with
  | [] => []
  | c :: s' => if is_space c then lstrip s' else s
  end.

Definition rstrip (s : str) : str := rev (lstrip (rev s)).

Definition strip (s : str) : str := rstrip (lstrip s).

(** [sep.join(parts)]; also used to put a separator between runs of
    lines. *)
Fixpoint join (A : Type) (sep : list A) (parts : list (list A)) : list A :=
  match parts with
  | [] => []
  | [p] => p
  | p :: rest => p ++ sep ++ join sep rest
  end.

(** [s.split(sep)] for a one-character separator: never the empty list. *)
Fixpoint split (sep : char) (s : str) : list str :=
  match s with
  | [] => [[]]
  | c :: s' =>
      if (c =? sep)%N then [] :: split sep s'
      else match split sep s' with
           | [] => [[c]]
           | cell :: cells => (c :: cell) :: cells
           end
  end.

(** [s.splitlines()]: lines end at a line boundary, [\r\n] is one
    boundary, and a boundary at the very end opens no further line. *)
Fixpoint splitlines (s : str) : list str :=
  match s with
  | [] => []
  | c :: s' =>
      if is_linebreak c then
        [] :: (if (c =? CR)%N
               then match s' with
                    | d :: s'' => if (d =? LF)%N then splitlines s''
                                  else splitlines s'
                    | [] => splitlines s'
                    end
               else splitlines s')
      else match splitlines s' with
           | [] => [[c]]
           | line :: lines => (c :: line) :: lines
           end
  end.

(** ** Python dictionaries with string keys *)

Definition dict (V : Type) := list (str * V).

(** [d[key] = value]: a key already there keeps its place. *)
Fixpoint dict_set (V : Type) (key : str) (value : V) (d : dict V) : dict V :=
  match d with
  | [] => [(key, value)]
  | (k, v) :: d' =>
      if str_eqb k key then (k, value) :: d'
      else (k, v) :: dict_set key value d'
  end.

Fixpoint dict_lookup (V : Type) (key : str) (d : dict V) : option V :=
  match d with
  | [] => None
  | (k, v) :: d' => if str_eqb k key then Some v else dict_lookup key d'
  end.

(** [d.get(key, default)]. *)
Definition dict_get (V : Type) (key : str) (default : V) (d : dict V) : V :=
  match dict_lookup key d with
  | Some v => v
  | None => default
  end.

(** [dict(pairs)]. *)
Definition dict_of_items (V : Type) (pairs : list (str * V)) : dict V :=
  fold_left (fun d kv => dict_set (fst kv) (snd kv) d) pairs [].

Definition keys (V : Type) (d : dict V) : list str := map fst d.

(** ** The fragment of [re] that the module uses

    A backtracking matcher in continuation-passing style, as [re] explores
    a pattern: alternatives are tried in priority order and the first one
    whose continuation succeeds wins.  Repetition is of one character
    class, which is all the pattern of [_maybe_parse_metadata] needs. *)

Inductive cclass : Type :=
| CLit (c : char)      (* a literal character *)
| CSpace               (* \s *)
| CDot.                (* .  (no DOTALL flag: anything but a newline) *)

Definition cmatch (cl : cclass) (c : char) : bool :=
  match cl with
  | CLit x => (c =? x)%N
  | CSpace => is_space c
  | CDot => negb (c =? LF)%N
  end.

Inductive regex : Type :=
| RChar (cl : cclass)
| RRep (greedy : bool) (min : nat) (cl : cclass)   (* cl+  cl*  cl+? *)
| RSeq (r1 r2 : regex)
| ROpt (r : regex)                                 (* r? , greedy *)
| RGroup (n : nat) (r : regex).                    (* ( r ), group n *)

(** Captured groups, most recent first; a group that took no part in the
    match is not listed ([Match.group] gives [None] for it). *)
Definition groups := list (nat * str).

Fixpoint group (n : nat) (g : groups) : option str :=
  match g with
  | [] => None
  | (m, s) :: g' => if Nat.eqb m n then Some s else group n g'
  end.

Section Repetition.
Variable A : Type.
Variable cl : cclass.
Variable min : nat.

(** Greedy: take as many characters as possible, give them back one at
    a time while the continuation fails. *)
Fixpoint rep_greedy (cnt : nat) (s : str) (k : str -> option A) : option A :=
  let stop := if min <=? cnt then k s else None in
  match s with
  | [] => stop
  | c :: s' =>
      if cmatch cl c then
        match rep_greedy (S cnt) s' k with
        | Some res => Some res
        | None => stop
        end
      else stop
  end.

(** Lazy: take as few characters as possible, one more while the
    continuation fails. *)
Fixpoint rep_lazy (cnt : nat) (s : str) (k : str -> option A) : option A :=
  match (if min <=? cnt then k s else None) with
  | Some res => Some res
  | None =>
      match s with
      | [] => None
      | c :: s' => if cmatch cl c then rep_lazy (S cnt) s' k else None
      end
  end.
End Repetition.

Fixpoint rmatch (r : regex) (s : str) (g : groups)
    (k : str -> groups -> option groups) : option groups :=
  match r with
  | RChar cl =>
      match s with
      | [] => None
      | c :: s' => if cmatch cl c then k s' g else None
      end
  | RRep true min cl => rep_greedy cl min 0 s (fun s' => k s' g)
  | RRep false min cl => rep_lazy cl min 0 s (fun s' => k s' g)
  | RSeq r1 r2 => rmatch r1 s g (fun s' g' => rmatch r2 s' g' k)
  | ROpt r1 =>
      match rmatch r1 s g k with
      | Some res => Some res
      | None => k s g
      end
  | RGroup n r1 =>
      rmatch r1 s g
        (fun s' g' => k s' ((n, firstn (length s - length s') s) :: g'))
  end.

(** [re.fullmatch]: the match has to end at the end of the string. *)
Definition fullmatch (r : regex) (s : str) : option groups :=
  rmatch r s [] (fun s' g => match s' with [] => Some g | _ :: _ => None end).

(** ** The module *)

(** [_fieldnames] *)
Definition _fieldnames : list str :=
  [py "id"; py "form"; py "lemma"; py "upos"; py "xpos"; py "feats";
   py "head"; py "deprel"; py "deps"; py "misc"].

Definition Token := dict str.

(** [TokenList]: the list of tokens ([UserList.data]) and the metadata. *)
Record TokenList : Type := mkTokenList {
  data : list Token;
  metadata : dict (option str)
}.

(** Truth value of an [Optional[str]]: neither [None] nor empty. *)
Definition truthy_value (value : option str) : bool :=
  match value with
  | Some v => truthy v
  | None => false
  end.

(** The line of one metadata entry in [TokenList.serialize]. *)
Definition metadata_line (kv : str * option str) : str :=
  let (key, value) := kv in
  if truthy_value value
  then py "# " ++ key ++ py " = " ++ match value with Some v => v | None => [] end
  else py "# " ++ key.

(** The cells of one token in [TokenList.serialize]: [col_buf]. *)
Definition col_buf (token : Token) : list str :=
  map (fun key => dict_get key (py "_") token) _fieldnames.

Definition token_line (token : Token) : str := join [TAB] (col_buf token).

Definition line_buf (self : TokenList) : list str :=
  map metadata_line (metadata self) ++ map token_line (data self).

(** [TokenList.serialize] *)
Definition serialize (self : TokenList) : str :=
  join [LF] (line_buf self) ++ [LF].

(** The pattern of [re.fullmatch], written here with blanks between its
    parts: [# \s+ (.+?) ( \s+ = \s+ ( .* ) )?]. *)
Definition metadata_re : regex :=
  RSeq (RChar (CLit HASH))
  (RSeq (RRep true 1 CSpace)
  (RSeq (RGroup 1 (RRep false 1 CDot))
        (ROpt (RGroup 2
           (RSeq (RRep true 1 CSpace)
           (RSeq (RChar (CLit EQUALS))
           (RSeq (RRep true 1 CSpace)
                 (RGroup 3 (RRep true 0 CDot))))))))).

(** [_maybe_parse_metadata]: group 1 and group 3 of the match, [None]
    without a match.  Group 1 takes part in every match
    ([metadata_group1] below), so the inner [None] is never reached. *)
Definition _maybe_parse_metadata (line : str) : option (str * option str) :=
  match fullmatch metadata_re line with
  | Some g =>
      match group 1 g with
      | Some key => Some (key, group 3 g)
      | None => None
      end
  | None => None
  end.

(** [_parse_token] *)
Definition _parse_token (line : str) : Token :=
  dict_of_items (combine _fieldnames (split TAB line)).

(** The two accumulators of both parsers. *)
Record accum : Type := mkAccum {
  acc_metadata : dict (option str);
  acc_tokens : list Token
}.

Definition empty_accum : accum := mkAccum [] [].

(** What both parsers do with a stripped line that is not a sentence
    boundary: a metadata line sets its key, any other line is a token. *)
Definition absorb (st : accum) (line : str) : accum :=
  match _maybe_parse_metadata line with
  | Some (key, value) =>
      mkAccum (dict_set key value (acc_metadata st)) (acc_tokens st)
  | None =>
      mkAccum (acc_metadata st) (acc_tokens st ++ [_parse_token line])
  end.

(** [parse_from_string] *)
Definition parse_from_string (buffer : str) : TokenList :=
  let st := fold_left (fun st line => absorb st (strip line))
                      (splitlines buffer) empty_accum in
  mkTokenList (acc_tokens st) (acc_metadata st).

(** [if tokens or metadata] *)
Definition pending (st : accum) : bool :=
  truthy (acc_tokens st) || truthy (acc_metadata st).

(** One turn of the loop of [_parse_from_handle]: the accumulators after
    the line and the units it yields. *)
Definition handle_step (st : accum) (line : str) : accum * list TokenList :=
  let line := strip line in
  if negb (truthy line) then
    if pending st
    then (empty_accum, [mkTokenList (acc_tokens st) (acc_metadata st)])
    else (st, [])
  else (absorb st line, []).

(** After the loop of [_parse_from_handle]. *)
Definition handle_finish (st : accum) : list TokenList :=
  if pending st then [mkTokenList (acc_tokens st) (acc_metadata st)] else [].

Fixpoint handle_loop (st : accum) (lines : list str) : list TokenList :=
  match lines with
  | [] => handle_finish st
  | line :: rest =>
      let (st', out) := handle_step st line in
      out ++ handle_loop st' rest
  end.

(** [_parse_from_handle]: the units the generator yields, in order, for
    the lines the handle hands out. *)
Definition _parse_from_handle (handle : list str) : list TokenList :=
  handle_loop empty_accum handle.

(** ** Reading from a handle and from a path *)

(** [for line in handle] on a text handle: a line ends after each newline
    and keeps it; text after the last newline is a last line. *)
Fixpoint readlines (text : str) : list str :=
  match text with
  | [] => []
  | c :: rest =>
      if (c =? LF)%N then [LF] :: readlines rest
      else match readlines rest with
           | [] => [[c]]
           | line :: lines => (c :: line) :: lines
           end
  end.

(** What a handle from [open(path, "r")] hands out for the text of a
    file: universal newlines, a carriage return with or without a newline
    after it is read as one newline. *)
Fixpoint universal_newlines (content : str) : str :=
  match content with
  | [] => []
  | c :: rest =>
      if (c =? CR)%N then
        LF :: match rest with
              | d :: rest' => if (d =? LF)%N then universal_newlines rest'
                              else universal_newlines rest
              | [] => universal_newlines rest
              end
      else c :: universal_newlines rest
  end.

(** [parse_from_path]: [read_text] gives the text of the file at a path,
    or [None] where [open] raises; the units are those of the lines of
    the handle. *)
Definition parse_from_path (read_text : str -> option str) (path : str)
    : option (list TokenList) :=
  match read_text path with
  | None => None
  | Some content =>
      Some (_parse_from_handle (readlines (universal_newlines content)))
  end.

(** ** The sweep driver ([examples/wandb_sweeps/sweep.py]) *)

Definition DOT : char := 46%N.

(** How a call ends. *)
Inductive outcome : Type :=
| Returned
| RaisedTypeError.

Set Warnings "-register-all".

Section Sweep.
Variable atom : Type.

(** A configuration value: a dictionary with string keys, or any other
    object (a number, a string, a list, [None]), on which subscripting
    with a string, or assigning to a string subscript, raises
    [TypeError].  Dictionaries are trees: no dictionary object occurs at
    two places. *)
Inductive value : Type :=
| VDict (items : list (str * value))
| VOther (a : atom).

(** The body of [_recursive_insert] after the key is cut: walk down the
    pieces in [most], making an empty dictionary where a piece is
    missing ([KeyError]), then set [last].  The dictionaries are changed
    in place, so the result is the object as the call leaves it, with the
    way the call ends; the debug message is not modelled. *)
Fixpoint insert_at (ptr : value) (most : list str) (last : str) (v : value)
    : value * outcome :=
  match ptr with
  | VOther _ => (ptr, RaisedTypeError)
  | VDict items =>
      match most with
      | [] => (VDict (dict_set last v items), Returned)
      | piece :: rest =>
          let child := match dict_lookup piece items with
                       | Some child => child
                       | None => VDict []
                       end in
          let (child', how) := insert_at child rest last v in
          (VDict (dict_set piece child' items), how)
      end
  end.

(** [_recursive_insert]: [*most, last = key.split(".")]. *)
Definition _recursive_insert (config : value) (key : str) (v : value)
    : value * outcome :=
  let pieces := split DOT key in
  insert_at config (removelast pieces) (last pieces []) v.

(** The loop of [populate_config] over [wandb.config.items()]: it ends
    at the first insertion that raises. *)
Fixpoint insert_items (config : value) (items : list (str * value))
    : value * outcome :=
  match items with
  | [] => (config, Returned)
  | (key, v) :: rest =>
      match _recursive_insert config key v with
      | (config', Returned) => insert_items config' rest
      | (config', RaisedTypeError) => (config', RaisedTypeError)
      end
  end.

(** What one run finds outside the program: whether [wandb.init] and
    [yaml.dump] raise, the sweep values, and how the subprocess ends. *)
Inductive process : Type :=
| Completed (returncode : Z) (stdout stderr : str)
| NotStarted.

Record world : Type := mkWorld {
  init_raises : bool;
  sweep_values : list (str * value);
  dump_raises : bool;
  proc : process
}.

(** What a run does to the outside, in order. *)
Inductive message : Type :=
| SubprocessError
| ProcessStdout (text : str)
| ProcessStderr (text : str)
| PopulateError
| TrainSweepError
| Traceback.

Inductive event : Type :=
| WandbInit
| YamlDump (config : value)
| SubprocessRun (argv : list str)
| LogError (m : message)
| WandbFinish (exit_code : Z).

(** [run_sweep]: the events and the exit code, [None] when
    [subprocess.run] raises something else than [CalledProcessError]. *)
Definition run_sweep (w : world) (argv : list str) : list event * option Z :=
  match proc w with
  | NotStarted => ([SubprocessRun argv], None)
  | Completed returncode stdout stderr =>
      if (returncode =? 0)%Z then ([SubprocessRun argv], Some 0%Z)
      else ([SubprocessRun argv; LogError SubprocessError]
            ++ (if truthy stdout then [LogError (ProcessStdout stdout)] else [])
            ++ (if truthy stderr then [LogError (ProcessStderr stderr)] else []),
            Some returncode)
  end.

(** [populate_config]: the configuration as the call leaves it, the
    events, and whether the call raises (only [wandb.init] is outside
    the [try]). *)
Definition populate_config (w : world) (config : value)
    : value * list event * bool :=
  if init_raises w then (config, [WandbInit], true)
  else
    match insert_items config (sweep_values w) with
    | (config', RaisedTypeError) =>
        (config', [WandbInit; LogError PopulateError; LogError Traceback;
                   WandbFinish 1%Z], false)
    | (config', Returned) =>
        if dump_raises w
        then (config', [WandbInit; LogError PopulateError; LogError Traceback;
                        WandbFinish 1%Z], false)
        else (config', [WandbInit; YamlDump config'], false)
    end.

(** [train_sweep] *)
Definition train_sweep (w : world) (config : value) (argv : list str)
    : value * list event :=
  match populate_config w config with
  | (config', events, true) =>
      (config', events ++ [LogError TrainSweepError; LogError Traceback;
                           WandbFinish 1%Z])
  | (config', events, false) =>
      match run_sweep w argv with
      | (events', Some exit_code) =>
          (config', events ++ events' ++ [WandbFinish exit_code])
      | (events', None) =>
          (config', events ++ events'
                    ++ [LogError TrainSweepError; LogError Traceback;
                        WandbFinish 1%Z])
      end
  end.
End Sweep.

(** ** The sweep driver on a store of dictionary objects

    [main] reads the configuration with [yaml.safe_load], which gives
    one dictionary object for an anchor and its aliases, and
    [_recursive_insert] changes dictionaries in place: a change made
    through one path shows at every path to the same object.  Here the
    dictionary objects are the cells of a store and a dictionary value is
    the number of its cell, so that two paths can lead to one object. *)

Module Shared.
Section Sweep.
Variable atom : Type.

(** An object: a dictionary, known by its place in the store, or any
    other object (on which subscripting with a string raises
    [TypeError]). *)
Inductive object : Type :=
| Dict (id : nat)
| Other (a : atom).

(** The dictionary objects, each with its items; a new dictionary goes
    to the end. *)
Definition store : Type := list (dict object).

(** The store with new items for the dictionary [id]. *)
Fixpoint store_set (id : nat) (items : dict object) (s : store) : store :=
  match s, id with
  | [], _ => []
  | _ :: rest, 0 => items :: rest
  | d :: rest, S id' => d :: store_set id' items rest
  end.

(** The body of [_recursive_insert] after the key is cut: [ptr] walks
    down the pieces in [most]; where a piece is missing ([KeyError]) a
    new empty dictionary is stored under it and [ptr] goes on from
    there; at the end [ptr[last] = value].  The result is the store as
    the call leaves it, with the way the call ends; the debug message
    is not modelled.  Every dictionary a program holds is in the store
    ([closed] below), so the case of a number without a cell does not
    arise. *)
Fixpoint insert_at (s : store) (ptr : object) (most : list str) (last : str)
    (v : object) : store * outcome :=
  match ptr with
  | Other _ => (s, RaisedTypeError)
  | Dict id =>
      match nth_error s id with
      | None => (s, RaisedTypeError)
      | Some items =>
          match most with
          | [] => (store_set id (dict_set last v items) s, Returned)
          | piece :: rest =>
              match dict_lookup piece items with
              | Some child => insert_at s child rest last v
              | None =>
                  let fresh := length s in
                  insert_at (store_set id (dict_set piece (Dict fresh) items) s
                             ++ [[]])
                            (Dict fresh) rest last v
              end
          end
      end
  end.

(** [_recursive_insert]: [*most, last = key.split(".")]. *)
Definition _recursive_insert (s : store) (config : object) (key : str)
    (v : object) : store * outcome :=
  let pieces := split DOT key in
  insert_at s config (removelast pieces) (last pieces []) v.

(** The loop of [populate_config] over [wandb.config.items()]. *)
Fixpoint insert_items (s : store) (config : object)
    (items : list (str * object)) : store * outcome :=
  match items with
  | [] => (s, Returned)
  | (key, v) :: rest =>
      match _recursive_insert s config key v with
      | (s', Returned) => insert_items s' config rest
      | (s', RaisedTypeError) => (s', RaisedTypeError)
      end
  end.

Record world : Type := mkWorld {
  init_raises : bool;
  sweep_values : list (str * object);
  dump_raises : bool;
  proc : process
}.

(** What [yaml.dump] is given is the configuration object in the store
    of that moment. *)
Inductive event : Type :=
| WandbInit
| YamlDump (s : store) (config : object)
| SubprocessRun (argv : list str)
| LogError (m : message)
| WandbFinish (exit_code : Z).

(** [run_sweep] *)
Definition run_sweep (w : world) (argv : list str) : list event * option Z :=
  match proc w with
  | NotStarted => ([SubprocessRun argv], None)
  | Completed returncode stdout stderr =>
      if (returncode =? 0)%Z then ([SubprocessRun argv], Some 0%Z)
      else ([SubprocessRun argv; LogError SubprocessError]
            ++ (if truthy stdout then [LogError (ProcessStdout stdout)] else [])
            ++ (if truthy stderr then [LogError (ProcessStderr stderr)] else []),
            Some returncode)
  end.

(** [populate_config]: the store as the call leaves it, the events, and
    whether the call raises. *)
Definition populate_config (w : world) (s : store) (config : object)
    : store * list event * bool :=
  if init_raises w then (s, [WandbInit], true)
  else
    match insert_items s config (sweep_values w) with
    | (s', RaisedTypeError) =>
        (s', [WandbInit; LogError PopulateError; LogError Traceback;
              WandbFinish 1%Z], false)
    | (s', Returned) =>
        if dump_raises w
        then (s', [WandbInit; LogError PopulateError; LogError Traceback;
                   WandbFinish 1%Z], false)
        else (s', [WandbInit; YamlDump s' config], false)
    end.

(** [train_sweep] *)
Definition train_sweep (w : world) (s : store) (config : object)
    (argv : list str) : store * list event :=
  match populate_config w s config with
  | (s', events, true) =>
      (s', events ++ [LogError TrainSweepError; LogError Traceback;
                      WandbFinish 1%Z])
  | (s', events, false) =>
      match run_sweep w argv with
      | (events', Some exit_code) =>
          (s', events ++ events' ++ [WandbFinish exit_code])
      | (events', None) =>
          (s', events ++ events'
               ++ [LogError TrainSweepError; LogError Traceback;
                   WandbFinish 1%Z])
      end
  end.
End Sweep.
End Shared.

(** * Vocabulary of the properties *)

(** ** Characters a value may not hold *)

(** A string with none of the characters a predicate singles out. *)
Definition free_of (bad : char -> bool) (s : str) : Prop :=
  Forall (fun c => bad c = false) s.

Definition is_newline (c : char) : bool := (c =? LF)%N.
Definition is_tab (c : char) : bool := (c =? TAB)%N.

(** A unit whose metadata keys and values and whose ten cells per token
    have none of these characters. *)
Definition unit_free_of (bad : char -> bool) (u : TokenList) : Prop :=
  Forall (fun kv => free_of bad (fst kv)
                    /\ forall v, snd kv = Some v -> free_of bad v) (metadata u)
  /\ Forall (fun token => Forall (free_of bad) (col_buf token)) (data u).

(** A unit with a flag, a valued entry and one sparse token. *)
Definition sample_unit : TokenList :=
  mkTokenList [[(py "id", py "1"); (py "form", py "The")]]
              [(py "newpar", None); (py "sent_id", Some (py "1"))].

(** Every character of the keys, values and cells of a unit. *)
Definition unit_chars (u : TokenList) : str :=
  concat (map (fun kv => fst kv ++ match snd kv with Some v => v | None => [] end)
              (metadata u))
  ++ concat (map (fun token => concat (col_buf token)) (data u)).

(** ** The metadata pattern, unfolded *)

(** What the matcher does after the key (the
    optional group 2, else the end of the line) and inside group 2. *)
Definition value_tail (g1 : groups) (s3 : str) : option groups :=
  rep_greedy CSpace 1 0 s3
    (fun s4 =>
       match s4 with
       | [] => None
       | c :: s5 =>
           if cmatch (CLit EQUALS) c then
             rep_greedy CSpace 1 0 s5
               (fun s6 =>
                  rep_greedy CDot 0 0 s6
                    (fun s7 =>
                       match s7 with
                       | [] => Some ((2, firstn (length s3 - length s7) s3)
                                     :: (3, firstn (length s6 - length s7) s6)
                                     :: g1)
                       | _ :: _ => None
                       end))
           else None
       end).

Definition after_key (s2 s3 : str) : option groups :=
  let g1 := [(1, firstn (length s2 - length s3) s2)] in
  match value_tail g1 s3 with
  | Some res => Some res
  | None => match s3 with [] => Some g1 | _ :: _ => None end
  end.

(** ** Units that survive the round trip *)

(** A string that is not empty and does not begin with whitespace; one
    that is not empty and does not end with whitespace. *)
Definition starts_clean (s : str) : bool :=
  match s with
  | [] => false
  | c :: _ => negb (is_space c)
  end.

Definition ends_clean (s : str) : bool := starts_clean (rev s).

Definition is_equals (c : char) : bool := (c =? EQUALS)%N.

(** No equals sign right after a whitespace character: nothing inside
    the string looks like the place where a value begins. *)
Fixpoint no_space_equals (s : str) : bool :=
  match s with
  | [] => true
  | c :: rest =>
      negb (is_space c && match rest with d :: _ => is_equals d | [] => false end)
      && no_space_equals rest
  end.

(** Keys, values and cells that come back unchanged. *)
Definition clean_key (key : str) : bool :=
  starts_clean key && ends_clean key
  && forallb (fun c => negb (is_linebreak c)) key
  && no_space_equals key.

Definition clean_value (value : option str) : bool :=
  match value with
  | None => true
  | Some v => starts_clean v && ends_clean v
              && forallb (fun c => negb (is_linebreak c)) v
  end.

(** A hash sign followed by whitespace: how a metadata line begins. *)
Definition comment_like (s : str) : bool :=
  match s with
  | c :: d :: _ => (c =? HASH)%N && is_space d
  | _ => false
  end.

Definition clean_cells (cells : list str) : bool :=
  forallb (forallb (fun c => negb (is_linebreak c || is_tab c))) cells
  && starts_clean (nth 0 cells [])
  && negb (comment_like (nth 0 cells [] ++ [TAB]))
  && ends_clean (nth 9 cells []).

Fixpoint distinct (l : list str) : bool :=
  match l with
  | [] => true
  | x :: rest => negb (existsb (str_eqb x) rest) && distinct rest
  end.

Definition round_trip_ready (u : TokenList) : bool :=
  (truthy (data u) || truthy (metadata u))
  && distinct (keys (metadata u))
  && forallb (fun kv => clean_key (fst kv) && clean_value (snd kv)) (metadata u)
  && forallb (fun token => clean_cells (col_buf token)) (data u).

(** What the round trip compares: the ten cells of every token (the
    underscore for a field the token lacks) and the metadata entries in
    their order. *)
Definition same_fields (u u' : TokenList) : Prop :=
  map col_buf (data u') = map col_buf (data u) /\ metadata u' = metadata u.

(** The round trip as the specification words it: the tokens have fields
    of the schema only, and no token value and no metadata value holds a
    tab or a newline. *)
Definition within_schema (u : TokenList) : bool :=
  forallb (fun token : Token =>
             forallb (fun key => existsb (str_eqb key) _fieldnames) (keys token))
          (data u).

Definition no_tab_newline (u : TokenList) : bool :=
  forallb (fun token : Token =>
             forallb (fun kv => forallb (fun c => negb (is_tab c || is_newline c))
                                        (snd kv)) token)
          (data u)
  && forallb (fun kv : str * option str =>
                match snd kv with
                | Some v => forallb (fun c => negb (is_tab c || is_newline c)) v
                | None => true
                end)
             (metadata u).

Definition spec_round_trip (u : TokenList) : Prop :=
  within_schema u = true -> no_tab_newline u = true ->
  same_fields u (parse_from_string (serialize u)).

(** One token and the text of the sentence, which ends with a blank. *)
Definition trailing_blank_unit : TokenList :=
  mkTokenList [[(py "id", py "1"); (py "form", py "The")]]
              [(py "text", Some (py "The "))].

(** ** Sources of the streaming assembler *)

(** A sentence boundary: a line that strips to nothing. *)
Definition blank (line : str) : bool := negb (truthy (strip line)).

(** A source with its repeated boundaries dropped: a boundary goes when
    the line before it was one ([after_blank]). *)
Fixpoint collapse_from (after_blank : bool) (lines : list str) : list str :=
  match lines with
  | [] => []
  | line :: rest =>
      if blank line then
        if after_blank then collapse_from true rest
        else line :: collapse_from true rest
      else line :: collapse_from false rest
  end.

(** The accumulators after a run of lines with no boundary in it, and
    the unit they make. *)
Definition absorb_all (lines : list str) (st : accum) : accum :=
  fold_left (fun st line => absorb st (strip line)) lines st.

Definition unit_of (st : accum) : TokenList :=
  mkTokenList (acc_tokens st) (acc_metadata st).

Definition sentence_of (block : list str) : TokenList :=
  unit_of (absorb_all block empty_accum).

(** A sentence in a source: some lines, none of them a boundary. *)
Definition sentence_block (block : list str) : bool :=
  truthy block && negb (existsb blank block).

(** Two sentences, the first with a valued entry, the second with a flag. *)
Definition two_sentences : list (list str) :=
  [[py "# sent_id = 1"; py "1" ++ [TAB] ++ py "The"];
   [py "# newpar"; py "1" ++ [TAB] ++ py "A"; py "2" ++ [TAB] ++ py "cat"]].

(** ** Order of keys and lines *)

Definition str_eq_dec (a b : str) : {a = b} + {a <> b} :=
  list_eq_dec N.eq_dec a b.

(** The keys of a sequence of entries in the order of their first
    occurrence. *)
Definition first_occurrences (ks : list str) : list str :=
  rev (nodup str_eq_dec (rev ks)).

(** The metadata entries and the token lines of a run of lines, in the
    order of the lines. *)
Definition is_metadata (line : str) : bool :=
  match _maybe_parse_metadata line with Some _ => true | None => false end.

Definition entries (lines : list str) : list (str * option str) :=
  flat_map (fun line => match _maybe_parse_metadata (strip line) with
                        | Some kv => [kv]
                        | None => []
                        end) lines.

Definition token_lines (lines : list str) : list str :=
  filter (fun line => negb (is_metadata (strip line))) lines.

(** [key in ks], and the dictionary after a sequence of assignments. *)
Definition mem (key : str) (ks : list str) : bool := existsb (str_eqb key) ks.

Definition set_all (V : Type) (items : list (str * V)) (d : dict V) : dict V :=
  fold_left (fun d kv => dict_set (fst kv) (snd kv) d) items d.

(** ** Metadata lines *)

(** The metadata line as the specification words it: with the value
    whenever there is one. *)
Definition spec_metadata_line (kv : str * option str) : str :=
  match snd kv with
  | Some v => py "# " ++ fst kv ++ py " = " ++ v
  | None => py "# " ++ fst kv
  end.

(** A flag, a valued entry and a token line, each closed by a newline. *)
Definition flag_then_value : str :=
  py "# newpar" ++ [LF] ++ py "# sent_id = 1" ++ [LF]
  ++ py "1" ++ [TAB] ++ py "The" ++ [LF].

(** What follows the hash sign of a line that matches the pattern:
    whitespace and at least one more character. *)
Definition comment_shape (rest : str) : bool :=
  match rest with
  | d :: _ :: _ => is_space d
  | _ => false
  end.

(** ** What the parsers keep *)

(** A token whose fields are the first [n] of the schema, [n] from one
    to ten: it has an [id] and nothing outside the schema. *)
Definition schema_prefix (token : Token) : bool :=
  existsb (fun n => if list_eq_dec str_eq_dec (keys token) (firstn n _fieldnames)
                    then true else false)
          (seq 1 10).

(** A unit that holds something. *)
Definition holds_something (u : TokenList) : bool :=
  truthy (data u) || truthy (metadata u).

(** The lines of a source that are not boundaries. *)
Definition content_lines (lines : list str) : list str :=
  filter (fun line => negb (blank line)) lines.

(** ** Documents *)

(** The unit as the parsers give it back: every token with its ten cells
    under the ten field names. *)
Definition normalize (u : TokenList) : TokenList :=
  mkTokenList (map (fun token => combine _fieldnames (col_buf token)) (data u))
              (metadata u).

(** A document: the texts of the units with a blank line between two of
    them (the text of a unit ends with a newline, one more makes the
    blank line). *)
Definition document (units : list TokenList) : str :=
  join [LF] (map serialize units).

(** The line boundaries of [str.splitlines] that a file handle does not
    know: all but newline and carriage return. *)
Definition is_exotic_linebreak (c : char) : bool :=
  is_linebreak c && negb (c =? LF)%N && negb (c =? CR)%N.

(** A line of a handle and the line of [str.splitlines] it stands for:
    the same, or with the newline that the handle keeps. *)
Definition same_line (handle_line line : str) : Prop :=
  handle_line = line \/ handle_line = line ++ [LF].

(** ** Matched metadata lines *)

(** A run of whitespace. *)
Definition spaces (s : str) : Prop := Forall (fun c => is_space c = true) s.

(** A string that does not begin with whitespace (it may be empty). *)
Definition no_leading_space (s : str) : bool :=
  match s with
  | [] => true
  | c :: _ => negb (is_space c)
  end.

(** A key, and a value if there is one, with no whitespace at either
    end (so neither is empty). *)
Definition trimmed_entry (kv : str * option str) : bool :=
  starts_clean (fst kv) && ends_clean (fst kv)
  && match snd kv with
     | None => true
     | Some v => starts_clean v && ends_clean v
     end.

(** ** Paths in a configuration *)

Section SweepVocabulary.
Variable atom : Type.

(** [config[p1][p2]...[pn]]: the value at a path, if every step finds a
    key of a dictionary. *)
Fixpoint lookup_path (path : list str) (ptr : value atom) : option (value atom) :=
  match path with
  | [] => Some ptr
  | piece :: rest =>
      match ptr with
      | VDict items =>
          match dict_lookup piece items with
          | Some child => lookup_path rest child
          | None => None
          end
      | VOther _ => None
      end
  end.

(** The dictionaries around a value at the end of a path, each with one
    key. *)
Fixpoint nest (most : list str) (last : str) (v : value atom) : value atom :=
  match most with
  | [] => VDict [(last, v)]
  | piece :: rest => VDict [(piece, nest rest last v)]
  end.

(** Whether some path that stops before the last piece leads to a value
    that is not a dictionary. *)
Fixpoint blocked (most : list str) (ptr : value atom) : bool :=
  match ptr with
  | VOther _ => true
  | VDict items =>
      match most with
      | [] => false
      | piece :: rest =>
          match dict_lookup piece items with
          | Some child => blocked rest child
          | None => false
          end
      end
  end.
End SweepVocabulary.

(** The pieces of a dotted key. *)
Definition path_of (key : str) : list str := split DOT key.

(** Two paths that part at some piece: neither is the beginning of the
    other. *)
Fixpoint diverge (p q : list str) : bool :=
  match p, q with
  | a :: p', b :: q' => if str_eqb a b then diverge p' q' else true
  | _, _ => false
  end.

(** ** Events of a run *)

Section RunVocabulary.
Variable atom : Type.

Definition is_run (e : event atom) : bool :=
  match e with SubprocessRun _ _ => true | _ => false end.

Definition is_finish (e : event atom) : bool :=
  match e with WandbFinish _ _ => true | _ => false end.

Definition is_dump (e : event atom) : bool :=
  match e with YamlDump _ => true | _ => false end.

(** Whether [populate_config] gets to the end of its [try] block. *)
Definition populates (w : world atom) (config : value atom) : bool :=
  match snd (insert_items config (sweep_values w)) with
  | Returned => negb (dump_raises w)
  | RaisedTypeError => false
  end.

(** The exit code of the subprocess, 1 when there was none. *)
Definition reported_code (w : world atom) : Z :=
  if init_raises w then 1%Z
  else match proc w with
       | Completed returncode _ _ => returncode
       | NotStarted => 1%Z
       end.
End RunVocabulary.

(** ** Paths in a store of dictionary objects *)

(** Numbers that are all different. *)
Fixpoint all_distinct (ids : list nat) : bool :=
  match ids with
  | [] => true
  | id :: rest => negb (existsb (Nat.eqb id) rest) && all_distinct rest
  end.

Section SharedVocabulary.
Variable atom : Type.

(** [config[p1][p2]...[pn]] in the store: the object at a path, if every
    step finds a key of a dictionary. *)
Fixpoint walk (s : Shared.store atom) (ptr : Shared.object atom)
    (path : list str) : option (Shared.object atom) :=
  match path with
  | [] => Some ptr
  | piece :: rest =>
      match ptr with
      | Shared.Other _ => None
      | Shared.Dict _ id =>
          match nth_error s id with
          | None => None
          | Some items =>
              match dict_lookup piece items with
              | Some child => walk s child rest
              | None => None
              end
          end
      end
  end.

(** The dictionary an object is, if it is one; the dictionaries that the
    items of a dictionary hold, and all those held in the store, each as
    often as it is held. *)
Definition held (v : Shared.object atom) : list nat :=
  match v with
  | Shared.Dict _ id => [id]
  | Shared.Other _ => []
  end.

Definition refs_of (items : dict (Shared.object atom)) : list nat :=
  flat_map (fun kv => held (snd kv)) items.

Definition refs (s : Shared.store atom) : list nat := flat_map refs_of s.

(** Every dictionary that the given objects are, or that is held in the
    store, is in the store. *)
Definition closed (s : Shared.store atom) (roots : list (Shared.object atom))
    : bool :=
  forallb (fun id => id <? length s) (flat_map held roots ++ refs s).

(** No dictionary is held at two places: the given objects are different
    dictionaries held nowhere in the store, and no dictionary is the
    value of two keys, of one dictionary or of two (as an anchor and its
    alias are). *)
Definition unshared (s : Shared.store atom) (roots : list (Shared.object atom))
    : bool :=
  all_distinct (flat_map held roots ++ refs s).

(** The new dictionaries for the pieces after a missing one, from the
    place [next] of the store on, and the object to store under the
    missing piece: the value itself when no piece is left. *)
Fixpoint link (next : nat) (post : list str) (v : Shared.object atom)
    : Shared.object atom * list (dict (Shared.object atom)) :=
  match post with
  | [] => (v, [])
  | k :: rest =>
      let (x, ds) := link (S next) rest v in
      (Shared.Dict atom next, [(k, x)] :: ds)
  end.

(** From an object at most one path leads to a dictionary. *)
Definition unique_paths (s : Shared.store atom) (ptr : Shared.object atom)
    : Prop :=
  forall r1 r2 id,
    walk s ptr r1 = Some (Shared.Dict atom id) ->
    walk s ptr r2 = Some (Shared.Dict atom id) -> r1 = r2.

(** A configuration with an anchor and its alias: [a] and [b] are one
    dictionary. *)
Definition aliased : Shared.store atom :=
  [[(py "a", Shared.Dict atom 1); (py "b", Shared.Dict atom 1)]; []].
End SharedVocabulary.

Section SharedRuns.
Variable atom : Type.

(** [ptr[key]] for the dictionary [id] of the store, if it has the key. *)
Definition cell (s : Shared.store atom) (id : nat) (key : str)
    : option (Shared.object atom) :=
  match nth_error s id with
  | Some items => dict_lookup key items
  | None => None
  end.

(** Every dictionary that the object is, or that the store holds, is in
    the store. *)
Definition inside (s : Shared.store atom) (ptr : Shared.object atom) : Prop :=
  forall id, In id (held ptr ++ refs s) -> id < length s.

(** The sweep values that a run goes through: none when [wandb.init]
    raises. *)
Definition inserted (w : Shared.world atom) : list (str * Shared.object atom) :=
  if Shared.init_raises w then [] else Shared.sweep_values w.
End SharedRuns.

(** * Properties *)

(** ** Strings and dictionaries *)

Lemma str_eqb_eq (a b : str) : str_eqb a b = true <-> a = b.
Proof.
  revert b; induction a as [|x a IH]; intros [|y b]; simpl; split;
    try congruence; try reflexivity.
  - intros H. apply andb_true_iff in H as [Hx Hab].
    apply N.eqb_eq in Hx. apply IH in Hab. congruence.
  - intros H. injection H as -> ->.
    apply andb_true_iff; split; [apply N.eqb_refl | now apply IH].
Qed.

Lemma str_eqb_refl (a : str) : str_eqb a a = true.
Proof. now apply str_eqb_eq. Qed.

Lemma str_eqb_neq (a b : str) : a <> b -> str_eqb a b = false.
Proof.
  intros H. destruct (str_eqb a b) eqn:E; [|reflexivity].
  apply str_eqb_eq in E. contradiction.
Qed.

Lemma dict_set_fresh (V : Type) (key : str) (value : V) (d : dict V) :
  ~ In key (keys d) -> dict_set key value d = d ++ [(key, value)].
Proof.
  induction d as [|[k v] d IH]; simpl; intros H; [reflexivity|].
  rewrite str_eqb_neq by (intros ->; apply H; now left).
  f_equal. apply IH. intros Hin. apply H. now right.
Qed.

Lemma dict_fold_fresh (V : Type) (pairs d : list (str * V)) :
  NoDup (keys (d ++ pairs)) ->
  fold_left (fun d kv => dict_set (fst kv) (snd kv) d) pairs d = d ++ pairs.
Proof.
  revert d; induction pairs as [|[k v] pairs IH]; intros d H; simpl.
  - now rewrite app_nil_r.
  - unfold keys in H. rewrite map_app in H. simpl in H.
    rewrite dict_set_fresh.
    + rewrite IH; rewrite <- app_assoc; [reflexivity|].
      unfold keys. now rewrite map_app.
    + apply NoDup_remove_2 in H. intros Hin. apply H.
      apply in_or_app. now left.
Qed.

Lemma dict_of_items_nodup (V : Type) (pairs : list (str * V)) :
  NoDup (keys pairs) -> dict_of_items pairs = pairs.
Proof. intros H. unfold dict_of_items. now rewrite dict_fold_fresh. Qed.

Lemma dict_lookup_combine (V : Type) (ks : list str) (vs : list V) (i : nat) :
  NoDup ks -> i < length ks ->
  dict_lookup (nth i ks []) (combine ks vs) = nth_error vs i.
Proof.
  revert vs i; induction ks as [|k ks IH]; intros vs i Hnd Hi; simpl in Hi.
  - lia.
  - inversion Hnd as [|? ? Hk Hks]; subst.
    destruct vs as [|v vs].
    + simpl. now destruct i.
    + destruct i as [|i]; simpl.
      * now rewrite str_eqb_refl.
      * rewrite str_eqb_neq.
        -- apply IH; [assumption | lia].
        -- intros ->. apply Hk. apply nth_In. lia.
Qed.

Lemma fieldnames_nodup : NoDup _fieldnames.
Proof.
  repeat (constructor; [simpl; intros H; repeat (destruct H as [H|H]; [discriminate H|]); exact H|]).
  constructor.
Qed.

Lemma fieldnames_length : length _fieldnames = 10.
Proof. reflexivity. Qed.

Lemma keys_combine (V : Type) (ks : list str) (vs : list V) :
  keys (combine ks vs) = firstn (length vs) ks.
Proof.
  revert vs; induction ks as [|k ks IH]; intros [|v vs]; simpl; try reflexivity.
  f_equal. apply IH.
Qed.

Lemma parse_token_combine (line : str) :
  _parse_token line = combine _fieldnames (split TAB line).
Proof.
  unfold _parse_token. apply dict_of_items_nodup.
  rewrite keys_combine. 
  pose proof fieldnames_nodup as H.
  rewrite <- (firstn_skipn (length (split TAB line)) _fieldnames) in H.
  now apply NoDup_app_remove_r in H.
Qed.

(** [split] is the inverse of [join] on the separator. *)
Lemma split_nonempty (sep : char) (s : str) : split sep s <> [].
Proof.
  destruct s as [|c s]; simpl; [discriminate|].
  destruct (c =? sep)%N; [discriminate|].
  destruct (split sep s); discriminate.
Qed.

Lemma join_split (sep : char) (s : str) : join [sep] (split sep s) = s.
Proof.
  induction s as [|c s IH]; simpl; [reflexivity|].
  destruct (c =? sep)%N eqn:E.
  - apply N.eqb_eq in E; subst c.
    pose proof (split_nonempty sep s) as Hne.
    destruct (split sep s) as [|cell cells]; [contradiction|].
    simpl in *. now rewrite IH.
  - destruct (split sep s) as [|cell cells] eqn:Es.
    + now apply split_nonempty in Es.
    + simpl in *. destruct cells; simpl in *; now rewrite <- IH.
Qed.

Lemma split_no_sep (sep : char) (s : str) :
  Forall (fun cell => ~ In sep cell) (split sep s).
Proof.
  induction s as [|c s IH]; simpl.
  - constructor; [intros [] | constructor].
  - destruct (c =? sep)%N eqn:E.
    + constructor; [intros [] | exact IH].
    + destruct (split sep s) as [|cell cells]; constructor.
      * intros [->|[]]. now rewrite N.eqb_refl in E.
      * constructor.
      * inversion IH; subst. intros [->|H]; [now rewrite N.eqb_refl in E | auto].
      * now inversion IH.
Qed.

(** ** Token lines *)

(** C3: a token line is cut at its tab characters (the cells contain no
    tab and joined by tabs give the line back) and the cells are paired
    with the ten field names in canonical order.  Field number [i] holds
    cell number [i] when the line has one and is absent when it has not,
    so a short line fills the first fields only; a cell beyond the tenth
    goes nowhere, the token never has more than the ten fields.  The line
    of the two cells 1 and The gives a token with [id] and [form] only. *)
Theorem parse_token_positional (line : str) :
  let cells := split TAB line in
  let token := _parse_token line in
  (join [TAB] cells = line /\ Forall (fun cell => ~ In TAB cell) cells)
  /\ token = combine _fieldnames cells
  /\ keys token = firstn (length cells) _fieldnames
  /\ length token = Nat.min 10 (length cells)
  /\ (forall i, i < 10 ->
        dict_lookup (nth i _fieldnames []) token = nth_error cells i)
  /\ _parse_token (py "1" ++ [TAB] ++ py "The")
     = [(py "id", py "1"); (py "form", py "The")].
Proof.
  cbv zeta. rewrite parse_token_combine.
  repeat split.
  - apply join_split.
  - apply split_no_sep.
  - apply keys_combine.
  - now rewrite length_combine, fieldnames_length.
  - intros i Hi. apply dict_lookup_combine; [apply fieldnames_nodup | exact Hi].
Qed.

(** ** The serializer *)

Lemma free_of_app (bad : char -> bool) (a b : str) :
  free_of bad (a ++ b) <-> free_of bad a /\ free_of bad b.
Proof. apply Forall_app. Qed.

Lemma split_free (sep : char) (s : str) :
  free_of (fun c => (c =? sep)%N) s -> split sep s = [s].
Proof.
  induction s as [|c s IH]; intros H; [reflexivity|].
  inversion H as [|? ? Hc Hs]; subst. simpl. rewrite Hc.
  now rewrite IH.
Qed.

Lemma split_app_sep (sep : char) (a b : str) :
  split sep (a ++ sep :: b) = split sep a ++ split sep b.
Proof.
  induction a as [|c a IH]; simpl.
  - now rewrite N.eqb_refl.
  - destruct (c =? sep)%N; rewrite IH; [reflexivity|].
    pose proof (split_nonempty sep a) as Hne.
    now destruct (split sep a).
Qed.

Lemma split_join (sep : char) (parts : list str) :
  parts <> [] -> Forall (free_of (fun c => (c =? sep)%N)) parts ->
  split sep (join [sep] parts) = parts.
Proof.
  induction parts as [|p parts IH]; intros Hne H; [contradiction|].
  inversion H as [|? ? Hp Hparts]; subst.
  destruct parts as [|q parts].
  - simpl. now apply split_free.
  - change (join [sep] (p :: q :: parts))
      with (p ++ sep :: join [sep] (q :: parts)).
    rewrite split_app_sep, split_free by assumption.
    simpl. f_equal. apply IH; [discriminate | assumption].
Qed.

(** Joining with a separator and closing with one more is the same as
    closing every part. *)
Lemma join_terminated (sep : str) (parts : list str) :
  parts <> [] ->
  join sep parts ++ sep = concat (map (fun p => p ++ sep) parts).
Proof.
  induction parts as [|p parts IH]; intros Hne; [contradiction|].
  destruct parts as [|q parts].
  - simpl. now rewrite app_nil_r.
  - change (join sep (p :: q :: parts)) with (p ++ sep ++ join sep (q :: parts)).
    change (concat (map (fun p => p ++ sep) (p :: q :: parts)))
      with ((p ++ sep) ++ concat (map (fun p => p ++ sep) (q :: parts))).
    rewrite <- IH by discriminate. now rewrite <- !app_assoc.
Qed.

Lemma col_buf_length (token : Token) : length (col_buf token) = 10.
Proof. reflexivity. Qed.

Lemma token_line_has_tab (token : Token) : In TAB (token_line token).
Proof.
  unfold token_line, col_buf. simpl map.
  cbn [join]. apply in_or_app. right. now left.
Qed.

Lemma token_line_nonempty (token : Token) : token_line token <> [].
Proof.
  intros H. pose proof (token_line_has_tab token) as Hin.
  rewrite H in Hin. exact Hin.
Qed.

Lemma metadata_line_head (kv : str * option str) :
  exists rest, metadata_line kv = HASH :: SPACE :: rest.
Proof.
  destruct kv as [key value]. unfold metadata_line.
  destruct (truthy_value value); eexists; reflexivity.
Qed.

Lemma metadata_line_nonempty (kv : str * option str) : metadata_line kv <> [].
Proof. destruct (metadata_line_head kv) as [rest ->]. discriminate. Qed.

Lemma line_buf_nonempty_lines (u : TokenList) :
  Forall (fun line => line <> []) (line_buf u).
Proof.
  apply Forall_app; split; apply Forall_forall; intros line Hin;
    apply in_map_iff in Hin as [x [<- _]].
  - apply metadata_line_nonempty.
  - apply token_line_nonempty.
Qed.

Lemma free_of_py_hash_space (bad : char -> bool) :
  bad HASH = false -> bad SPACE = false -> free_of bad (py "# ").
Proof. intros H1 H2. repeat constructor; assumption. Qed.

Lemma free_of_py_equals (bad : char -> bool) :
  bad EQUALS = false -> bad SPACE = false -> free_of bad (py " = ").
Proof. intros H1 H2. repeat constructor; assumption. Qed.

Lemma metadata_line_free (bad : char -> bool) (kv : str * option str) :
  bad HASH = false -> bad SPACE = false -> bad EQUALS = false ->
  free_of bad (fst kv) -> (forall v, snd kv = Some v -> free_of bad v) ->
  free_of bad (metadata_line kv).
Proof.
  intros Hh Hs He Hk Hv. destruct kv as [key value]. cbn [fst snd] in *.
  unfold metadata_line. destruct (truthy_value value).
  - apply free_of_app; split; [now apply free_of_py_hash_space|].
    apply free_of_app; split; [assumption|].
    apply free_of_app; split; [now apply free_of_py_equals|].
    destruct value as [v|]; [now apply Hv | constructor].
  - apply free_of_app; split; [now apply free_of_py_hash_space | assumption].
Qed.

Lemma join_free (bad : char -> bool) (sep : str) (parts : list str) :
  free_of bad sep -> Forall (free_of bad) parts -> free_of bad (join sep parts).
Proof.
  intros Hsep. induction 1 as [|p parts Hp Hparts IH]; [constructor|].
  destruct parts as [|q parts]; [exact Hp|].
  change (free_of bad (p ++ sep ++ join sep (q :: parts))).
  repeat (apply free_of_app; split); assumption.
Qed.

Lemma line_buf_free (bad : char -> bool) (u : TokenList) :
  bad HASH = false -> bad SPACE = false -> bad EQUALS = false ->
  bad TAB = false ->
  unit_free_of bad u -> Forall (free_of bad) (line_buf u).
Proof.
  intros Hh Hs He Ht [Hmd Htok].
  apply Forall_app; split; apply Forall_forall; intros line Hin;
    apply in_map_iff in Hin as [x [<- Hx]].
  - rewrite Forall_forall in Hmd. destruct (Hmd x Hx).
    now apply metadata_line_free.
  - rewrite Forall_forall in Htok.
    apply join_free; [repeat constructor; assumption | now apply Htok].
Qed.

Lemma free_of_weaken (bad bad' : char -> bool) (s : str) :
  (forall c, bad c = false -> bad' c = false) -> free_of bad s -> free_of bad' s.
Proof. intros H. apply Forall_impl. exact H. Qed.

Lemma unit_free_of_weaken (bad bad' : char -> bool) (u : TokenList) :
  (forall c, bad c = false -> bad' c = false) ->
  unit_free_of bad u -> unit_free_of bad' u.
Proof.
  intros H [Hmd Htok]. split.
  - eapply Forall_impl; [|exact Hmd]. intros kv [Hk Hv]. split.
    + now apply free_of_weaken with bad.
    + intros v Ev. apply free_of_weaken with bad; auto.
  - eapply Forall_impl; [|exact Htok]. intros token.
    apply Forall_impl. intros cell. now apply free_of_weaken.
Qed.

Lemma serialize_terminated (u : TokenList) :
  serialize u = match line_buf u with
                | [] => [LF]
                | _ :: _ => concat (map (fun line => line ++ [LF]) (line_buf u))
                end.
Proof.
  unfold serialize. destruct (line_buf u) as [|l ls] eqn:E; [reflexivity|].
  apply join_terminated. discriminate.
Qed.

Lemma serialize_split (u : TokenList) :
  unit_free_of is_newline u ->
  split LF (serialize u)
  = match line_buf u with [] => [[]] | _ :: _ => line_buf u end ++ [[]].
Proof.
  intros H. unfold serialize.
  pose proof (@line_buf_free is_newline u eq_refl eq_refl eq_refl eq_refl H) as Hfree.
  destruct (line_buf u) as [|l ls] eqn:E; [reflexivity|].
  replace (join [LF] (l :: ls) ++ [LF]) with (join [LF] (l :: ls) ++ LF :: [])
    by reflexivity.
  rewrite split_app_sep, split_join; [reflexivity | discriminate | exact Hfree].
Qed.

(** C8: the output of [serialize] is the metadata lines followed by one
    line per token in sequence order, every line closed by a newline and
    nothing after the last one (a unit with neither metadata nor tokens
    gives the lone newline).  The line of a token is its ten cells joined
    by tabs, a cell being the value of the field at that place of the
    schema, or the underscore when the token lacks the field.  The output
    ends with a newline; when no key, value or cell holds a newline it
    does not end with two, cutting it at the newlines gives back exactly
    the lines, and when no cell holds a tab cutting a token line at the
    tabs gives back its ten cells.  The token with fields 1 and The only
    is rendered with eight underscores after them. *)
Theorem serialize_lines (u : TokenList) :
  serialize u = match line_buf u with
                | [] => [LF]
                | _ :: _ => concat (map (fun line => line ++ [LF]) (line_buf u))
                end
  /\ line_buf u = map metadata_line (metadata u) ++ map token_line (data u)
  /\ (forall token : Token,
        token_line token = join [TAB] (col_buf token)
        /\ length (col_buf token) = 10
        /\ col_buf token
           = map (fun key => match dict_lookup key token with
                             | Some v => v
                             | None => py "_"
                             end) _fieldnames)
  /\ (exists body, serialize u = body ++ [LF])
  /\ (unit_free_of is_newline u ->
        (forall body, serialize u <> body ++ [LF; LF])
        /\ split LF (serialize u)
           = match line_buf u with [] => [[]] | _ :: _ => line_buf u end ++ [[]])
  /\ (unit_free_of is_tab u ->
        Forall (fun token => split TAB (token_line token) = col_buf token)
               (data u))
  /\ token_line [(py "id", py "1"); (py "form", py "The")]
     = py "1" ++ [TAB] ++ py "The" ++ [TAB] ++ py "_" ++ [TAB] ++ py "_"
       ++ [TAB] ++ py "_" ++ [TAB] ++ py "_" ++ [TAB] ++ py "_" ++ [TAB]
       ++ py "_" ++ [TAB] ++ py "_" ++ [TAB] ++ py "_".
Proof.
  split; [apply serialize_terminated|].
  split; [reflexivity|].
  split; [intros token; repeat split|].
  split; [eexists; reflexivity|].
  split; [|split; [|reflexivity]].
  - intros H. pose proof (serialize_split H) as Hs. split; [|exact Hs].
    intros body Hbody. rewrite Hbody in Hs.
    replace (body ++ [LF; LF]) with (body ++ LF :: [LF]) in Hs by reflexivity.
    rewrite split_app_sep in Hs. simpl (split LF [LF]) in Hs.
    replace (split LF body ++ [[]; []]) with ((split LF body ++ [[]]) ++ [[]])
      in Hs by now rewrite <- app_assoc.
    apply app_inj_tail in Hs as [Hs _].
    pose proof (line_buf_nonempty_lines u) as Hne.
    destruct (line_buf u) as [|l ls] eqn:E.
    + pose proof (split_nonempty LF body) as Hb.
      destruct (split LF body) as [|cell [|cell' cells]];
        [contradiction | discriminate Hs | discriminate Hs].
    + rewrite <- Hs in Hne. apply Forall_app in Hne as [_ Hne].
      inversion Hne as [|? ? Habs _]. now apply Habs.
  - intros [_ Htok]. eapply Forall_impl; [|exact Htok].
    intros token Hcells. unfold token_line. apply split_join.
    + discriminate.
    + exact Hcells.
Qed.

Lemma free_of_dec (bad : char -> bool) (s : str) :
  forallb (fun c => negb (bad c)) s = true -> free_of bad s.
Proof.
  intros H. apply Forall_forall. intros c Hc.
  rewrite forallb_forall in H. apply H in Hc. now destruct (bad c).
Qed.

Lemma unit_free_of_dec (bad : char -> bool) (u : TokenList) :
  forallb (fun c => negb (bad c)) (unit_chars u) = true -> unit_free_of bad u.
Proof.
  intros H. apply free_of_dec in H. unfold unit_chars in H.
  apply free_of_app in H as [Hmd Htok]. unfold free_of in *.
  rewrite Forall_concat, Forall_map in Hmd.
  rewrite Forall_concat, Forall_map in Htok.
  split.
  - eapply Forall_impl; [|exact Hmd]. intros [key value] Hkv.
    cbn [fst snd] in *. apply Forall_app in Hkv as [Hk Hv].
    split; [exact Hk|]. now intros v ->.
  - eapply Forall_impl; [|exact Htok]. intros token Hc.
    now rewrite Forall_concat in Hc.
Qed.

Lemma serialize_lines_witness :
  (forall body, serialize sample_unit <> body ++ [LF; LF])
  /\ Forall (fun token => split TAB (token_line token) = col_buf token)
            (data sample_unit).
Proof.
  destruct (serialize_lines sample_unit) as (_ & _ & _ & _ & Hnl & Htab & _).
  split.
  - apply Hnl. apply unit_free_of_dec. reflexivity.
  - apply Htab. apply unit_free_of_dec. reflexivity.
Defined.

(** ** The matcher *)

Section RepetitionFacts.
Variable A : Type.
Variable cl : cclass.
Variable min : nat.

Let matching (a : str) : Prop := Forall (fun c => cmatch cl c = true) a.

(** A result of a repetition is a result of its continuation after some
    run of characters of the class, long enough. *)
Lemma rep_greedy_sound (s : str) (k : str -> option A) (cnt : nat) (res : A) :
  rep_greedy cl min cnt s k = Some res ->
  exists a b, s = a ++ b /\ matching a /\ min <= cnt + length a
              /\ k b = Some res.
Proof.
  revert cnt; induction s as [|c s IH]; intros cnt H; simpl in H.
  - destruct (min <=? cnt) eqn:E; [|discriminate].
    apply Nat.leb_le in E. exists [], []. repeat split; auto.
    + constructor.
    + simpl; lia.
  - assert (Hstop : (if min <=? cnt then k (c :: s) else None) = Some res ->
                    exists a b, c :: s = a ++ b /\ matching a
                                /\ min <= cnt + length a /\ k b = Some res).
    { intros Hs. destruct (min <=? cnt) eqn:E; [|discriminate].
      apply Nat.leb_le in E. exists [], (c :: s). repeat split; auto.
      - constructor.
      - simpl; lia. }
    destruct (cmatch cl c) eqn:Ec; [|now apply Hstop].
    destruct (rep_greedy cl min (S cnt) s k) as [r|] eqn:Er; [|now apply Hstop].
    injection H as ->. apply IH in Er as (a & b & -> & Ha & Hlen & Hk).
    exists (c :: a), b. repeat split; auto.
    + now constructor.
    + simpl; lia.
Qed.

Lemma rep_lazy_sound (s : str) (k : str -> option A) (cnt : nat) (res : A) :
  rep_lazy cl min cnt s k = Some res ->
  exists a b, s = a ++ b /\ matching a /\ min <= cnt + length a
              /\ k b = Some res.
Proof.
  revert cnt; induction s as [|c s IH]; intros cnt H; simpl in H.
  - destruct (min <=? cnt) eqn:E; [|discriminate].
    destruct (k []) as [r|] eqn:Ek; [|discriminate]. injection H as ->.
    apply Nat.leb_le in E. exists [], []. repeat split; auto.
    + constructor.
    + simpl; lia.
  - destruct (if min <=? cnt then k (c :: s) else None) as [r|] eqn:Es.
    + injection H as ->. destruct (min <=? cnt) eqn:E; [|discriminate].
      apply Nat.leb_le in E. exists [], (c :: s). repeat split; auto.
      * constructor.
      * simpl; lia.
    + destruct (cmatch cl c) eqn:Ec; [|discriminate].
      apply IH in H as (a & b & -> & Ha & Hlen & Hk).
      exists (c :: a), b. repeat split; auto.
      * now constructor.
      * simpl; lia.
Qed.

(** A run of characters of the class, long enough, after which the
    continuation succeeds makes the repetition succeed (with the result
    of the run that has priority). *)
Lemma rep_greedy_complete (a b : str) (k : str -> option A) (cnt : nat) :
  matching a -> min <= cnt + length a -> k b <> None ->
  rep_greedy cl min cnt (a ++ b) k <> None.
Proof.
  intros Ha; revert cnt; induction Ha as [|c a Hc Ha IH]; intros cnt Hlen Hk.
  - assert (E : (min <=? cnt) = true) by (apply Nat.leb_le; simpl in Hlen; lia).
    destruct b as [|d b]; simpl; rewrite E; [exact Hk|].
    destruct (cmatch cl d); [|exact Hk].
    destruct (rep_greedy cl min (S cnt) b k); [discriminate | exact Hk].
  - simpl. rewrite Hc.
    specialize (IH (S cnt)). simpl in Hlen.
    destruct (rep_greedy cl min (S cnt) (a ++ b) k); [discriminate|].
    exfalso. apply IH; [lia | exact Hk | reflexivity].
Qed.

Lemma rep_lazy_complete (a b : str) (k : str -> option A) (cnt : nat) :
  matching a -> min <= cnt + length a -> k b <> None ->
  rep_lazy cl min cnt (a ++ b) k <> None.
Proof.
  intros Ha; revert cnt; induction Ha as [|c a Hc Ha IH]; intros cnt Hlen Hk.
  - assert (E : (min <=? cnt) = true) by (apply Nat.leb_le; simpl in Hlen; lia).
    destruct b as [|d b]; simpl; rewrite E;
      (destruct (k _); [discriminate | now exfalso; apply Hk]).
  - simpl. destruct (if min <=? cnt then k (c :: a ++ b) else None);
      [discriminate|].
    rewrite Hc. apply IH; [simpl in Hlen; lia | exact Hk].
Qed.

(** The greedy repetition takes the whole run when the continuation
    accepts what follows it. *)
Lemma rep_greedy_max (a b : str) (k : str -> option A) (cnt : nat) (res : A) :
  matching a ->
  match b with [] => True | c :: _ => cmatch cl c = false end ->
  min <= cnt + length a -> k b = Some res ->
  rep_greedy cl min cnt (a ++ b) k = Some res.
Proof.
  intros Ha Hb; revert cnt; induction Ha as [|c a Hc Ha IH]; intros cnt Hlen Hk.
  - simpl in *. assert (E : (min <=? cnt) = true) by (apply Nat.leb_le; lia).
    destruct b as [|d b]; simpl; rewrite E; [exact Hk|].
    now rewrite Hb.
  - simpl. rewrite Hc. rewrite IH; [reflexivity | simpl in Hlen; lia | exact Hk].
Qed.

(** It fails when the continuation fails after every run. *)
Lemma rep_greedy_none (s : str) (k : str -> option A) (cnt : nat) :
  (forall a b, s = a ++ b -> matching a -> min <= cnt + length a ->
               k b = None) ->
  rep_greedy cl min cnt s k = None.
Proof.
  intros H. destruct (rep_greedy cl min cnt s k) as [res|] eqn:E; [|reflexivity].
  apply rep_greedy_sound in E as (a & b & Hs & Ha & Hlen & Hk).
  rewrite (H a b Hs Ha Hlen) in Hk. discriminate.
Qed.

(** The lazy repetition stops at the first place, from the shortest run
    on, where the continuation succeeds. *)
Lemma rep_lazy_first (a b : str) (k : str -> option A) (cnt : nat) (res : A) :
  matching a ->
  (forall a1 a2, a = a1 ++ a2 -> a2 <> [] -> k (a2 ++ b) = None) ->
  min <= cnt + length a -> k b = Some res ->
  rep_lazy cl min cnt (a ++ b) k = Some res.
Proof.
  intros Ha; revert cnt; induction Ha as [|c a Hc Ha IH]; intros cnt Hnone Hlen Hk.
  - simpl in *. assert (E : (min <=? cnt) = true) by (apply Nat.leb_le; lia).
    destruct b as [|d b]; simpl; rewrite E, Hk; reflexivity.
  - assert (Hk0 : k (c :: a ++ b) = None)
      by (apply (Hnone [] (c :: a)); [reflexivity | discriminate]).
    simpl. rewrite Hk0, Hc.
    destruct (min <=? cnt); apply IH;
      try (simpl in Hlen; lia); try exact Hk;
      intros a1 a2 -> Hne; apply (Hnone (c :: a1) a2); auto.
Qed.
End RepetitionFacts.

(** ** The metadata pattern *)

Lemma fullmatch_metadata_re (line : str) :
  fullmatch metadata_re line
  = match line with
    | [] => None
    | c :: s1 =>
        if (c =? HASH)%N
        then rep_greedy CSpace 1 0 s1
               (fun s2 => rep_lazy CDot 1 0 s2 (after_key s2))
        else None
    end.
Proof. reflexivity. Qed.

Lemma no_space_equals_app_r (a b : str) :
  no_space_equals (a ++ b) = true -> no_space_equals b = true.
Proof.
  induction a as [|c a IH]; [trivial|].
  simpl. intros H. apply andb_true_iff in H as [_ H]. now apply IH.
Qed.

Lemma no_space_equals_pair (x y : str) (w e : char) :
  no_space_equals (x ++ w :: e :: y) = true -> is_space w = true ->
  is_equals e = false.
Proof.
  intros H Hw. apply no_space_equals_app_r in H. simpl in H.
  rewrite Hw in H. now destruct (is_equals e).
Qed.

Lemma firstn_length_app (a b : str) :
  firstn (length (a ++ b) - length b) (a ++ b) = a.
Proof.
  rewrite length_app, Nat.add_sub.
  rewrite firstn_app, Nat.sub_diag, firstn_all. simpl. apply app_nil_r.
Qed.

Lemma firstn_length_all (a : str) : firstn (length a - 0) a = a.
Proof. rewrite Nat.sub_0_r. apply firstn_all. Qed.

Lemma value_tail_sound (g1 res : groups) (s3 : str) :
  value_tail g1 s3 = Some res ->
  exists v2 v3, res = (2, v2) :: (3, v3) :: g1.
Proof.
  unfold value_tail. intros H.
  apply rep_greedy_sound in H as (a & b & _ & _ & _ & H).
  destruct b as [|c s5]; [discriminate|].
  destruct (cmatch (CLit EQUALS) c); [|discriminate].
  apply rep_greedy_sound in H as (a' & b' & _ & _ & _ & H).
  apply rep_greedy_sound in H as (a'' & b'' & _ & _ & _ & H).
  destruct b''; [|discriminate]. injection H as <-. eauto.
Qed.

(** Group 1 takes part in every match of the pattern. *)
Lemma metadata_group1 (line : str) (g : groups) :
  fullmatch metadata_re line = Some g -> exists key, group 1 g = Some key.
Proof.
  rewrite fullmatch_metadata_re. destruct line as [|c s1]; [discriminate|].
  destruct (c =? HASH)%N; [|discriminate]. intros H.
  apply rep_greedy_sound in H as (a & b & _ & _ & _ & H).
  apply rep_lazy_sound in H as (a' & b' & _ & _ & _ & H).
  unfold after_key in H. cbv zeta in H.
  destruct (value_tail _ b') as [res|] eqn:E.
  - injection H as <-. apply value_tail_sound in E as (v2 & v3 & ->).
    simpl. eauto.
  - destruct b'; [|discriminate]. injection H as <-. simpl. eauto.
Qed.

(** A line matches only when it is a hash sign, then whitespace, then at
    least one more character. *)
Lemma metadata_needs_hash_space (line : str) :
  match line with
  | c :: d :: _ :: _ => (c =? HASH)%N && is_space d
  | _ => false
  end = false ->
  _maybe_parse_metadata line = None.
Proof.
  intros H. unfold _maybe_parse_metadata.
  destruct (fullmatch metadata_re line) as [g|] eqn:E; [|reflexivity].
  exfalso. rewrite fullmatch_metadata_re in E.
  destruct line as [|c s1]; [discriminate|].
  destruct (c =? HASH)%N; [|discriminate].
  apply rep_greedy_sound in E as (a & b & -> & Ha & Hlen & E).
  apply rep_lazy_sound in E as (a' & b' & -> & Ha' & Hlen' & _).
  destruct a as [|d a]; [simpl in Hlen; lia|].
  inversion Ha as [|? ? Hd _]; subst. simpl in Hd.
  destruct a' as [|e a']; [simpl in Hlen'; lia|].
  simpl in H. rewrite Hd in H.
  destruct a; simpl in H; discriminate.
Qed.

(** A line without a newline matches as soon as it has that shape. *)
Lemma metadata_hash_space_matches (d e : char) (rest : str) :
  is_space d = true -> free_of is_newline (e :: rest) ->
  _maybe_parse_metadata (HASH :: d :: e :: rest) <> None.
Proof.
  intros Hd Hfree. unfold _maybe_parse_metadata.
  destruct (fullmatch metadata_re (HASH :: d :: e :: rest)) as [g|] eqn:E.
  - destruct (metadata_group1 _ E) as [key ->]. discriminate.
  - exfalso. rewrite fullmatch_metadata_re in E.
    change (HASH =? HASH)%N with true in E. cbv iota in E.
    revert E. apply (@rep_greedy_complete _ CSpace 1 [d] (e :: rest)).
    + now repeat constructor.
    + simpl; lia.
    + rewrite <- (app_nil_r (e :: rest)).
      apply rep_lazy_complete.
      * eapply Forall_impl; [|exact Hfree].
        intros c Hc. unfold is_newline in Hc. simpl. now rewrite Hc.
      * simpl; lia.
      * unfold after_key. cbv zeta.
        destruct (value_tail _ []); discriminate.
Qed.

Lemma ends_clean_not_spaces (s : str) :
  ends_clean s = true -> ~ Forall (fun c => cmatch CSpace c = true) s.
Proof.
  unfold ends_clean. intros H Hall. apply Forall_rev in Hall.
  destruct (rev s) as [|c r]; [discriminate|].
  inversion Hall as [|? ? Hc _]; subst. simpl in *. now rewrite Hc in H.
Qed.

Lemma ends_clean_app (a b : str) :
  b <> [] -> ends_clean (a ++ b) = ends_clean b.
Proof.
  intros Hb. unfold ends_clean. rewrite rev_app_distr.
  destruct (rev b) as [|c r] eqn:E; [|reflexivity].
  apply (f_equal (@rev char)) in E. rewrite rev_involutive in E. contradiction.
Qed.

(** After a part of the key, the matcher finds no equals sign to stop at:
    the key has none after whitespace, and whitespace cannot run from
    inside the key to the equals sign the serializer wrote. *)
Lemma after_key_none (s2 a2 suffix : str) :
  a2 <> [] -> no_space_equals a2 = true ->
  suffix = [] \/ ends_clean a2 = true ->
  after_key s2 (a2 ++ suffix) = None.
Proof.
  intros Hne Heq Hend.
  assert (Hv : forall g1, value_tail g1 (a2 ++ suffix) = None).
  2:{ unfold after_key. cbv zeta. rewrite Hv.
      destruct a2; [contradiction | reflexivity]. }
  intros g1. unfold value_tail. apply rep_greedy_none.
  - intros a b Hsplit Ha Hlen.
    symmetry in Hsplit. apply app_eq_app in Hsplit as [l [[-> Hs]|[-> ->]]].
    + apply Forall_app in Ha as [Ha _].
      destruct Hend as [E|Hend].
      * rewrite E in Hs. symmetry in Hs. apply app_eq_nil in Hs as [_ ->].
        reflexivity.
      * now apply ends_clean_not_spaces in Hend.
    + destruct l as [|e l].
      * rewrite app_nil_r in *. destruct Hend as [->|Hend]; [reflexivity|].
        now apply ends_clean_not_spaces in Hend.
      * destruct (@exists_last _ a) as (x & w & ->);
          [intros ->; simpl in Hlen; lia|].
        apply Forall_app in Ha as [_ Hw]. inversion Hw as [|? ? Hspace _]; subst.
        rewrite <- app_assoc in Heq. simpl in Heq, Hspace.
        apply no_space_equals_pair in Heq; [|exact Hspace].
        simpl. unfold is_equals in Heq. now rewrite Heq.
Qed.

Lemma starts_clean_head (s : str) :
  starts_clean s = true ->
  exists c r, s = c :: r /\ is_space c = false.
Proof.
  destruct s as [|c r]; [discriminate|]. simpl. intros H.
  exists c, r. split; [reflexivity|]. now destruct (is_space c).
Qed.

Lemma free_newline_dot (s : str) :
  free_of is_newline s -> Forall (fun c => cmatch CDot c = true) s.
Proof.
  apply Forall_impl. intros c Hc. unfold is_newline in Hc. simpl.
  now rewrite Hc.
Qed.

(** The matcher on a line of the serializer: one blank after the hash
    sign, then the key, which the lazy group 1 takes whole. *)
Lemma match_key_then (key suffix : str) (res : groups) :
  starts_clean key = true -> free_of is_newline key ->
  no_space_equals key = true ->
  suffix = [] \/ ends_clean key = true ->
  after_key (key ++ suffix) suffix = Some res ->
  fullmatch metadata_re (HASH :: SPACE :: key ++ suffix) = Some res.
Proof.
  intros Hstart Hnl Heq Hend Hres.
  destruct (starts_clean_head _ Hstart) as (c & r & Ekey & Hc).
  rewrite fullmatch_metadata_re. change (HASH =? HASH)%N with true. cbv iota.
  apply (@rep_greedy_max _ CSpace 1 [SPACE] (key ++ suffix)).
  - now repeat constructor.
  - rewrite Ekey. exact Hc.
  - simpl; lia.
  - apply rep_lazy_first.
    + now apply free_newline_dot.
    + intros a1 a2 E Hne. apply after_key_none; [exact Hne | |].
      * rewrite E in Heq. now apply no_space_equals_app_r in Heq.
      * destruct Hend as [Hs|He]; [now left | right].
        rewrite E in He. now rewrite ends_clean_app in He.
    + rewrite Ekey. simpl; lia.
    + exact Hres.
Qed.

Lemma parse_flag_line (key : str) :
  starts_clean key = true -> free_of is_newline key ->
  no_space_equals key = true ->
  _maybe_parse_metadata (py "# " ++ key) = Some (key, None).
Proof.
  intros Hstart Hnl Heq. unfold _maybe_parse_metadata.
  change (py "# " ++ key) with (HASH :: SPACE :: key).
  rewrite <- (app_nil_r key) at 1.
  rewrite (@match_key_then key [] [(1, key)]); auto.
  unfold after_key, value_tail. cbn [rep_greedy Nat.leb length].
  now rewrite app_nil_r, firstn_length_all.
Qed.

Lemma parse_value_line (key v : str) :
  starts_clean key = true -> ends_clean key = true ->
  free_of is_newline key -> no_space_equals key = true ->
  starts_clean v = true -> free_of is_newline v ->
  _maybe_parse_metadata (py "# " ++ key ++ py " = " ++ v) = Some (key, Some v).
Proof.
  intros Hstart Hend Hnl Heq Hv Hvnl. unfold _maybe_parse_metadata.
  change (py "# " ++ key ++ py " = " ++ v)
    with (HASH :: SPACE :: key ++ py " = " ++ v).
  rewrite (@match_key_then key (py " = " ++ v)
             [(2, py " = " ++ v); (3, v); (1, key)]); auto.
  destruct (starts_clean_head _ Hv) as (c & r & Ev & Hc).
  unfold after_key. cbv zeta.
  replace (value_tail _ _)
    with (Some [(2, py " = " ++ v); (3, v); (1, key)]); [reflexivity|].
  symmetry. unfold value_tail.
  apply (@rep_greedy_max _ CSpace 1 [SPACE] (EQUALS :: SPACE :: v));
    [now repeat constructor | reflexivity | simpl; lia |].
  change (cmatch (CLit EQUALS) EQUALS) with true. cbv iota.
  apply (@rep_greedy_max _ CSpace 1 [SPACE] v);
    [now repeat constructor | rewrite Ev; exact Hc | simpl; lia |].
  rewrite <- (app_nil_r v) at 1.
  apply rep_greedy_max;
    [now apply free_newline_dot | exact I | lia |].
  change (length (@nil char)) with 0.
  rewrite !firstn_length_all.
  now rewrite (firstn_length_app key (py " = " ++ v)).
Qed.

(** ** Stripping and cutting into lines *)

Lemma lstrip_clean (s : str) : starts_clean s = true -> lstrip s = s.
Proof.
  intros H. destruct (starts_clean_head _ H) as (c & r & -> & Hc).
  simpl. now rewrite Hc.
Qed.

Lemma rstrip_clean (s : str) : ends_clean s = true -> rstrip s = s.
Proof.
  intros H. unfold rstrip. rewrite lstrip_clean by exact H.
  apply rev_involutive.
Qed.

Lemma strip_clean (s : str) :
  starts_clean s = true -> ends_clean s = true -> strip s = s.
Proof.
  intros Hs He. unfold strip. rewrite lstrip_clean by exact Hs.
  now apply rstrip_clean.
Qed.

Lemma starts_clean_app (a b : str) :
  starts_clean a = true -> starts_clean (a ++ b) = true.
Proof. destruct a; [discriminate | trivial]. Qed.

Lemma ends_clean_app_r (a b : str) :
  ends_clean b = true -> ends_clean (a ++ b) = true.
Proof.
  intros H. rewrite ends_clean_app; [exact H|].
  intros ->. discriminate H.
Qed.

Lemma splitlines_line (line rest : str) :
  free_of is_linebreak line ->
  splitlines (line ++ LF :: rest) = line :: splitlines rest.
Proof.
  induction 1 as [|c line Hc Hline IH]; [reflexivity|].
  simpl. rewrite Hc. now rewrite IH.
Qed.

Lemma splitlines_terminated (lines : list str) :
  Forall (free_of is_linebreak) lines ->
  splitlines (concat (map (fun line => line ++ [LF]) lines)) = lines.
Proof.
  induction 1 as [|line lines Hline Hlines IH]; [reflexivity|].
  simpl concat. rewrite <- app_assoc. simpl app.
  rewrite splitlines_line by exact Hline. now rewrite IH.
Qed.

(** ** Reading back what the serializer wrote *)

Lemma distinct_nodup (l : list str) : distinct l = true -> NoDup l.
Proof.
  induction l as [|x l IH]; simpl; intros H; constructor;
    apply andb_true_iff in H as [Hx Hl].
  - intros Hin. apply negb_true_iff in Hx.
    assert (existsb (str_eqb x) l = true); [|congruence].
    apply existsb_exists. exists x. split; [exact Hin | apply str_eqb_refl].
  - now apply IH.
Qed.

Lemma free_of_forallb (bad : char -> bool) (s : str) :
  forallb (fun c => negb (bad c)) s = true <-> free_of bad s.
Proof.
  split; [apply free_of_dec|].
  intros H. apply forallb_forall. intros c Hc.
  unfold free_of in H. rewrite Forall_forall in H. now rewrite H.
Qed.

Lemma free_of_or (bad1 bad2 : char -> bool) (s : str) :
  forallb (fun c => negb (bad1 c || bad2 c)) s = true ->
  free_of bad1 s /\ free_of bad2 s.
Proof.
  intros H. apply (free_of_forallb (fun c => bad1 c || bad2 c)) in H.
  split; eapply free_of_weaken; try exact H; intros c Hc;
    apply orb_false_iff in Hc; tauto.
Qed.

Lemma linebreak_free_newline_free (s : str) :
  free_of is_linebreak s -> free_of is_newline s.
Proof.
  apply free_of_weaken. intros c Hc. unfold is_newline.
  destruct (c =? LF)%N eqn:E; [|reflexivity].
  apply N.eqb_eq in E. subst c. discriminate Hc.
Qed.

Lemma absorb_metadata_line (st : accum) (key : str) (value : option str) :
  clean_key key = true -> clean_value value = true ->
  absorb st (strip (metadata_line (key, value)))
  = mkAccum (dict_set key value (acc_metadata st)) (acc_tokens st).
Proof.
  unfold clean_key, clean_value. intros Hk Hv.
  apply andb_true_iff in Hk as [Hk Heq].
  apply andb_true_iff in Hk as [Hk Hlb].
  apply andb_true_iff in Hk as [Hks Hke].
  apply free_of_forallb, linebreak_free_newline_free in Hlb.
  unfold absorb, metadata_line. destruct value as [v|]; simpl truthy_value.
  - apply andb_true_iff in Hv as [Hv Hvfree].
    apply andb_true_iff in Hv as [Hvs Hve].
    apply free_of_forallb, linebreak_free_newline_free in Hvfree.
    replace (truthy v) with true by (now destruct v).
    rewrite strip_clean.
    + now rewrite parse_value_line.
    + reflexivity.
    + rewrite !app_assoc. now apply ends_clean_app_r.
  - rewrite strip_clean.
    + now rewrite parse_flag_line.
    + reflexivity.
    + now apply ends_clean_app_r.
Qed.

Lemma clean_cells_ten (cells : list str) :
  length cells = 10 -> clean_cells cells = true ->
  exists first middle last,
    cells = first :: middle ++ [last]
    /\ starts_clean first = true
    /\ comment_like (first ++ [TAB]) = false
    /\ ends_clean last = true
    /\ Forall (free_of is_tab) cells
    /\ Forall (free_of is_linebreak) cells.
Proof.
  intros Hlen H. unfold clean_cells in H.
  apply andb_true_iff in H as [H Hlast].
  apply andb_true_iff in H as [H Hcomment].
  apply andb_true_iff in H as [Hfree Hfirst].
  apply negb_true_iff in Hcomment.
  do 10 (destruct cells as [|? cells]; [discriminate Hlen|]).
  destruct cells; [|discriminate Hlen].
  eexists _, [_; _; _; _; _; _; _; _], _.
  split; [reflexivity|]. repeat split; try assumption.
  - apply Forall_forall. intros cell Hin.
    rewrite forallb_forall in Hfree. now apply Hfree, free_of_or in Hin.
  - apply Forall_forall. intros cell Hin.
    rewrite forallb_forall in Hfree. now apply Hfree, free_of_or in Hin.
Qed.

Lemma join_cons (sep p : str) (rest : list str) :
  rest <> [] -> join sep (p :: rest) = p ++ sep ++ join sep rest.
Proof. destruct rest; [contradiction | reflexivity]. Qed.

Lemma join_snoc (sep : str) (parts : list str) (last : str) :
  join sep (parts ++ [last]) = concat (map (fun p => p ++ sep) parts) ++ last.
Proof.
  induction parts as [|p parts IH]; [reflexivity|].
  change ((p :: parts) ++ [last]) with (p :: parts ++ [last]).
  rewrite join_cons by (destruct parts; discriminate).
  rewrite IH. simpl. now rewrite <- !app_assoc.
Qed.

Lemma not_comment_like (line : str) :
  comment_like line = false ->
  match line with
  | c :: d :: _ :: _ => (c =? HASH)%N && is_space d
  | _ => false
  end = false.
Proof. destruct line as [|c [|d [|e r]]]; simpl; auto. Qed.

Lemma comment_like_prefix (first tail : str) :
  first <> [] ->
  comment_like (first ++ TAB :: tail) = comment_like (first ++ [TAB]).
Proof. destruct first as [|c [|d r]]; [contradiction | reflexivity..]. Qed.

Lemma absorb_token_line (st : accum) (cells : list str) :
  length cells = 10 -> clean_cells cells = true ->
  absorb st (strip (join [TAB] cells))
  = mkAccum (acc_metadata st)
            (acc_tokens st ++ [combine _fieldnames cells]).
Proof.
  intros Hlen H.
  destruct (clean_cells_ten _ Hlen H)
    as (first & middle & last & E & Hfirst & Hcomment & Hlast & Htab & Hlb).
  assert (Hmid : exists cell rest, middle ++ [last] = cell :: rest).
  { subst cells. destruct middle as [|cell rest]; [discriminate Hlen|].
    simpl. eauto. }
  destruct Hmid as (cell & rest & Emid).
  assert (Ejoin : join [TAB] cells = first ++ TAB :: join [TAB] (cell :: rest)).
  { rewrite E, Emid. reflexivity. }
  rewrite strip_clean.
  - unfold absorb. rewrite metadata_needs_hash_space.
    + rewrite parse_token_combine, split_join; [reflexivity | | exact Htab].
      rewrite E. discriminate.
    + apply not_comment_like. rewrite Ejoin, <- Hcomment.
      apply comment_like_prefix. intros ->. discriminate Hfirst.
  - rewrite Ejoin. now apply starts_clean_app.
  - rewrite E. change (first :: middle ++ [last])
      with ((first :: middle) ++ [last]).
    rewrite join_snoc. now apply ends_clean_app_r.
Qed.

Lemma col_buf_combine (cells : list str) :
  length cells = 10 -> col_buf (combine _fieldnames cells) = cells.
Proof.
  intros Hlen.
  do 10 (destruct cells as [|? cells]; [discriminate Hlen|]).
  destruct cells; [reflexivity | discriminate Hlen].
Qed.

Lemma fold_metadata_lines (md : dict (option str)) (st : accum) :
  forallb (fun kv => clean_key (fst kv) && clean_value (snd kv)) md = true ->
  fold_left (fun st line => absorb st (strip line)) (map metadata_line md) st
  = mkAccum (fold_left (fun d kv => dict_set (fst kv) (snd kv) d) md
                       (acc_metadata st))
            (acc_tokens st).
Proof.
  revert st; induction md as [|[key value] md IH]; intros st H;
    cbn [map fold_left fst snd].
  - now destruct st.
  - cbn [forallb fst snd] in H. apply andb_true_iff in H as [Hkv Hmd].
    apply andb_true_iff in Hkv as [Hk Hv].
    rewrite absorb_metadata_line by assumption.
    now rewrite IH.
Qed.

Lemma fold_token_lines (tokens : list Token) (st : accum) :
  forallb (fun token => clean_cells (col_buf token)) tokens = true ->
  fold_left (fun st line => absorb st (strip line)) (map token_line tokens) st
  = mkAccum (acc_metadata st)
            (acc_tokens st
             ++ map (fun token => combine _fieldnames (col_buf token)) tokens).
Proof.
  revert st; induction tokens as [|token tokens IH]; intros st H;
    cbn [map fold_left].
  - rewrite app_nil_r. now destruct st.
  - cbn [forallb] in H. apply andb_true_iff in H as [Ht Htokens].
    rewrite (@absorb_token_line st _ (col_buf_length token) Ht
             : absorb st (strip (token_line token)) = _).
    rewrite IH by assumption. cbn [acc_metadata acc_tokens].
    now rewrite <- app_assoc.
Qed.

Lemma round_trip_ready_linebreak_free (u : TokenList) :
  round_trip_ready u = true -> unit_free_of is_linebreak u.
Proof.
  unfold round_trip_ready. intros H.
  apply andb_true_iff in H as [H Htok].
  apply andb_true_iff in H as [_ Hmd].
  split; apply Forall_forall.
  - intros [key value] Hin. rewrite forallb_forall in Hmd.
    apply Hmd in Hin. cbn [fst snd] in *.
    apply andb_true_iff in Hin as [Hk Hv]. split.
    + unfold clean_key in Hk. apply andb_true_iff in Hk as [Hk _].
      apply andb_true_iff in Hk as [_ Hk]. now apply free_of_forallb.
    + intros v ->. unfold clean_value in Hv.
      apply andb_true_iff in Hv as [_ Hv]. now apply free_of_forallb.
  - intros token Hin. rewrite forallb_forall in Htok. apply Htok in Hin.
    destruct (clean_cells_ten _ (col_buf_length token) Hin)
      as (? & ? & ? & _ & _ & _ & _ & _ & Hlb).
    exact Hlb.
Qed.

Lemma round_trip_ready_lines (u : TokenList) :
  round_trip_ready u = true -> line_buf u <> [].
Proof.
  unfold round_trip_ready, line_buf. intros H.
  apply andb_true_iff in H as [H _].
  apply andb_true_iff in H as [H _].
  apply andb_true_iff in H as [H _].
  destruct u as [[|t ts] [|kv md]]; simpl in *; discriminate.
Qed.

(** What [parse_from_string] gives for the text of a unit that is ready
    for the round trip: the metadata as they were, and every token with
    its ten cells under the ten field names. *)
Lemma parse_serialize (u : TokenList) :
  round_trip_ready u = true ->
  parse_from_string (serialize u)
  = mkTokenList (map (fun token => combine _fieldnames (col_buf token)) (data u))
                (metadata u).
Proof.
  intros H. unfold parse_from_string.
  pose proof (round_trip_ready_lines _ H) as Hne.
  pose proof (round_trip_ready_linebreak_free _ H) as Hlb.
  apply (@line_buf_free is_linebreak u eq_refl eq_refl eq_refl eq_refl) in Hlb.
  rewrite serialize_terminated.
  destruct (line_buf u) as [|l ls] eqn:E; [contradiction|]. rewrite <- E in *.
  rewrite splitlines_terminated by exact Hlb.
  unfold round_trip_ready in H.
  apply andb_true_iff in H as [H Htok].
  apply andb_true_iff in H as [H Hmd].
  apply andb_true_iff in H as [_ Hkeys].
  unfold line_buf. rewrite fold_left_app.
  rewrite fold_metadata_lines by exact Hmd.
  rewrite fold_token_lines by exact Htok.
  simpl. f_equal. apply dict_fold_fresh. simpl. now apply distinct_nodup.
Qed.

(** C1, amended: [parse_from_string (serialize u)] has the cells and the
    metadata of [u] when [u] has a token or a metadata entry; its metadata
    keys are distinct, not empty, without whitespace at either end and
    without equals sign or line boundary; every metadata value is absent
    or not empty, without whitespace at either end and without line
    boundary; and the cells of every token have no tab and no line
    boundary, the first is not empty, does not begin with whitespace and
    is not a hash sign alone or followed by whitespace, and the last is
    not empty and does not end with whitespace. *)
Theorem round_trip (u : TokenList) :
  round_trip_ready u = true ->
  same_fields u (parse_from_string (serialize u)).
Proof.
  intros H. rewrite (parse_serialize _ H). split; [|reflexivity].
  cbn [data]. rewrite map_map. apply map_ext. intros token.
  apply col_buf_combine, col_buf_length.
Qed.

Lemma round_trip_witness :
  round_trip_ready sample_unit = true
  /\ same_fields sample_unit (parse_from_string (serialize sample_unit)).
Proof. split; [reflexivity | apply round_trip; reflexivity]. Defined.

(** C1, as stated, fails: every line is stripped when it is read back,
    so a value that ends with a blank loses it. *)
Lemma round_trip_counterexample :
  within_schema trailing_blank_unit = true
  /\ no_tab_newline trailing_blank_unit = true
  /\ metadata (parse_from_string (serialize trailing_blank_unit))
     = [(py "text", Some (py "The"))]
  /\ ~ spec_round_trip trailing_blank_unit.
Proof.
  split; [reflexivity|]. split; [reflexivity|]. split; [reflexivity|].
  intros H. destruct (H eq_refl eq_refl) as [_ Hmd].
  vm_compute in Hmd. discriminate Hmd.
Qed.

(** Other units inside the stated contract that do not come back: the
    unit with nothing in it (its text is one newline, read as one line,
    which is a token), an empty metadata value (written as a flag), a
    token whose identifier is a hash sign (read as metadata), a key with
    an equals sign between blanks (cut there). *)
Lemma round_trip_other_failures :
  parse_from_string (serialize (mkTokenList [] []))
  = mkTokenList [[(py "id", [])]] []
  /\ parse_from_string (serialize (mkTokenList [] [(py "k", Some [])]))
     = mkTokenList [] [(py "k", None)]
  /\ data (parse_from_string
             (serialize (mkTokenList [[(py "id", py "#"); (py "form", py "x")]] [])))
     = []
  /\ parse_from_string (serialize (mkTokenList [] [(py "a = b", None)]))
     = mkTokenList [] [(py "a", Some (py "b"))].
Proof. repeat split; vm_compute; reflexivity. Qed.

(** ** The streaming assembler *)

Lemma blank_strip (line : str) : blank line = true <-> strip line = [].
Proof. unfold blank. destruct (strip line); simpl; split; congruence. Qed.

Lemma handle_step_blank (st : accum) (line : str) :
  blank line = true ->
  handle_step st line
  = if pending st then (empty_accum, [unit_of st]) else (st, []).
Proof. intros H. unfold handle_step. fold (blank line). now rewrite H. Qed.

Lemma handle_step_content (st : accum) (line : str) :
  blank line = false -> handle_step st line = (absorb st (strip line), []).
Proof. intros H. unfold handle_step. fold (blank line). now rewrite H. Qed.

Lemma not_pending_empty (st : accum) : pending st = false -> st = empty_accum.
Proof. destruct st as [[|? ?] [|? ?]]; simpl; intros H; now try discriminate. Qed.

Lemma dict_set_nonempty (V : Type) (key : str) (value : V) (d : dict V) :
  truthy (dict_set key value d) = true.
Proof. destruct d as [|[k v] d]; simpl; [|destruct (str_eqb k key)]; reflexivity. Qed.

Lemma pending_absorb (st : accum) (line : str) : pending (absorb st line) = true.
Proof.
  unfold absorb, pending.
  destruct (_maybe_parse_metadata line) as [[key value]|]; simpl.
  - rewrite dict_set_nonempty. apply orb_true_r.
  - now destruct (acc_tokens st).
Qed.

Lemma pending_absorb_all (block : list str) (st : accum) :
  block <> [] \/ pending st = true -> pending (absorb_all block st) = true.
Proof.
  revert st; induction block as [|line block IH]; intros st H; simpl.
  - destruct H as [H|H]; [contradiction | exact H].
  - apply IH. right. apply pending_absorb.
Qed.

(** A run of lines without a boundary yields nothing and only fills the
    accumulators. *)
Lemma handle_loop_block (block rest : list str) (st : accum) :
  existsb blank block = false ->
  handle_loop st (block ++ rest) = handle_loop (absorb_all block st) rest.
Proof.
  revert st; induction block as [|line block IH]; intros st H;
    [reflexivity|].
  simpl in H. apply orb_false_iff in H as [Hline Hblock].
  simpl. rewrite handle_step_content by exact Hline. simpl. now apply IH.
Qed.

Lemma handle_loop_blank (line : str) (rest : list str) (st : accum) :
  blank line = true ->
  handle_loop st (line :: rest)
  = handle_finish st ++ handle_loop empty_accum rest.
Proof.
  intros H. simpl. rewrite handle_step_blank by exact H.
  unfold handle_finish. destruct (pending st) eqn:E; [reflexivity|].
  now rewrite (not_pending_empty _ E).
Qed.

Lemma handle_loop_collapse (lines : list str) (st : accum) (after_blank : bool) :
  (after_blank = true -> pending st = false) ->
  handle_loop st (collapse_from after_blank lines) = handle_loop st lines.
Proof.
  revert st after_blank; induction lines as [|line lines IH];
    intros st after_blank Hinv; [reflexivity|].
  cbn [collapse_from]. destruct (blank line) eqn:Hline.
  - destruct after_blank.
    + rewrite IH by exact Hinv. simpl.
      rewrite handle_step_blank by exact Hline. now rewrite Hinv.
    + rewrite !handle_loop_blank by exact Hline. f_equal.
      now apply IH.
  - simpl. rewrite handle_step_content by exact Hline. simpl.
    apply IH. discriminate.
Qed.

(** C4: at a boundary line the loop either yields the unit of the two
    accumulators and empties both, when one of them holds something, or
    does nothing, when both are empty; and what the step yields is what
    the generator yields next: from any state, the units of a source
    that begins with a boundary are that unit, if there is one, and then
    the units of the other lines read from empty accumulators.  So the
    lines up to the first boundary make the first unit of the parser,
    and no unit when there is no line before the boundary.  And so a
    source yields the same units as the source without its boundaries
    that follow a boundary, the leading ones dropped or kept as one. *)
Theorem blank_line_boundary (st : accum) (line : str) (block lines : list str) :
  (blank line = true ->
   handle_step st line
   = if truthy (acc_tokens st) || truthy (acc_metadata st)
     then (mkAccum [] [], [mkTokenList (acc_tokens st) (acc_metadata st)])
     else (st, []))
  /\ (blank line = true ->
      handle_loop st (line :: lines)
      = (if truthy (acc_tokens st) || truthy (acc_metadata st)
         then [mkTokenList (acc_tokens st) (acc_metadata st)]
         else [])
        ++ handle_loop (mkAccum [] []) lines)
  /\ (blank line = true -> existsb blank block = false ->
      _parse_from_handle (block ++ line :: lines)
      = (if truthy block then [sentence_of block] else [])
        ++ _parse_from_handle lines)
  /\ _parse_from_handle (collapse_from true lines) = _parse_from_handle lines
  /\ _parse_from_handle (collapse_from false lines) = _parse_from_handle lines
  /\ (blank line = true ->
      _parse_from_handle (line :: lines) = _parse_from_handle lines
      /\ handle_loop st (line :: line :: lines) = handle_loop st (line :: lines)).
Proof.
  split; [apply handle_step_blank|].
  split; [intros H; now rewrite handle_loop_blank by exact H|].
  split.
  { intros Hline Hblock. unfold _parse_from_handle.
    rewrite handle_loop_block by exact Hblock.
    rewrite handle_loop_blank by exact Hline. f_equal.
    unfold handle_finish, sentence_of, unit_of.
    destruct block as [|first block]; [reflexivity|].
    rewrite pending_absorb_all; [reflexivity | now left]. }
  split; [now apply handle_loop_collapse|].
  split; [apply handle_loop_collapse; discriminate|].
  intros H. split.
  - unfold _parse_from_handle. now rewrite handle_loop_blank.
  - now rewrite !handle_loop_blank.
Qed.

Lemma blank_line_boundary_witness :
  handle_step (mkAccum [] [[(py "id", py "1")]]) [LF]
  = (empty_accum, [mkTokenList [[(py "id", py "1")]] []])
  /\ handle_loop (mkAccum [] [[(py "id", py "1")]]) ([LF] :: [py "2"; [LF]; [LF]])
     = [mkTokenList [[(py "id", py "1")]] []; mkTokenList [[(py "id", py "2")]] []]
  /\ _parse_from_handle ([py "# newpar" ++ [LF]; py "1" ++ [LF]]
                         ++ [LF] :: [py "2"; [LF]; [LF]])
     = [mkTokenList [[(py "id", py "1")]] [(py "newpar", None)];
        mkTokenList [[(py "id", py "2")]] []]
  /\ _parse_from_handle ([LF] :: [py "2"; [LF]; [LF]])
     = _parse_from_handle [py "2"; [LF]; [LF]].
Proof.
  destruct (blank_line_boundary (mkAccum [] [[(py "id", py "1")]]) [LF]
              [py "# newpar" ++ [LF]; py "1" ++ [LF]]
              [py "2"; [LF]; [LF]])
    as (Hstep & Hloop & Hunit & _ & _ & Hlead).
  split; [apply Hstep; reflexivity|].
  split; [etransitivity; [apply Hloop; reflexivity | reflexivity]|].
  split; [etransitivity; [apply Hunit; reflexivity | reflexivity]|].
  apply Hlead. reflexivity.
Defined.

Lemma sentence_block_spec (block : list str) :
  sentence_block block = true -> block <> [] /\ existsb blank block = false.
Proof.
  unfold sentence_block. intros H. apply andb_true_iff in H as [Hne Hb].
  split; [now destruct block | now apply negb_true_iff].
Qed.

Lemma handle_loop_sentence (block rest : list str) :
  sentence_block block = true ->
  handle_loop empty_accum (block ++ rest)
  = handle_loop (absorb_all block empty_accum) rest
  /\ pending (absorb_all block empty_accum) = true.
Proof.
  intros H. apply sentence_block_spec in H as [Hne Hb]. split.
  - now apply handle_loop_block.
  - apply pending_absorb_all. now left.
Qed.

Lemma parse_sentences (sep : str) (blocks : list (list str)) :
  blank sep = true -> forallb sentence_block blocks = true ->
  _parse_from_handle (join [sep] blocks) = map sentence_of blocks
  /\ _parse_from_handle (join [sep] blocks ++ [sep]) = map sentence_of blocks.
Proof.
  intros Hsep. unfold _parse_from_handle.
  induction blocks as [|block blocks IH]; intros H.
  - split; [reflexivity|]. simpl. now rewrite handle_step_blank.
  - simpl in H. apply andb_true_iff in H as [Hblock Hblocks].
    specialize (IH Hblocks) as [IH1 IH2].
    destruct blocks as [|next blocks].
    + cbn [join map]. split.
      * rewrite <- (app_nil_r block) at 1.
        destruct (handle_loop_sentence block [] Hblock) as [-> Hp].
        simpl. unfold handle_finish. now rewrite Hp.
      * destruct (handle_loop_sentence block [sep] Hblock) as [-> Hp].
        rewrite handle_loop_blank by exact Hsep.
        unfold handle_finish. now rewrite Hp.
    + change (join [sep] (block :: next :: blocks))
        with (block ++ sep :: join [sep] (next :: blocks)).
      rewrite <- app_assoc.
      change ((sep :: join [sep] (next :: blocks)) ++ [sep])
        with (sep :: join [sep] (next :: blocks) ++ [sep]).
      destruct (handle_loop_sentence block (sep :: join [sep] (next :: blocks)) Hblock)
        as [-> Hp].
      destruct (handle_loop_sentence block
                  (sep :: join [sep] (next :: blocks) ++ [sep]) Hblock)
        as [-> _].
      rewrite !handle_loop_blank by exact Hsep.
      unfold handle_finish. rewrite Hp, IH1, IH2. now split.
Qed.

(** C5: at the end of the input the loop yields the unit of the
    accumulators when one of them holds something, and nothing more.  A
    source of N sentences with one boundary line between two of them
    yields exactly the N units of these sentences, in their order, with
    or without a boundary line after the last sentence. *)
Theorem end_of_input (st : accum) (sep : str) (blocks : list (list str)) :
  handle_loop st []
  = (if truthy (acc_tokens st) || truthy (acc_metadata st)
     then [mkTokenList (acc_tokens st) (acc_metadata st)] else [])
  /\ (blank sep = true -> forallb sentence_block blocks = true ->
      _parse_from_handle (join [sep] blocks) = map sentence_of blocks
      /\ length (_parse_from_handle (join [sep] blocks)) = length blocks
      /\ _parse_from_handle (join [sep] blocks ++ [sep]) = map sentence_of blocks).
Proof.
  split; [reflexivity|]. intros Hsep Hblocks.
  destruct (parse_sentences sep blocks Hsep Hblocks) as [H1 H2].
  rewrite H1, H2, length_map. auto.
Qed.

Lemma end_of_input_witness :
  _parse_from_handle (join [[LF]] two_sentences)
  = [mkTokenList [[(py "id", py "1"); (py "form", py "The")]]
                 [(py "sent_id", Some (py "1"))];
     mkTokenList [[(py "id", py "1"); (py "form", py "A")];
                  [(py "id", py "2"); (py "form", py "cat")]]
                 [(py "newpar", None)]].
Proof.
  destruct (end_of_input empty_accum [LF] two_sentences) as [_ H].
  destruct (H eq_refl eq_refl) as [-> _]. reflexivity.
Defined.

(** C9: a source with no line, or with boundary lines only, yields no
    unit. *)
Theorem empty_source (lines : list str) :
  forallb blank lines = true -> _parse_from_handle lines = [].
Proof.
  unfold _parse_from_handle. induction lines as [|line lines IH]; intros H;
    [reflexivity|].
  simpl in H. apply andb_true_iff in H as [Hline Hlines].
  rewrite handle_loop_blank by exact Hline. now apply IH.
Qed.

Lemma empty_source_witness :
  _parse_from_handle [] = []
  /\ _parse_from_handle [[LF]; [SPACE; TAB; CR; LF]; []] = [].
Proof. split; apply empty_source; reflexivity. Defined.

(** ** Order *)

Lemma mem_In (key : str) (ks : list str) : mem key ks = true <-> In key ks.
Proof.
  unfold mem. rewrite existsb_exists. split.
  - intros [x [Hin E]]. apply str_eqb_eq in E. now subst.
  - intros H. exists key. split; [exact H | apply str_eqb_refl].
Qed.

Lemma keys_dict_set (V : Type) (key : str) (value : V) (d : dict V) :
  keys (dict_set key value d)
  = if mem key (keys d) then keys d else keys d ++ [key].
Proof.
  induction d as [|[k v] d IH]; [reflexivity|].
  unfold mem in *. cbn [dict_set keys map fst existsb].
  destruct (str_eqb k key) eqn:E.
  - apply str_eqb_eq in E. subst k. now rewrite str_eqb_refl.
  - assert (E' : str_eqb key k = false)
      by (apply str_eqb_neq; intros ->; now rewrite str_eqb_refl in E).
    rewrite E'. cbn [orb map fst]. fold (keys (dict_set key value d)).
    fold (keys d). rewrite IH. now destruct (existsb (str_eqb key) (keys d)).
Qed.

Lemma str_eqb_sym (a b : str) : str_eqb a b = str_eqb b a.
Proof.
  destruct (str_eqb b a) eqn:E.
  - apply str_eqb_eq in E. subst. apply str_eqb_refl.
  - apply str_eqb_neq. intros ->. now rewrite str_eqb_refl in E.
Qed.

Lemma dict_lookup_set (V : Type) (key k : str) (value : V) (d : dict V) :
  dict_lookup k (dict_set key value d)
  = if str_eqb key k then Some value else dict_lookup k d.
Proof.
  induction d as [|[k' v'] d IH]; simpl; [reflexivity|].
  destruct (str_eqb k' key) eqn:E; simpl.
  - apply str_eqb_eq in E. subst k'. now destruct (str_eqb key k).
  - destruct (str_eqb k' k) eqn:E'; [|exact IH].
    apply str_eqb_eq in E'. subst k'. rewrite str_eqb_sym in E.
    now rewrite E.
Qed.

Lemma dict_lookup_app (V : Type) (k : str) (d1 d2 : dict V) :
  dict_lookup k (d1 ++ d2)
  = match dict_lookup k d1 with
    | Some v => Some v
    | None => dict_lookup k d2
    end.
Proof.
  induction d1 as [|[k' v'] d1 IH]; simpl; [reflexivity|].
  now destruct (str_eqb k' k).
Qed.

Lemma set_all_snoc (V : Type) (items : list (str * V)) (kv : str * V) (d : dict V) :
  set_all (items ++ [kv]) d = dict_set (fst kv) (snd kv) (set_all items d).
Proof. unfold set_all. now rewrite fold_left_app. Qed.

Lemma keys_set_all (V : Type) (items : list (str * V)) :
  keys (set_all items []) = first_occurrences (keys items).
Proof.
  induction items as [|kv items IH] using rev_ind; [reflexivity|].
  rewrite set_all_snoc, keys_dict_set, IH.
  unfold first_occurrences, keys. rewrite map_app, rev_app_distr. simpl.
  destruct (in_dec str_eq_dec (fst kv) (rev (map fst items))) as [Hin|Hin].
  - replace (mem _ _) with true; [reflexivity|].
    symmetry. apply mem_In. rewrite <- in_rev. now apply nodup_In.
  - replace (mem _ _) with false; [reflexivity|].
    symmetry. apply not_true_is_false. intros H. apply Hin.
    apply mem_In in H. rewrite <- in_rev in H.
    now apply nodup_In in H.
Qed.

Lemma lookup_set_all (V : Type) (items : list (str * V)) (k : str) :
  dict_lookup k (set_all items []) = dict_lookup k (rev items).
Proof.
  induction items as [|[key value] items IH] using rev_ind; [reflexivity|].
  rewrite set_all_snoc, dict_lookup_set, rev_app_distr. simpl.
  now destruct (str_eqb key k).
Qed.

Lemma absorb_all_spec (lines : list str) (st : accum) :
  absorb_all lines st
  = mkAccum (set_all (entries lines) (acc_metadata st))
            (acc_tokens st
             ++ map (fun line => _parse_token (strip line)) (token_lines lines)).
Proof.
  revert st; induction lines as [|line lines IH]; intros st.
  - simpl. rewrite app_nil_r. now destruct st.
  - unfold absorb_all in *. cbn [fold_left]. rewrite IH.
    unfold entries, token_lines, is_metadata, absorb. cbn [flat_map filter].
    destruct (_maybe_parse_metadata (strip line)) as [[key value]|];
      cbn [negb acc_metadata acc_tokens map app]; [reflexivity|].
    now rewrite <- app_assoc.
Qed.

Lemma handle_loop_split (l1 l2 : list str) (sep : str) (st : accum) :
  blank sep = true ->
  handle_loop st (l1 ++ sep :: l2)
  = handle_loop st l1 ++ handle_loop empty_accum l2.
Proof.
  intros Hsep. revert st; induction l1 as [|line l1 IH]; intros st.
  - simpl app. now rewrite handle_loop_blank.
  - change ((line :: l1) ++ sep :: l2) with (line :: l1 ++ sep :: l2).
    destruct (blank line) eqn:Hline.
    + rewrite !handle_loop_blank by exact Hline.
      now rewrite IH, app_assoc.
    + simpl. rewrite handle_step_content by exact Hline. simpl. apply IH.
Qed.

(** C7: in the unit that either parser makes of a run of lines, the
    metadata keys stand in the order of their first occurrence among the
    metadata lines, the value of a key is the one of its last metadata
    line, and the tokens are the token lines in the order of the lines.
    Setting a key that is already there leaves the keys as they were; a
    new key goes to the end.  [parse_from_string] makes this unit of all
    the lines of its buffer, [_parse_from_handle] of a run of lines
    without a boundary; and the units of a source are those of the lines
    before a boundary followed by those of the lines after it. *)
Theorem parse_order (buffer : str) (lines before after : list str) (sep : str)
    (d : dict (option str)) (key : str) (value : option str) :
  let st := absorb_all lines empty_accum in
  (keys (acc_metadata st) = first_occurrences (keys (entries lines))
   /\ (forall k, dict_lookup k (acc_metadata st)
                 = dict_lookup k (rev (entries lines)))
   /\ acc_tokens st
      = map (fun line => _parse_token (strip line)) (token_lines lines))
  /\ (keys (dict_set key value d)
      = if mem key (keys d) then keys d else keys d ++ [key])
  /\ dict_lookup key (dict_set key value d) = Some value
  /\ parse_from_string buffer = sentence_of (splitlines buffer)
  /\ (sentence_block lines = true ->
      _parse_from_handle lines = [sentence_of lines])
  /\ (blank sep = true ->
      _parse_from_handle (before ++ sep :: after)
      = _parse_from_handle before ++ _parse_from_handle after).
Proof.
  cbv zeta. rewrite absorb_all_spec. cbn [acc_metadata acc_tokens app].
  split; [split; [apply keys_set_all | split; [|reflexivity]]|].
  { intros k. apply lookup_set_all. }
  split; [apply keys_dict_set|].
  split; [rewrite dict_lookup_set; now rewrite str_eqb_refl|].
  split; [reflexivity|].
  split.
  - intros H. unfold _parse_from_handle. rewrite <- (app_nil_r lines) at 1.
    destruct (handle_loop_sentence lines [] H) as [-> Hp].
    simpl. unfold handle_finish. now rewrite Hp.
  - intros H. now apply handle_loop_split.
Qed.

Lemma parse_order_witness :
  _parse_from_handle [py "# a = 1"; py "x"; py "# b"; py "# a = 2"; py "y"]
  = [mkTokenList [[(py "id", py "x")]; [(py "id", py "y")]]
                 [(py "a", Some (py "2")); (py "b", None)]]
  /\ _parse_from_handle ([py "x"] ++ [LF] :: [py "y"])
     = _parse_from_handle [py "x"] ++ _parse_from_handle [py "y"].
Proof.
  split.
  - destruct (parse_order [] [py "# a = 1"; py "x"; py "# b"; py "# a = 2"; py "y"]
                [] [] [] [] [] None) as (_ & _ & _ & _ & H & _).
    rewrite H; reflexivity.
  - destruct (parse_order [] [] [py "x"] [py "y"] [LF] [] [] None)
      as (_ & _ & _ & _ & _ & H).
    apply H. reflexivity.
Defined.

(** ** Lines of the whole-buffer parser *)

(** C10: [parse_from_string] has no boundary lines.  A line of its buffer
    that strips to nothing is a token line like any other and gives the
    token whose only field is an empty [id]; the tokens of the result are
    all the lines that are not metadata, in order.  The empty buffer has
    no line and gives one unit without tokens and without metadata. *)
Theorem string_parser_blank_lines (st : accum) (line buffer : str) :
  (blank line = true ->
   _maybe_parse_metadata (strip line) = None
   /\ _parse_token (strip line) = [(py "id", [])]
   /\ col_buf (_parse_token (strip line))
      = [[]; py "_"; py "_"; py "_"; py "_"; py "_"; py "_"; py "_"; py "_"; py "_"]
   /\ absorb st (strip line)
      = mkAccum (acc_metadata st) (acc_tokens st ++ [[(py "id", [])]]))
  /\ data (parse_from_string buffer)
     = map (fun l => _parse_token (strip l)) (token_lines (splitlines buffer))
  /\ parse_from_string [] = mkTokenList [] []
  /\ parse_from_string (py "1" ++ [LF; SPACE; LF; LF] ++ py "2")
     = mkTokenList [[(py "id", py "1")]; [(py "id", [])]; [(py "id", [])];
                    [(py "id", py "2")]] [].
Proof.
  split; [|split; [|split; reflexivity]].
  - intros H. apply blank_strip in H. unfold absorb. rewrite H.
    repeat split.
  - unfold parse_from_string. fold (absorb_all (splitlines buffer) empty_accum).
    now rewrite absorb_all_spec.
Qed.

Lemma string_parser_blank_lines_witness :
  absorb empty_accum (strip [SPACE; TAB])
  = mkAccum [] [[(py "id", [])]].
Proof.
  destruct (string_parser_blank_lines empty_accum [SPACE; TAB] []) as [H _].
  destruct (H eq_refl) as (_ & _ & _ & Habsorb). exact Habsorb.
Defined.

(** ** Metadata lines *)

(** C2, as stated, fails: the serializer tests the truth value of the
    value, and the empty string is false like [None]. *)
Lemma metadata_line_counterexample :
  metadata_line (py "k", Some []) = py "# k"
  /\ spec_metadata_line (py "k", Some []) = py "# k = "
  /\ serialize (mkTokenList [] [(py "k", Some [])]) = py "# k" ++ [LF]
  /\ ~ (forall kv, metadata_line kv = spec_metadata_line kv).
Proof.
  repeat split. intros H. specialize (H (py "k", Some [])). discriminate H.
Qed.

(** C2, amended: the first lines of the output are the metadata lines,
    one per entry in recorded order; the line of an entry is the hash
    sign, a blank and the key, followed by blank, equals sign, blank and
    the value when the value is a string that is not empty, and by
    nothing when the value is absent or the empty string.  The two lines
    [# newpar] and [# sent_id = 1] are read as the flag newpar and the
    entry of sent_id with value 1, in this order, by both parsers, and
    written again as they were. *)
Theorem serialize_metadata (u : TokenList) (key : str) (c : char) (v : str) :
  firstn (length (metadata u)) (line_buf u) = map metadata_line (metadata u)
  /\ skipn (length (metadata u)) (line_buf u) = map token_line (data u)
  /\ serialize u = match line_buf u with
                   | [] => [LF]
                   | _ :: _ => concat (map (fun line => line ++ [LF]) (line_buf u))
                   end
  /\ metadata_line (key, Some (c :: v)) = py "# " ++ key ++ py " = " ++ c :: v
  /\ metadata_line (key, None) = py "# " ++ key
  /\ metadata_line (key, Some []) = py "# " ++ key
  /\ metadata (parse_from_string flag_then_value)
     = [(py "newpar", None); (py "sent_id", Some (py "1"))]
  /\ map metadata
         (_parse_from_handle [py "# newpar" ++ [LF]; py "# sent_id = 1" ++ [LF];
                              py "1" ++ [TAB] ++ py "The" ++ [LF]])
     = [[(py "newpar", None); (py "sent_id", Some (py "1"))]]
  /\ firstn 2 (split LF (serialize (parse_from_string flag_then_value)))
     = [py "# newpar"; py "# sent_id = 1"].
Proof.
  assert (Hlen : length (metadata u) = length (map metadata_line (metadata u)))
    by now rewrite length_map.
  unfold line_buf at 1 2.
  split; [rewrite Hlen, firstn_app, Nat.sub_diag, firstn_all; apply app_nil_r|].
  split; [rewrite Hlen, skipn_app, Nat.sub_diag, skipn_all; reflexivity|].
  split; [apply serialize_terminated|].
  repeat split.
Qed.

(** A line that begins with a hash sign and holds no newline matches the
    pattern exactly when it has this shape. *)
Lemma hash_line_matches (rest : str) :
  free_of is_newline rest ->
  (_maybe_parse_metadata (HASH :: rest) = None <-> comment_shape rest = false).
Proof.
  intros Hfree. split.
  - intros H. destruct rest as [|d [|e r]]; try reflexivity.
    simpl. destruct (is_space d) eqn:Hd; [|reflexivity].
    exfalso. revert H. apply metadata_hash_space_matches; [exact Hd|].
    now inversion Hfree.
  - intros H. apply metadata_needs_hash_space.
    destruct rest as [|d [|e r]]; try reflexivity.
    simpl in H. now rewrite H.
Qed.

(** ** What the streaming assembler keeps *)

Lemma handle_finish_holds (st : accum) :
  Forall (fun u => holds_something u = true) (handle_finish st).
Proof.
  unfold handle_finish. destruct (pending st) eqn:E; constructor; [exact E|].
  constructor.
Qed.

Lemma handle_loop_holds (lines : list str) (st : accum) :
  Forall (fun u => holds_something u = true) (handle_loop st lines).
Proof.
  revert st; induction lines as [|line lines IH]; intros st.
  - apply handle_finish_holds.
  - destruct (blank line) eqn:Hline.
    + rewrite handle_loop_blank by exact Hline.
      apply Forall_app. split; [apply handle_finish_holds | apply IH].
    + simpl. rewrite handle_step_content by exact Hline. simpl. apply IH.
Qed.

Lemma handle_loop_count (lines : list str) (st : accum) :
  length (handle_loop st lines) <= S (length (filter blank lines)).
Proof.
  revert st; induction lines as [|line lines IH]; intros st.
  - simpl. unfold handle_finish. destruct (pending st); simpl; lia.
  - destruct (blank line) eqn:Hline.
    + rewrite handle_loop_blank by exact Hline. simpl. rewrite Hline.
      rewrite length_app. specialize (IH empty_accum).
      unfold handle_finish. destruct (pending st); simpl in *; lia.
    + simpl. rewrite handle_step_content by exact Hline. rewrite Hline.
      simpl. apply IH.
Qed.

(** X1: [_parse_from_handle] never yields a unit with neither token nor
    metadata, and it yields at most one unit more than the source has
    boundary lines. *)
Theorem handle_units_hold_something (lines : list str) :
  Forall (fun u => holds_something u = true) (_parse_from_handle lines)
  /\ length (_parse_from_handle lines) <= S (length (filter blank lines)).
Proof. split; [apply handle_loop_holds | apply handle_loop_count]. Qed.

Lemma is_metadata_blank (line : str) :
  blank line = true -> is_metadata (strip line) = false.
Proof. intros H. apply blank_strip in H. now rewrite H. Qed.

Lemma token_lines_content (lines : list str) :
  token_lines (content_lines lines)
  = filter (fun line => negb (blank line) && negb (is_metadata (strip line))) lines.
Proof.
  unfold token_lines, content_lines.
  induction lines as [|line lines IH]; [reflexivity|].
  simpl. destruct (blank line); simpl; [exact IH|].
  destruct (is_metadata (strip line)); simpl; now rewrite IH.
Qed.

Lemma handle_finish_tokens (st : accum) :
  concat (map data (handle_finish st)) = acc_tokens st.
Proof.
  unfold handle_finish. destruct (pending st) eqn:E; simpl.
  - apply app_nil_r.
  - now rewrite (not_pending_empty _ E).
Qed.

Lemma handle_loop_tokens (lines : list str) (st : accum) :
  concat (map data (handle_loop st lines))
  = acc_tokens st
    ++ map (fun line => _parse_token (strip line))
           (token_lines (content_lines lines)).
Proof.
  revert st; induction lines as [|line lines IH]; intros st.
  - simpl handle_loop. rewrite handle_finish_tokens. simpl. now rewrite app_nil_r.
  - unfold token_lines, content_lines in *. cbn [filter].
    destruct (blank line) eqn:Hline; cbn [negb].
    + rewrite handle_loop_blank by exact Hline.
      rewrite map_app, concat_app, handle_finish_tokens, IH. reflexivity.
    + cbn [handle_loop]. rewrite handle_step_content by exact Hline.
      cbn [app filter]. rewrite IH. unfold absorb, is_metadata.
      destruct (_maybe_parse_metadata (strip line)) as [[key value]|];
        cbn [negb acc_tokens map]; [reflexivity|].
      now rewrite <- app_assoc.
Qed.

(** X2: the streaming assembler loses no token line and invents none:
    the tokens of the units it yields, taken in order, are the lines of
    the source that are neither boundaries nor metadata, each stripped
    and parsed, in source order. *)
Theorem handle_tokens_conserved (lines : list str) :
  concat (map data (_parse_from_handle lines))
  = map (fun line => _parse_token (strip line))
        (filter (fun line => negb (blank line) && negb (is_metadata (strip line)))
                lines).
Proof.
  unfold _parse_from_handle. rewrite handle_loop_tokens.
  now rewrite token_lines_content.
Qed.

(** ** Comment lines outside the pattern *)

Lemma sentence_of_spec (lines : list str) :
  sentence_of lines
  = mkTokenList (map (fun line => _parse_token (strip line)) (token_lines lines))
                (set_all (entries lines) []).
Proof. unfold sentence_of, unit_of. now rewrite absorb_all_spec. Qed.

Lemma entries_app (l1 l2 : list str) :
  entries (l1 ++ l2) = entries l1 ++ entries l2.
Proof. apply flat_map_app. Qed.

Lemma token_lines_app (l1 l2 : list str) :
  token_lines (l1 ++ l2) = token_lines l1 ++ token_lines l2.
Proof. apply filter_app. Qed.

Lemma content_lines_app (l1 l2 : list str) :
  content_lines (l1 ++ l2) = content_lines l1 ++ content_lines l2.
Proof. apply filter_app. Qed.

(** The unit of a run of lines with a line in it that is not metadata. *)
Lemma sentence_of_token_line (before after : list str) (line : str) :
  _maybe_parse_metadata (strip line) = None ->
  sentence_of (before ++ line :: after)
  = mkTokenList (data (sentence_of before)
                 ++ _parse_token (strip line) :: data (sentence_of after))
                (metadata (sentence_of (before ++ after))).
Proof.
  intros Hnone. rewrite !sentence_of_spec. cbn [data metadata].
  change (line :: after) with ([line] ++ after).
  rewrite !entries_app, !token_lines_app, !map_app.
  unfold entries at 2, token_lines at 2, is_metadata.
  cbn [flat_map filter]. rewrite Hnone. reflexivity.
Qed.

(** C6: a line that, stripped, begins with a hash sign and does not match
    the metadata pattern is a token line for both parsers: the metadata
    stay as they are and the token of its tab-separated cells, paired
    with the field names in order, is appended; the streaming loop yields
    nothing at it.  So the unit that [parse_from_string] makes of a
    buffer with such a line, and the unit that [_parse_from_handle]
    yields for a sentence with such a line, has this token between the
    tokens of the lines before and those of the lines after, and the
    metadata of the other lines; and in any source the tokens of the
    units, one after the other, are those of the lines before, this
    token, and those of the lines after.  Without a newline inside,
    these are the lines where the hash sign is not followed by
    whitespace and one more character, and their first cell, which
    begins with the hash sign, becomes the [id].  Every function
    involved is total: no line raises. *)
Theorem malformed_comment_is_token (st : accum) (line rest buffer : str)
    (before after : list str) :
  strip line = HASH :: rest ->
  _maybe_parse_metadata (strip line) = None ->
  absorb st (strip line)
  = mkAccum (acc_metadata st)
            (acc_tokens st ++ [combine _fieldnames (split TAB (strip line))])
  /\ handle_step st line
     = (mkAccum (acc_metadata st)
                (acc_tokens st ++ [combine _fieldnames (split TAB (strip line))]),
        [])
  /\ (splitlines buffer = before ++ line :: after ->
      parse_from_string buffer
      = mkTokenList
          (data (sentence_of before)
           ++ combine _fieldnames (split TAB (strip line))
              :: data (sentence_of after))
          (metadata (sentence_of (before ++ after))))
  /\ (existsb blank before = false -> existsb blank after = false ->
      _parse_from_handle (before ++ line :: after)
      = [mkTokenList
           (data (sentence_of before)
            ++ combine _fieldnames (split TAB (strip line))
               :: data (sentence_of after))
           (metadata (sentence_of (before ++ after)))])
  /\ concat (map data (_parse_from_handle (before ++ line :: after)))
     = concat (map data (_parse_from_handle before))
       ++ combine _fieldnames (split TAB (strip line))
          :: concat (map data (_parse_from_handle after))
  /\ (exists cell cells,
        split TAB (strip line) = (HASH :: cell) :: cells
        /\ dict_lookup (py "id") (_parse_token (strip line)) = Some (HASH :: cell))
  /\ (free_of is_newline rest -> comment_shape rest = false).
Proof.
  intros Hline Hnone.
  assert (Habsorb : absorb st (strip line)
            = mkAccum (acc_metadata st)
                (acc_tokens st ++ [combine _fieldnames (split TAB (strip line))])).
  { unfold absorb. now rewrite Hnone, parse_token_combine. }
  assert (Hcontent : blank line = false).
  { unfold blank. now rewrite Hline. }
  split; [exact Habsorb|].
  split; [rewrite handle_step_content; [now rewrite Habsorb | exact Hcontent]|].
  split.
  { intros Hlines. rewrite <- parse_token_combine.
    rewrite <- sentence_of_token_line by exact Hnone.
    rewrite <- Hlines. reflexivity. }
  split.
  { intros Hbefore Hafter. rewrite <- parse_token_combine.
    rewrite <- sentence_of_token_line by exact Hnone.
    assert (Hblock : sentence_block (before ++ line :: after) = true).
    { unfold sentence_block. apply andb_true_iff. split.
      - now destruct before.
      - rewrite existsb_app. cbn [existsb].
        now rewrite Hbefore, Hcontent, Hafter. }
    unfold _parse_from_handle.
    rewrite <- (app_nil_r (before ++ line :: after)) at 1.
    destruct (handle_loop_sentence (before ++ line :: after) [] Hblock)
      as [-> Hp].
    simpl. unfold handle_finish. now rewrite Hp. }
  split.
  { unfold _parse_from_handle. rewrite !handle_loop_tokens.
    cbn [acc_tokens empty_accum app].
    change (line :: after) with ([line] ++ after).
    rewrite !content_lines_app, !token_lines_app, !map_app.
    unfold content_lines at 2. cbn [filter]. rewrite Hcontent. cbn [negb].
    unfold token_lines at 2, is_metadata. cbn [filter]. rewrite Hnone.
    cbn [negb map app]. now rewrite parse_token_combine. }
  split.
  - rewrite parse_token_combine, Hline. simpl.
    pose proof (split_nonempty TAB rest) as Hne.
    destruct (split TAB rest) as [|cell cells]; [contradiction|].
    destruct (HASH =? TAB)%N eqn:E; [discriminate E|].
    exists cell, cells. split; reflexivity.
  - intros Hfree. apply hash_line_matches; [exact Hfree|].
    now rewrite <- Hline.
Qed.

Lemma malformed_comment_is_token_witness :
  absorb empty_accum (strip (py "#comment" ++ [TAB] ++ py "x" ++ [LF]))
  = mkAccum [] [[(py "id", py "#comment"); (py "form", py "x")]]
  /\ handle_step empty_accum (py "#" ++ [LF])
     = (mkAccum [] [[(py "id", py "#")]], [])
  /\ parse_from_string
       (py "# sent_id = 1" ++ [LF] ++ py "#comment" ++ [TAB] ++ py "x" ++ [LF]
        ++ py "1" ++ [TAB] ++ py "The")
     = mkTokenList [[(py "id", py "#comment"); (py "form", py "x")];
                    [(py "id", py "1"); (py "form", py "The")]]
                   [(py "sent_id", Some (py "1"))]
  /\ _parse_from_handle
       ([py "# sent_id = 1" ++ [LF]]
        ++ (py "#comment" ++ [TAB] ++ py "x" ++ [LF])
        :: [py "1" ++ [TAB] ++ py "The" ++ [LF]])
     = [mkTokenList [[(py "id", py "#comment"); (py "form", py "x")];
                     [(py "id", py "1"); (py "form", py "The")]]
                    [(py "sent_id", Some (py "1"))]].
Proof.
  split; [|split; [|split]].
  - apply (@malformed_comment_is_token empty_accum
             (py "#comment" ++ [TAB] ++ py "x" ++ [LF])
             (py "comment" ++ [TAB] ++ py "x") [] [] []); reflexivity.
  - apply (@malformed_comment_is_token empty_accum (py "#" ++ [LF]) [] [] [] []);
      reflexivity.
  - destruct (@malformed_comment_is_token empty_accum
                (py "#comment" ++ [TAB] ++ py "x")
                (py "comment" ++ [TAB] ++ py "x")
                (py "# sent_id = 1" ++ [LF] ++ py "#comment" ++ [TAB] ++ py "x"
                 ++ [LF] ++ py "1" ++ [TAB] ++ py "The")
                [py "# sent_id = 1"] [py "1" ++ [TAB] ++ py "The"]
                eq_refl eq_refl) as (_ & _ & H & _).
    etransitivity; [apply H; reflexivity | reflexivity].
  - destruct (@malformed_comment_is_token empty_accum
                (py "#comment" ++ [TAB] ++ py "x" ++ [LF])
                (py "comment" ++ [TAB] ++ py "x") []
                [py "# sent_id = 1" ++ [LF]] [py "1" ++ [TAB] ++ py "The" ++ [LF]]
                eq_refl eq_refl) as (_ & _ & _ & H & _).
    etransitivity; [apply H; reflexivity | reflexivity].
Defined.

(** ** Tokens stay inside the schema *)

Lemma schema_prefix_parse_token (line : str) :
  schema_prefix (_parse_token line) = true.
Proof.
  unfold schema_prefix. rewrite parse_token_combine, keys_combine.
  pose proof (split_nonempty TAB line) as Hne.
  destruct (split TAB line) as [|c0 cells]; [contradiction|].
  apply existsb_exists.
  exists (Nat.min 10 (length (c0 :: cells))). split.
  - apply in_seq. cbn [length]. lia.
  - destruct (list_eq_dec str_eq_dec _ _) as [|Hneq]; [reflexivity|].
    exfalso. apply Hneq.
    destruct (le_lt_dec (length (c0 :: cells)) 10) as [Hle|Hgt].
    + now rewrite Nat.min_r.
    + rewrite Nat.min_l by lia.
      rewrite firstn_all2 by (rewrite fieldnames_length; lia). reflexivity.
Qed.

Lemma schema_prefix_spec (token : Token) :
  schema_prefix token = true ->
  (exists n, 1 <= n <= 10 /\ keys token = firstn n _fieldnames)
  /\ incl (keys token) _fieldnames
  /\ In (py "id") (keys token).
Proof.
  unfold schema_prefix. intros H. apply existsb_exists in H as [n [Hn E]].
  apply in_seq in Hn.
  destruct (list_eq_dec str_eq_dec _ _) as [Hk|]; [|discriminate].
  split; [exists n; split; [lia | exact Hk]|]. rewrite Hk. split.
  - intros k Hin. rewrite <- (firstn_skipn n _fieldnames).
    apply in_or_app. now left.
  - destruct n as [|n]; [lia|]. now left.
Qed.

(** X3: every token either parser builds has as its fields the first [n]
    names of the schema, in schema order, for some [n] from one to ten: it
    always has an [id] and never a field outside the schema. *)
Theorem parsed_tokens_in_schema (buffer : str) (lines : list str) :
  Forall (fun token => schema_prefix token = true)
         (data (parse_from_string buffer))
  /\ Forall (fun u => Forall (fun token => schema_prefix token = true) (data u))
            (_parse_from_handle lines)
  /\ (forall token, schema_prefix token = true ->
        (exists n, 1 <= n <= 10 /\ keys token = firstn n _fieldnames)
        /\ incl (keys token) _fieldnames
        /\ In (py "id") (keys token)).
Proof.
  split; [|split; [|apply schema_prefix_spec]].
  - unfold parse_from_string. fold (absorb_all (splitlines buffer) empty_accum).
    rewrite absorb_all_spec. simpl. apply Forall_map, Forall_forall.
    intros line _. apply schema_prefix_parse_token.
  - assert (H : Forall (fun token => schema_prefix token = true)
                  (concat (map data (_parse_from_handle lines)))).
    { unfold _parse_from_handle. rewrite handle_loop_tokens.
      apply Forall_map, Forall_forall.
      intros line _. apply schema_prefix_parse_token. }
    rewrite Forall_concat, Forall_map in H. exact H.
Qed.

Lemma parsed_tokens_in_schema_witness :
  In (py "id") (keys (_parse_token (py "1" ++ [TAB] ++ py "The"))).
Proof.
  destruct (parsed_tokens_in_schema [] []) as (_ & _ & H).
  destruct (H (_parse_token (py "1" ++ [TAB] ++ py "The")) eq_refl)
    as (_ & _ & Hid).
  exact Hid.
Defined.

(** ** Line terminators *)

Lemma lstrip_spaces (t s : str) :
  Forall (fun c => is_space c = true) t -> lstrip (t ++ s) = lstrip s.
Proof.
  induction 1 as [|c t Hc Ht IH]; [reflexivity|]. simpl. now rewrite Hc.
Qed.

Lemma lstrip_app (s t : str) :
  Forall (fun c => is_space c = true) t ->
  lstrip (s ++ t) = match lstrip s with [] => [] | _ :: _ => lstrip s ++ t end.
Proof.
  intros Ht. induction s as [|c s IH]; simpl.
  - rewrite <- (app_nil_r t). rewrite lstrip_spaces by exact Ht. reflexivity.
  - destruct (is_space c); [exact IH | reflexivity].
Qed.

Lemma rstrip_spaces (s t : str) :
  Forall (fun c => is_space c = true) t -> rstrip (s ++ t) = rstrip s.
Proof.
  intros Ht. unfold rstrip. rewrite rev_app_distr.
  rewrite lstrip_spaces; [reflexivity | now apply Forall_rev].
Qed.

Lemma strip_spaces (s t : str) :
  Forall (fun c => is_space c = true) t -> strip (s ++ t) = strip s.
Proof.
  intros Ht. unfold strip. rewrite lstrip_app by exact Ht.
  destruct (lstrip s) as [|c r] eqn:E; [reflexivity|].
  now apply rstrip_spaces.
Qed.

Lemma handle_loop_stripped (lines lines' : list str) (st : accum) :
  map strip lines = map strip lines' ->
  handle_loop st lines = handle_loop st lines'.
Proof.
  revert lines' st; induction lines as [|line lines IH];
    intros [|line' lines'] st H; try discriminate; [reflexivity|].
  injection H as Hline Hlines. simpl. unfold handle_step.
  rewrite Hline. destruct (negb (truthy (strip line'))).
  - destruct (pending st); f_equal; now apply IH.
  - now apply IH.
Qed.

(** X4: the streaming assembler sees a line only through [strip]: two
    sources whose lines agree once stripped yield the same units.  So
    the line terminator is immaterial: lines that end with a newline,
    with carriage return and newline, or with any other whitespace give
    the units of the lines without it. *)
Theorem handle_terminator_immaterial (lines lines' : list str) (terminator : str) :
  (map strip lines = map strip lines' ->
   _parse_from_handle lines = _parse_from_handle lines')
  /\ (forallb is_space terminator = true ->
      _parse_from_handle (map (fun line => line ++ terminator) lines)
      = _parse_from_handle lines).
Proof.
  split; [apply handle_loop_stripped|].
  intros H. apply handle_loop_stripped. rewrite map_map. apply map_ext.
  intros line. apply strip_spaces. apply Forall_forall. intros c Hc.
  rewrite forallb_forall in H. now apply H.
Qed.

Lemma handle_terminator_immaterial_witness :
  _parse_from_handle (map (fun line => line ++ [CR; LF])
                          [py "# newpar"; py "1" ++ [TAB] ++ py "The"; []; py "2"])
  = _parse_from_handle [py "# newpar"; py "1" ++ [TAB] ++ py "The"; []; py "2"].
Proof.
  destruct (handle_terminator_immaterial
              [py "# newpar"; py "1" ++ [TAB] ++ py "The"; []; py "2"] []
              [CR; LF]) as [_ H].
  apply H. reflexivity.
Defined.

(** ** The normal form of a unit *)

Lemma line_buf_normalize (u : TokenList) : line_buf (normalize u) = line_buf u.
Proof.
  unfold line_buf, normalize. cbn [data metadata]. f_equal.
  rewrite map_map. apply map_ext. intros token. unfold token_line.
  now rewrite col_buf_combine by apply col_buf_length.
Qed.

Lemma serialize_normalize (u : TokenList) : serialize (normalize u) = serialize u.
Proof. unfold serialize. now rewrite line_buf_normalize. Qed.

Lemma forallb_map_compose (A B : Type) (f : A -> B) (p : B -> bool) (l : list A) :
  forallb p (map f l) = forallb (fun x => p (f x)) l.
Proof. induction l as [|x l IH]; simpl; [reflexivity | now rewrite IH]. Qed.

Lemma forallb_same (A : Type) (p q : A -> bool) (l : list A) :
  (forall x, p x = q x) -> forallb p l = forallb q l.
Proof.
  intros H. induction l as [|x l IH]; simpl; [reflexivity | now rewrite H, IH].
Qed.

Lemma round_trip_ready_normalize (u : TokenList) :
  round_trip_ready (normalize u) = round_trip_ready u.
Proof.
  unfold round_trip_ready, normalize. cbn [data metadata].
  f_equal; [f_equal; f_equal; now destruct (data u)|].
  rewrite forallb_map_compose. apply forallb_same. intros token.
  now rewrite col_buf_combine by apply col_buf_length.
Qed.

(** X5: for a unit that is ready for the round trip, reading its text
    back gives its normal form (every token with all ten fields, the
    metadata as they were); the normal form is again ready, has the same
    text, and is a fixed point: writing and reading it gives it back
    exactly. *)
Theorem normal_form_fixed (u : TokenList) :
  round_trip_ready u = true ->
  parse_from_string (serialize u) = normalize u
  /\ serialize (parse_from_string (serialize u)) = serialize u
  /\ round_trip_ready (parse_from_string (serialize u)) = true
  /\ parse_from_string (serialize (normalize u)) = normalize u.
Proof.
  intros H. rewrite (parse_serialize _ H). fold (normalize u).
  split; [reflexivity|]. split; [apply serialize_normalize|].
  split; [now rewrite round_trip_ready_normalize|].
  now rewrite serialize_normalize, (parse_serialize _ H).
Qed.

Lemma normal_form_fixed_witness :
  parse_from_string (serialize (normalize sample_unit)) = normalize sample_unit.
Proof.
  destruct (normal_form_fixed sample_unit eq_refl) as (_ & _ & _ & H). exact H.
Defined.

Lemma cells_normalize (u : TokenList) :
  map col_buf (data (normalize u)) = map col_buf (data u).
Proof.
  unfold normalize. cbn [data]. rewrite map_map. apply map_ext.
  intros token. apply col_buf_combine, col_buf_length.
Qed.

(** X20: the serializer loses nothing of a unit that is ready for the
    round trip: two such units with the same text have the same metadata,
    in the same order, and the same ten cells in every token. *)
Theorem serialize_injective (u u' : TokenList) :
  round_trip_ready u = true -> round_trip_ready u' = true ->
  serialize u = serialize u' ->
  metadata u = metadata u' /\ map col_buf (data u) = map col_buf (data u').
Proof.
  intros H H' E.
  assert (P : normalize u = normalize u').
  { unfold normalize. rewrite <- (parse_serialize _ H), <- (parse_serialize _ H').
    now rewrite E. }
  split.
  - change (metadata (normalize u) = metadata (normalize u')). now rewrite P.
  - rewrite <- (cells_normalize u), <- (cells_normalize u'). now rewrite P.
Qed.

Lemma serialize_injective_witness :
  metadata sample_unit = metadata (normalize sample_unit)
  /\ map col_buf (data sample_unit) = map col_buf (data (normalize sample_unit)).
Proof.
  apply serialize_injective; reflexivity.
Defined.

(** ** Documents read from a handle *)

Lemma readlines_line (line rest : str) :
  free_of is_newline line ->
  readlines (line ++ LF :: rest) = (line ++ [LF]) :: readlines rest.
Proof.
  induction 1 as [|c line Hc Hline IH]; [reflexivity|].
  unfold is_newline in Hc. simpl. rewrite Hc. now rewrite IH.
Qed.

Lemma readlines_terminated (lines : list str) (rest : str) :
  Forall (free_of is_newline) lines ->
  readlines (concat (map (fun line => line ++ [LF]) lines) ++ rest)
  = map (fun line => line ++ [LF]) lines ++ readlines rest.
Proof.
  induction 1 as [|line lines Hline Hlines IH]; [reflexivity|].
  cbn [map concat]. rewrite <- !app_assoc. cbn [app].
  rewrite readlines_line by exact Hline. now rewrite IH.
Qed.

Lemma universal_newlines_id (s : str) :
  free_of (fun c => (c =? CR)%N) s -> universal_newlines s = s.
Proof.
  induction 1 as [|c s Hc Hs IH]; [reflexivity|].
  simpl. rewrite Hc. now rewrite IH.
Qed.

Lemma lstrip_keeps (c : char) (s : str) :
  In c s -> is_space c = false -> In c (lstrip s).
Proof.
  intros Hin Hc. induction s as [|d s IH]; [contradiction|].
  simpl. destruct (is_space d) eqn:Hd; [|exact Hin].
  destruct Hin as [->|Hin]; [congruence | now apply IH].
Qed.

Lemma strip_keeps (c : char) (s : str) :
  In c s -> is_space c = false -> In c (strip s).
Proof.
  intros Hin Hc. unfold strip, rstrip. rewrite <- in_rev.
  apply lstrip_keeps; [|exact Hc]. rewrite <- in_rev.
  now apply lstrip_keeps.
Qed.

Lemma not_blank_char (c : char) (line : str) :
  In c line -> is_space c = false -> blank line = false.
Proof.
  intros Hin Hc. unfold blank. pose proof (strip_keeps _ _ Hin Hc) as H.
  now destruct (strip line).
Qed.

Lemma absorb_all_stripped (lines lines' : list str) (st : accum) :
  map strip lines = map strip lines' ->
  absorb_all lines st = absorb_all lines' st.
Proof.
  unfold absorb_all.
  revert lines' st; induction lines as [|line lines IH];
    intros [|line' lines'] st H; try discriminate; [reflexivity|].
  injection H as Hline Hlines. simpl. rewrite Hline. now apply IH.
Qed.

Lemma absorb_line_buf (u : TokenList) :
  round_trip_ready u = true ->
  sentence_of (line_buf u) = normalize u.
Proof.
  intros H. unfold round_trip_ready in H.
  apply andb_true_iff in H as [H Htok].
  apply andb_true_iff in H as [H Hmd].
  apply andb_true_iff in H as [_ Hkeys].
  unfold sentence_of, absorb_all, line_buf. rewrite fold_left_app.
  rewrite fold_metadata_lines by exact Hmd.
  rewrite fold_token_lines by exact Htok.
  unfold unit_of, normalize. cbn [acc_tokens acc_metadata app]. f_equal.
  apply dict_fold_fresh. simpl. now apply distinct_nodup.
Qed.

(** The lines a handle hands out for the text of a unit. *)
Lemma ready_lines_newline_free (u : TokenList) :
  round_trip_ready u = true -> Forall (free_of is_newline) (line_buf u).
Proof.
  intros H. apply (@line_buf_free is_newline u eq_refl eq_refl eq_refl eq_refl).
  apply unit_free_of_weaken with is_linebreak.
  - intros c Hc. unfold is_newline. destruct (c =? LF)%N eqn:E; [|reflexivity].
    apply N.eqb_eq in E. subst c. discriminate Hc.
  - now apply round_trip_ready_linebreak_free.
Qed.

Lemma ready_lines_not_blank (u : TokenList) :
  round_trip_ready u = true ->
  Forall (fun line => blank (line ++ [LF]) = false) (line_buf u).
Proof.
  intros H. unfold round_trip_ready in H.
  apply andb_true_iff in H as [_ Htok].
  apply Forall_app. split; apply Forall_forall; intros line Hin;
    apply in_map_iff in Hin as [x [<- Hx]].
  - destruct (metadata_line_head x) as [rest ->].
    apply not_blank_char with HASH; [now left | reflexivity].
  - rewrite forallb_forall in Htok. apply Htok in Hx.
    destruct (clean_cells_ten _ (col_buf_length x) Hx)
      as (first & middle & last & E & Hfirst & _).
    destruct (starts_clean_head _ Hfirst) as (c & r & -> & Hc).
    apply not_blank_char with c; [|exact Hc].
    unfold token_line. rewrite E.
    destruct (middle ++ [last]) as [|cell rest] eqn:Emid.
    + now destruct middle.
    + rewrite join_cons by discriminate. now left.
Qed.

Lemma ready_block (u : TokenList) :
  round_trip_ready u = true ->
  sentence_block (map (fun line => line ++ [LF]) (line_buf u)) = true
  /\ sentence_of (map (fun line => line ++ [LF]) (line_buf u)) = normalize u.
Proof.
  intros H. split.
  - unfold sentence_block. apply andb_true_iff. split.
    + pose proof (round_trip_ready_lines _ H) as Hne.
      now destruct (line_buf u).
    + apply negb_true_iff. apply not_true_is_false. intros Hex.
      apply existsb_exists in Hex as [line [Hin Hb]].
      apply in_map_iff in Hin as [l [<- Hl]].
      pose proof (ready_lines_not_blank _ H) as Hnb.
      rewrite Forall_forall in Hnb. rewrite (Hnb l Hl) in Hb. discriminate.
  - rewrite <- (absorb_line_buf _ H). unfold sentence_of. f_equal.
    apply absorb_all_stripped. rewrite map_map. apply map_ext.
    intros line. apply strip_spaces. now repeat constructor.
Qed.

Lemma join_blocks_cons (A : Type) (sep p : list A) (rest : list (list A)) :
  rest <> [] -> join sep (p :: rest) = p ++ sep ++ join sep rest.
Proof. destruct rest; [contradiction | reflexivity]. Qed.

Lemma readlines_document (units : list TokenList) :
  forallb round_trip_ready units = true ->
  readlines (document units)
  = join [[LF]] (map (fun u => map (fun line => line ++ [LF]) (line_buf u)) units).
Proof.
  unfold document. induction units as [|u units IH]; intros H; [reflexivity|].
  simpl in H. apply andb_true_iff in H as [Hu Hunits].
  pose proof (round_trip_ready_lines _ Hu) as Hne.
  pose proof (ready_lines_newline_free _ Hu) as Hfree.
  assert (Es : serialize u = concat (map (fun line => line ++ [LF]) (line_buf u))).
  { rewrite serialize_terminated. now destruct (line_buf u). }
  destruct units as [|v units].
  - cbn [map join]. rewrite Es, <- (app_nil_r (concat _)).
    rewrite readlines_terminated by exact Hfree. simpl. apply app_nil_r.
  - cbn [map]. rewrite !join_blocks_cons by discriminate.
    rewrite (join_blocks_cons [[LF]]) by discriminate.
    rewrite Es, readlines_terminated by exact Hfree.
    cbn [app readlines]. rewrite N.eqb_refl. f_equal. f_equal.
    now apply IH.
Qed.

(** X6: a document of units that are ready for the round trip, written
    with one blank line between two units, is read back by the streaming
    assembler as the normal forms of the units, one per unit and in
    order; so is a file that holds the document, by [parse_from_path]. *)
Theorem document_round_trip (units : list TokenList)
    (read_text : str -> option str) (path : str) :
  forallb round_trip_ready units = true ->
  _parse_from_handle (readlines (document units)) = map normalize units
  /\ (read_text path = Some (document units) ->
      parse_from_path read_text path = Some (map normalize units)).
Proof.
  intros H.
  assert (Hparse : _parse_from_handle (readlines (document units))
                   = map normalize units).
  { rewrite readlines_document by exact H.
    assert (Hblocks : forallb sentence_block
              (map (fun u => map (fun line => line ++ [LF]) (line_buf u)) units)
              = true).
    { rewrite forallb_map_compose. rewrite forallb_forall in *.
      intros u Hu. now apply ready_block, H. }
    destruct (parse_sentences [LF] _ eq_refl Hblocks) as [Hunits _].
    etransitivity; [exact Hunits|].
    rewrite map_map. apply map_ext_in. intros u Hu.
    rewrite forallb_forall in H. now apply ready_block, H. }
  split; [exact Hparse|].
  intros Hread. unfold parse_from_path. rewrite Hread.
  rewrite universal_newlines_id; [now rewrite Hparse|].
  unfold document. apply join_free; [now repeat constructor|].
  apply Forall_forall. intros text Hin. apply in_map_iff in Hin as [u [<- Hu]].
  rewrite forallb_forall in H. apply H in Hu.
  unfold serialize. apply free_of_app. split; [|now repeat constructor].
  apply join_free; [now repeat constructor|].
  apply (@line_buf_free (fun c => (c =? CR)%N) u eq_refl eq_refl eq_refl eq_refl).
  apply unit_free_of_weaken with is_linebreak.
  - intros c Hc. destruct (c =? CR)%N eqn:E; [|reflexivity].
    apply N.eqb_eq in E. subst c. discriminate Hc.
  - now apply round_trip_ready_linebreak_free.
Qed.

Lemma document_round_trip_witness :
  _parse_from_handle (readlines (document [sample_unit; sample_unit]))
  = [normalize sample_unit; normalize sample_unit].
Proof.
  destruct (document_round_trip [sample_unit; sample_unit] (fun _ => None) []
              eq_refl) as [H _].
  exact H.
Defined.

(** ** The two parsers on one sentence *)

Lemma exotic_free_ordinary (c : char) :
  is_exotic_linebreak c = false -> (c =? CR)%N = false -> (c =? LF)%N = false ->
  is_linebreak c = false.
Proof.
  unfold is_exotic_linebreak. intros H Hcr Hlf. rewrite Hcr, Hlf in H.
  simpl in H. now rewrite !andb_true_r in H.
Qed.

Lemma universal_newlines_cr (d : char) (rest : str) :
  universal_newlines (CR :: d :: rest)
  = LF :: (if (d =? LF)%N then universal_newlines rest
           else universal_newlines (d :: rest)).
Proof. reflexivity. Qed.

Lemma splitlines_cr (d : char) (rest : str) :
  splitlines (CR :: d :: rest)
  = [] :: (if (d =? LF)%N then splitlines rest else splitlines (d :: rest)).
Proof. reflexivity. Qed.

Lemma universal_newlines_other (c : char) (rest : str) :
  (c =? CR)%N = false ->
  universal_newlines (c :: rest) = c :: universal_newlines rest.
Proof. intros H. simpl. now rewrite H. Qed.

Lemma splitlines_ordinary (c : char) (rest : str) :
  is_linebreak c = false ->
  splitlines (c :: rest)
  = match splitlines rest with
    | [] => [[c]]
    | line :: lines => (c :: line) :: lines
    end.
Proof. intros H. simpl. now rewrite H. Qed.

Lemma readlines_ordinary (c : char) (rest : str) :
  (c =? LF)%N = false ->
  readlines (c :: rest)
  = match readlines rest with
    | [] => [[c]]
    | line :: lines => (c :: line) :: lines
    end.
Proof. intros H. simpl. now rewrite H. Qed.

Lemma lines_agree_bound (n : nat) (s : str) :
  length s <= n -> free_of is_exotic_linebreak s ->
  Forall2 same_line (readlines (universal_newlines s)) (splitlines s).
Proof.
  revert s; induction n as [|n IH]; intros [|c rest] Hlen Hfree;
    try constructor; simpl in Hlen; try lia.
  inversion Hfree as [|? ? Hc Hrest]; subst.
  destruct (c =? CR)%N eqn:Ecr.
  - apply N.eqb_eq in Ecr. subst c.
    destruct rest as [|d rest'].
    + simpl. constructor; [now right | constructor].
    + rewrite universal_newlines_cr, splitlines_cr.
      change (readlines (LF :: ?x)) with ([LF] :: readlines x).
      constructor; [now right|].
      destruct (d =? LF)%N.
      * apply IH; [simpl in Hlen; lia | now inversion Hrest].
      * apply IH; [lia | exact Hrest].
  - destruct (c =? LF)%N eqn:Elf.
    + apply N.eqb_eq in Elf. subst c.
      rewrite universal_newlines_other by reflexivity.
      change (readlines (LF :: ?x)) with ([LF] :: readlines x).
      change (splitlines (LF :: rest)) with ([] :: splitlines rest).
      constructor; [now right|]. apply IH; [lia | exact Hrest].
    + pose proof (exotic_free_ordinary _ Hc Ecr Elf) as Hord.
      rewrite universal_newlines_other by exact Ecr.
      rewrite readlines_ordinary by exact Elf.
      rewrite splitlines_ordinary by exact Hord.
      specialize (IH rest ltac:(lia) Hrest).
      destruct IH as [|a b ls ls' Hab Hls].
      * apply Forall2_cons; [now left | apply Forall2_nil].
      * apply Forall2_cons; [|exact Hls].
        destruct Hab as [->| ->]; [now left | now right].
Qed.

Lemma lines_agree_stripped (s : str) :
  free_of is_exotic_linebreak s ->
  map strip (readlines (universal_newlines s)) = map strip (splitlines s).
Proof.
  intros H. pose proof (lines_agree_bound (le_n (length s)) H) as Hall.
  induction Hall as [|a b ls ls' Hab Hls IH]; [reflexivity|].
  simpl. f_equal; [|exact IH].
  destruct Hab as [->| ->]; [reflexivity|].
  apply strip_spaces. now repeat constructor.
Qed.

Lemma handle_of_sentence (block : list str) :
  sentence_block block = true -> _parse_from_handle block = [sentence_of block].
Proof.
  intros H. unfold _parse_from_handle. rewrite <- (app_nil_r block) at 1.
  destruct (handle_loop_sentence block [] H) as [-> Hp].
  simpl. unfold handle_finish. now rewrite Hp.
Qed.

(** X7: on the text of one sentence (at least one line, no line that is
    blank once stripped) whose only line boundaries are newlines and
    carriage returns, the streaming assembler fed from a file yields
    exactly one unit, the one [parse_from_string] returns for the same
    text.  Without carriage returns this holds for any text handle. *)
Theorem parsers_agree_on_sentence (content : str)
    (read_text : str -> option str) (path : str) :
  free_of is_exotic_linebreak content ->
  sentence_block (readlines (universal_newlines content)) = true ->
  _parse_from_handle (readlines (universal_newlines content))
  = [parse_from_string content]
  /\ (read_text path = Some content ->
      parse_from_path read_text path = Some [parse_from_string content])
  /\ (free_of (fun c => (c =? CR)%N) content ->
      _parse_from_handle (readlines content) = [parse_from_string content]).
Proof.
  intros Hfree Hblock.
  assert (H : _parse_from_handle (readlines (universal_newlines content))
              = [parse_from_string content]).
  { rewrite handle_of_sentence by exact Hblock. f_equal.
    unfold sentence_of, parse_from_string.
    fold (absorb_all (splitlines content) empty_accum).
    rewrite (absorb_all_stripped _ (splitlines content)); [reflexivity|].
    now apply lines_agree_stripped. }
  split; [exact H|]. split.
  - intros Hread. unfold parse_from_path. now rewrite Hread, H.
  - intros Hcr. now rewrite universal_newlines_id in H.
Qed.

Lemma parsers_agree_on_sentence_witness :
  _parse_from_handle
    (readlines (py "# sent_id = 1" ++ [CR; LF] ++ py "1" ++ [TAB] ++ py "The" ++ [CR]))
  <> []
  /\ parse_from_path
       (fun _ => Some (py "# sent_id = 1" ++ [CR; LF] ++ py "1" ++ [TAB] ++ py "The" ++ [CR]))
       (py "f.conllu")
     = Some [parse_from_string
               (py "# sent_id = 1" ++ [CR; LF] ++ py "1" ++ [TAB] ++ py "The" ++ [CR])].
Proof.
  split; [discriminate|].
  destruct (@parsers_agree_on_sentence
              (py "# sent_id = 1" ++ [CR; LF] ++ py "1" ++ [TAB] ++ py "The" ++ [CR])
              (fun _ => Some (py "# sent_id = 1" ++ [CR; LF] ++ py "1" ++ [TAB]
                              ++ py "The" ++ [CR]))
              (py "f.conllu")) as (_ & H & _).
  - apply free_of_dec. reflexivity.
  - reflexivity.
  - apply H. reflexivity.
Defined.

(** ** Which run a repetition settles on *)

Section RepetitionChoice.
Variable A : Type.
Variable cl : cclass.
Variable min : nat.

Let matching (a : str) : Prop := Forall (fun c => cmatch cl c = true) a.

(** The greedy repetition settles on the longest run after which the
    continuation succeeds. *)
Lemma rep_greedy_longest (s : str) (k : str -> option A) (cnt : nat) (res : A) :
  rep_greedy cl min cnt s k = Some res ->
  exists a b, s = a ++ b /\ matching a /\ min <= cnt + length a
              /\ k b = Some res
              /\ forall a' b', s = a' ++ b' -> matching a' ->
                               length a < length a' -> k b' = None.
Proof.
  revert cnt; induction s as [|c s IH]; intros cnt H; simpl in H.
  - destruct (min <=? cnt) eqn:E; [|discriminate].
    apply Nat.leb_le in E. exists [], []. repeat split; auto.
    + constructor.
    + simpl; lia.
    + intros a' b' Hs _ Hlen. symmetry in Hs.
      apply app_eq_nil in Hs as [-> _]. simpl in Hlen. lia.
  - assert (Hstop : (if min <=? cnt then k (c :: s) else None) = Some res ->
                    min <= cnt /\ k (c :: s) = Some res).
    { destruct (min <=? cnt) eqn:E; [|discriminate].
      apply Nat.leb_le in E. auto. }
    destruct (cmatch cl c) eqn:Ec.
    + destruct (rep_greedy cl min (S cnt) s k) as [r|] eqn:Er.
      * injection H as ->.
        apply IH in Er as (a & b & -> & Ha & Hlen & Hk & Hmax).
        exists (c :: a), b. repeat split; auto.
        -- now constructor.
        -- simpl; lia.
        -- intros a' b' Hs Ha' Hl. destruct a' as [|c' a']; [simpl in Hl; lia|].
           injection Hs as <- Hs. inversion Ha'; subst.
           apply (Hmax a' b'); auto. simpl in Hl. lia.
      * apply Hstop in H as [Hmin Hk]. exists [], (c :: s).
        repeat split; auto.
        -- constructor.
        -- simpl; lia.
        -- intros a' b' Hs Ha' Hl. destruct a' as [|c' a']; [simpl in Hl; lia|].
           injection Hs as <- Hs. inversion Ha'; subst.
           destruct (k b') eqn:Ekb; [|reflexivity]. exfalso.
           apply (@rep_greedy_complete A cl min a' b' k (S cnt)); auto.
           ++ lia.
           ++ rewrite Ekb. discriminate.
    + apply Hstop in H as [Hmin Hk]. exists [], (c :: s). repeat split; auto.
      * constructor.
      * simpl; lia.
      * intros a' b' Hs Ha' Hl. destruct a' as [|c' a']; [simpl in Hl; lia|].
        injection Hs as <- Hs. inversion Ha'; subst. congruence.
Qed.

(** The lazy repetition settles on the shortest one. *)
Lemma rep_lazy_shortest (s : str) (k : str -> option A) (cnt : nat) (res : A) :
  rep_lazy cl min cnt s k = Some res ->
  exists a b, s = a ++ b /\ matching a /\ min <= cnt + length a
              /\ k b = Some res
              /\ forall a' b', s = a' ++ b' -> length a' < length a ->
                               min <= cnt + length a' -> k b' = None.
Proof.
  revert cnt; induction s as [|c s IH]; intros cnt H; simpl in H.
  - destruct (min <=? cnt) eqn:E; [|discriminate].
    destruct (k []) as [r|] eqn:Ek; [|discriminate]. injection H as ->.
    apply Nat.leb_le in E. exists [], []. repeat split; auto.
    + constructor.
    + simpl; lia.
    + intros a' b' _ Hl. simpl in Hl. lia.
  - destruct (if min <=? cnt then k (c :: s) else None) as [r|] eqn:Es.
    + injection H as ->. destruct (min <=? cnt) eqn:E; [|discriminate].
      apply Nat.leb_le in E. exists [], (c :: s). repeat split; auto.
      * constructor.
      * simpl; lia.
      * intros a' b' _ Hl. simpl in Hl. lia.
    + destruct (cmatch cl c) eqn:Ec; [|discriminate].
      apply IH in H as (a & b & -> & Ha & Hlen & Hk & Hmin).
      exists (c :: a), b. repeat split; auto.
      * now constructor.
      * simpl; lia.
      * intros a' b' Hs Hl Hm. destruct a' as [|c' a'].
        -- simpl in Hs. subst b'. simpl in Hm.
           replace (min <=? cnt) with true in Es
             by (symmetry; apply Nat.leb_le; lia).
           exact Es.
        -- injection Hs as <- Hs. apply (Hmin a' b'); auto.
           ++ simpl in Hl. lia.
           ++ simpl in Hm. lia.
Qed.
End RepetitionChoice.

(** ** What a match of the metadata pattern says about the line *)

Lemma spaces_nonempty (a : str) : 1 <= 0 + length a -> a <> [].
Proof. intros H ->. simpl in H. lia. Qed.

Lemma rep_greedy_all (A : Type) (cl : cclass) (min cnt : nat) (s : str)
    (k : str -> option A) :
  Forall (fun c => cmatch cl c = true) s -> min <= cnt + length s ->
  k [] <> None -> rep_greedy cl min cnt s k <> None.
Proof.
  intros Hs Hlen Hk. rewrite <- (app_nil_r s).
  now apply rep_greedy_complete.
Qed.

Lemma dots_newline_free (s : str) :
  Forall (fun c => cmatch CDot c = true) s <-> free_of is_newline s.
Proof.
  split; apply Forall_impl; intros c Hc; unfold is_newline in *; simpl in *;
    now destruct (c =? LF)%N.
Qed.

Lemma value_tail_shape (g res : groups) (s3 : str) :
  value_tail g s3 = Some res ->
  exists ws2 ws3 v,
    s3 = ws2 ++ EQUALS :: ws3 ++ v
    /\ spaces ws2 /\ ws2 <> [] /\ spaces ws3 /\ ws3 <> []
    /\ free_of is_newline v /\ no_leading_space v = true
    /\ res = (2, s3) :: (3, v) :: g.
Proof.
  unfold value_tail. intros H.
  apply rep_greedy_sound in H as (ws2 & b & -> & Hws2 & Hlen2 & H).
  destruct b as [|c s5]; [discriminate|].
  destruct (cmatch (CLit EQUALS) c) eqn:Ec; [|discriminate].
  simpl in Ec. apply N.eqb_eq in Ec. subst c.
  apply rep_greedy_longest in H as (ws3 & s6 & -> & Hws3 & Hlen3 & H & Hmax).
  pose proof H as Hdot.
  apply rep_greedy_sound in Hdot as (v & b6 & -> & Hv & _ & Hend).
  destruct b6; [|discriminate]. injection Hend as <-.
  rewrite app_nil_r in *.
  exists ws2, ws3, v.
  split; [reflexivity|]. split; [exact Hws2|].
  split; [now apply spaces_nonempty in Hlen2|]. split; [exact Hws3|].
  split; [now apply spaces_nonempty in Hlen3|].
  split; [now apply dots_newline_free|].
  split; [|now rewrite !firstn_length_all].
  destruct v as [|w v']; [reflexivity|]. simpl.
  destruct (is_space w) eqn:Hw; [|reflexivity]. exfalso.
  inversion Hv as [|? ? _ Hv']; subst.
  specialize (Hmax (ws3 ++ [w]) v').
  rewrite <- app_assoc in Hmax. specialize (Hmax eq_refl).
  revert Hmax. intros Hmax.
  assert (Hnone := Hmax ltac:(apply Forall_app; split;
                                [exact Hws3 | now repeat constructor])
                        ltac:(rewrite length_app; simpl; lia)).
  revert Hnone. apply rep_greedy_all; [exact Hv' | lia | discriminate].
Qed.

Lemma value_tail_complete (g : groups) (ws2 ws3 v : str) :
  spaces ws2 -> ws2 <> [] -> spaces ws3 -> ws3 <> [] -> free_of is_newline v ->
  value_tail g (ws2 ++ EQUALS :: ws3 ++ v) <> None.
Proof.
  intros H2 N2 H3 N3 Hv. unfold value_tail.
  apply rep_greedy_complete; [exact H2 | destruct ws2; simpl; [contradiction|lia] |].
  change (cmatch (CLit EQUALS) EQUALS) with true. cbv iota.
  apply rep_greedy_complete; [exact H3 | destruct ws3; simpl; [contradiction|lia] |].
  apply rep_greedy_all; [now apply dots_newline_free | lia | discriminate].
Qed.

(** The parts of a line that [_maybe_parse_metadata] accepts, with the
    choices of the matcher: the whitespace after the hash sign is the
    longest run that lets the rest match, the key the shortest. *)
Lemma metadata_match_inv (line key : str) (value : option str) :
  _maybe_parse_metadata line = Some (key, value) ->
  exists ws1 s3,
    line = HASH :: ws1 ++ key ++ s3
    /\ spaces ws1 /\ ws1 <> []
    /\ free_of is_newline key /\ key <> []
    /\ (forall a' b', ws1 ++ key ++ s3 = a' ++ b' -> spaces a' ->
                      length ws1 < length a' ->
                      rep_lazy CDot 1 0 b' (after_key b') = None)
    /\ (forall p' r', key ++ s3 = p' ++ r' -> length p' < length key ->
                      1 <= length p' -> after_key (key ++ s3) r' = None)
    /\ ((value = None /\ s3 = [])
        \/ exists ws2 ws3 v,
             value = Some v /\ s3 = ws2 ++ EQUALS :: ws3 ++ v
             /\ spaces ws2 /\ ws2 <> [] /\ spaces ws3 /\ ws3 <> []
             /\ free_of is_newline v /\ no_leading_space v = true).
Proof.
  unfold _maybe_parse_metadata. intros H.
  destruct (fullmatch metadata_re line) as [g|] eqn:E; [|discriminate].
  rewrite fullmatch_metadata_re in E.
  destruct line as [|c s1]; [discriminate|].
  destruct (c =? HASH)%N eqn:Ec; [|discriminate].
  apply N.eqb_eq in Ec. subst c.
  apply rep_greedy_longest in E as (ws1 & s2 & -> & Hws1 & Hlen1 & E & Hmax).
  apply rep_lazy_shortest in E as (p & s3 & -> & Hp & Hlenp & E & Hmin).
  assert (Hg1 : firstn (length (p ++ s3) - length s3) (p ++ s3) = p)
    by apply firstn_length_app.
  unfold after_key in E. cbv zeta in E. rewrite Hg1 in E.
  assert (Hkey : key = p /\
                 ((value = None /\ s3 = [])
                  \/ exists ws2 ws3 v,
                       value = Some v /\ s3 = ws2 ++ EQUALS :: ws3 ++ v
                       /\ spaces ws2 /\ ws2 <> [] /\ spaces ws3 /\ ws3 <> []
                       /\ free_of is_newline v /\ no_leading_space v = true)).
  { destruct (value_tail [(1, p)] s3) as [res|] eqn:Ev.
    - injection E as <-.
      apply value_tail_shape in Ev
        as (ws2 & ws3 & v & Hs3 & H2 & N2 & H3 & N3 & Hv & Hlead & ->).
      simpl in H. injection H as <- <-. split; [reflexivity|]. right.
      exists ws2, ws3, v. repeat split; auto.
    - destruct s3; [|discriminate]. injection E as <-.
      simpl in H. injection H as <- <-. split; [reflexivity|]. now left. }
  destruct Hkey as [-> Hvalue].
  exists ws1, s3. split; [reflexivity|]. split; [exact Hws1|].
  split; [now apply spaces_nonempty in Hlen1|].
  split; [now apply dots_newline_free|].
  split; [now apply spaces_nonempty in Hlenp|].
  split; [exact Hmax|]. split; [|exact Hvalue].
  intros p' r' Hs Hl Hone. apply (Hmin p' r' Hs Hl). simpl. lia.
Qed.

(** X8: a line that [_maybe_parse_metadata] accepts is the hash sign,
    whitespace, the key, and then either nothing (no value) or
    whitespace, an equals sign, whitespace and the value.  The key is not
    empty; key and value hold no newline; the value does not begin with
    whitespace.  So the line is the key and the value up to the amount
    and kind of whitespace around them. *)
Theorem metadata_match_shape (line key : str) (value : option str) :
  _maybe_parse_metadata line = Some (key, value) ->
  exists ws1,
    spaces ws1 /\ ws1 <> [] /\ key <> [] /\ free_of is_newline key
    /\ match value with
       | None => line = HASH :: ws1 ++ key
       | Some v =>
           exists ws2 ws3,
             line = HASH :: ws1 ++ key ++ ws2 ++ EQUALS :: ws3 ++ v
             /\ spaces ws2 /\ ws2 <> [] /\ spaces ws3 /\ ws3 <> []
             /\ free_of is_newline v /\ no_leading_space v = true
       end.
Proof.
  intros H. apply metadata_match_inv in H
    as (ws1 & s3 & -> & Hws1 & N1 & Hkey & Nkey & _ & _ & Hvalue).
  exists ws1. repeat (split; [assumption|]).
  destruct Hvalue as [[-> ->]|(ws2 & ws3 & v & -> & -> & H2 & N2 & H3 & N3 & Hv & Hl)].
  - now rewrite app_nil_r.
  - exists ws2, ws3. repeat split; auto.
Qed.

Lemma metadata_match_shape_witness :
  exists ws1, spaces ws1 /\ ws1 <> [] /\ py "text" <> [] /\ free_of is_newline (py "text")
    /\ exists ws2 ws3,
         py "#  text =   a = b" = HASH :: ws1 ++ py "text" ++ ws2 ++ EQUALS :: ws3 ++ py "a = b"
         /\ spaces ws2 /\ ws2 <> [] /\ spaces ws3 /\ ws3 <> []
         /\ free_of is_newline (py "a = b") /\ no_leading_space (py "a = b") = true.
Proof.
  exact (@metadata_match_shape (py "#  text =   a = b") (py "text")
           (Some (py "a = b")) eq_refl).
Defined.

(** ** Keys and values come out trimmed *)

Lemma ends_clean_snoc (s : str) (c : char) :
  ends_clean (s ++ [c]) = negb (is_space c).
Proof. unfold ends_clean. now rewrite rev_app_distr. Qed.

Lemma ends_clean_spaces_tail (pre ws : str) :
  spaces ws -> ws <> [] -> ends_clean (pre ++ ws) = false.
Proof.
  intros Hws Hne. rewrite ends_clean_app by exact Hne.
  apply not_true_is_false. intros H.
  now apply ends_clean_not_spaces in H.
Qed.

Lemma rep_lazy_all (A : Type) (cl : cclass) (min cnt : nat) (s : str)
    (k : str -> option A) :
  Forall (fun c => cmatch cl c = true) s -> min <= cnt + length s ->
  k [] <> None -> rep_lazy cl min cnt s k <> None.
Proof.
  intros Hs Hlen Hk. rewrite <- (app_nil_r s).
  now apply rep_lazy_complete.
Qed.

Lemma after_key_end (s2 : str) : after_key s2 [] <> None.
Proof. unfold after_key, value_tail. simpl. discriminate. Qed.

Lemma metadata_trimmed (line key : str) (value : option str) :
  free_of is_newline line -> ends_clean line = true ->
  _maybe_parse_metadata line = Some (key, value) ->
  trimmed_entry (key, value) = true.
Proof.
  intros Hfree Hend H.
  apply metadata_match_inv in H
    as (ws1 & s3 & -> & Hws1 & N1 & Hkey & Nkey & Hmax & Hmin & Hvalue).
  assert (Hstart : starts_clean key = true).
  { destruct key as [|c0 p0]; [contradiction|]. simpl.
    destruct (is_space c0) eqn:Hc0; [|reflexivity]. exfalso.
    destruct (p0 ++ s3) as [|x0 x] eqn:Ex.
    - apply app_eq_nil in Ex as [-> ->].
      rewrite app_nil_r in Hend.
      change (HASH :: ws1 ++ [c0]) with ((HASH :: ws1) ++ [c0]) in Hend.
      rewrite ends_clean_snoc, Hc0 in Hend. discriminate.
    - specialize (Hmax (ws1 ++ [c0]) (p0 ++ s3)).
      rewrite <- app_assoc in Hmax. specialize (Hmax eq_refl).
      assert (Hnone : rep_lazy CDot 1 0 (p0 ++ s3) (after_key (p0 ++ s3)) = None).
      { apply Hmax.
        - apply Forall_app. split; [exact Hws1 | now repeat constructor].
        - rewrite length_app. simpl. lia. }
      revert Hnone. apply rep_lazy_all.
      + apply dots_newline_free. inversion Hfree as [|? ? _ Hrest]; subst.
        apply free_of_app in Hrest as [_ Hrest].
        now inversion Hrest.
      + rewrite Ex. simpl. lia.
      + apply after_key_end. }
  unfold trimmed_entry. cbn [fst snd]. rewrite Hstart. cbn [andb].
  destruct Hvalue as [[-> ->]|(ws2 & ws3 & v & -> & -> & H2 & N2 & H3 & N3 & Hv & Hl)].
  - rewrite app_nil_r in Hend.
    change (HASH :: ws1 ++ key) with ((HASH :: ws1) ++ key) in Hend.
    rewrite ends_clean_app in Hend by exact Nkey. now rewrite Hend.
  - assert (Hkend : ends_clean key = true).
    { destruct (@exists_last _ key Nkey) as (p0 & w & ->).
      rewrite ends_clean_snoc. destruct (is_space w) eqn:Hw; [|reflexivity].
      exfalso. destruct p0 as [|q0 p0].
      - simpl in Hstart. now rewrite Hw in Hstart.
      - specialize (Hmin (q0 :: p0) (w :: ws2 ++ EQUALS :: ws3 ++ v)).
        rewrite <- app_assoc in Hmin. specialize (Hmin eq_refl).
        assert (Hnone : after_key ((q0 :: p0) ++ [w] ++ ws2 ++ EQUALS :: ws3 ++ v)
                          (w :: ws2 ++ EQUALS :: ws3 ++ v) = None).
        { apply Hmin; [rewrite length_app; simpl; lia | simpl; lia]. }
        unfold after_key in Hnone. cbv zeta in Hnone.
        destruct (value_tail _ (w :: ws2 ++ EQUALS :: ws3 ++ v)) eqn:Ev;
          [discriminate|].
        revert Ev. apply (@value_tail_complete _ (w :: ws2) ws3 v); auto.
        + now constructor.
        + discriminate. }
    rewrite Hkend. cbn [andb].
    assert (Nv : v <> []).
    { intros ->. rewrite app_nil_r in Hend.
      replace (HASH :: ws1 ++ key ++ ws2 ++ EQUALS :: ws3)
        with ((HASH :: ws1 ++ key ++ ws2 ++ [EQUALS]) ++ ws3) in Hend
        by (simpl; now rewrite <- !app_assoc).
      now rewrite ends_clean_spaces_tail in Hend. }
    replace (HASH :: ws1 ++ key ++ ws2 ++ EQUALS :: ws3 ++ v)
      with ((HASH :: ws1 ++ key ++ ws2 ++ EQUALS :: ws3) ++ v) in Hend
      by (simpl; now rewrite <- !app_assoc).
    rewrite ends_clean_app in Hend by exact Nv. rewrite Hend.
    destruct v; [contradiction | now rewrite andb_true_r].
Qed.

Lemma lstrip_head (s : str) : lstrip s = [] \/ starts_clean (lstrip s) = true.
Proof.
  induction s as [|c s IH]; [now left|]. simpl.
  destruct (is_space c) eqn:Hc; [exact IH|]. right. simpl. now rewrite Hc.
Qed.

Lemma lstrip_starts_clean (s : str) :
  starts_clean s = true -> starts_clean (lstrip s) = true.
Proof. intros H. now rewrite lstrip_clean. Qed.

Lemma lstrip_snoc_clean (y : str) (c : char) :
  is_space c = false -> lstrip (y ++ [c]) = lstrip y ++ [c].
Proof.
  intros Hc. induction y as [|d y IH]; simpl; [now rewrite Hc|].
  destruct (is_space d); [exact IH | reflexivity].
Qed.

Lemma rstrip_cons_clean (c : char) (r : str) :
  is_space c = false -> rstrip (c :: r) = c :: rstrip r.
Proof.
  intros Hc. unfold rstrip. simpl rev.
  rewrite lstrip_snoc_clean by exact Hc. now rewrite rev_app_distr.
Qed.

Lemma strip_trimmed (line : str) :
  strip line = []
  \/ (starts_clean (strip line) = true /\ ends_clean (strip line) = true).
Proof.
  unfold strip. destruct (lstrip_head line) as [E|Hstart].
  - left. now rewrite E.
  - right. destruct (starts_clean_head _ Hstart) as (c & r & E & Hc).
    rewrite E. split.
    + rewrite rstrip_cons_clean by exact Hc. simpl. now rewrite Hc.
    + unfold ends_clean, rstrip. rewrite rev_involutive.
      destruct (lstrip_head (rev (c :: r))) as [E'|H]; [|exact H].
      exfalso. simpl rev in E'. rewrite lstrip_snoc_clean in E' by exact Hc.
      now destruct (lstrip (rev r)).
Qed.

Lemma lstrip_free (bad : char -> bool) (s : str) :
  free_of bad s -> free_of bad (lstrip s).
Proof.
  induction 1 as [|c s Hc Hs IH]; [constructor|]. simpl.
  destruct (is_space c); [exact IH | now constructor].
Qed.

Lemma strip_free (bad : char -> bool) (s : str) :
  free_of bad s -> free_of bad (strip s).
Proof.
  intros H. unfold strip, rstrip. apply Forall_rev, lstrip_free, Forall_rev.
  now apply lstrip_free.
Qed.

Lemma splitlines_free_bound (n : nat) (s : str) :
  length s <= n -> Forall (free_of is_linebreak) (splitlines s).
Proof.
  revert s; induction n as [|n IH]; intros [|c rest] Hlen;
    try constructor; simpl in Hlen; try lia.
  destruct (is_linebreak c) eqn:Hc.
  - simpl. rewrite Hc. constructor; [constructor|].
    destruct (c =? CR)%N; [|apply IH; lia].
    destruct rest as [|d rest']; [apply IH; simpl; lia|].
    destruct (d =? LF)%N; apply IH; simpl in *; lia.
  - rewrite splitlines_ordinary by exact Hc.
    specialize (IH rest ltac:(lia)).
    destruct (splitlines rest) as [|line lines].
    + now repeat constructor.
    + inversion IH; subst. constructor; [now constructor | assumption].
Qed.

Lemma splitlines_free (s : str) : Forall (free_of is_linebreak) (splitlines s).
Proof. apply (@splitlines_free_bound (length s) s). apply le_n. Qed.

Lemma readlines_shape (text : str) :
  Forall (fun line => exists l0, free_of is_newline l0
                                 /\ (line = l0 \/ line = l0 ++ [LF]))
         (readlines text).
Proof.
  induction text as [|c rest IH]; [constructor|]. simpl.
  destruct (c =? LF)%N eqn:Ec.
  - constructor; [|exact IH]. exists []. split; [constructor | now right].
  - destruct (readlines rest) as [|line lines].
    + constructor; [|constructor]. exists [c]. split; [|now left].
      constructor; [exact Ec | constructor].
    + inversion IH as [|? ? (l0 & Hl0 & Hline) Hlines]; subst.
      constructor; [|exact Hlines]. exists (c :: l0).
      split; [now constructor|].
      destruct Hline as [->| ->]; [now left | now right].
Qed.

Lemma readlines_strip_free (text : str) :
  Forall (fun line => free_of is_newline (strip line)) (readlines text).
Proof.
  eapply Forall_impl; [|apply readlines_shape].
  intros line (l0 & Hl0 & [->| ->]).
  - now apply strip_free.
  - rewrite strip_spaces by now repeat constructor. now apply strip_free.
Qed.

(** A property of the entries that every metadata line brings holds for
    the metadata of the accumulators throughout. *)
Lemma dict_set_forall (V : Type) (P : str * V -> Prop) (key : str) (value : V)
    (d : dict V) :
  Forall P d -> P (key, value) -> Forall P (dict_set key value d).
Proof.
  intros Hd Hkv. induction Hd as [|[k v] d Hk Hd IH]; simpl.
  - now repeat constructor.
  - destruct (str_eqb k key) eqn:E.
    + apply str_eqb_eq in E. subst k. now constructor.
    + now constructor.
Qed.

Lemma absorb_metadata_forall (P : str * option str -> Prop) (st : accum)
    (line : str) :
  Forall P (acc_metadata st) ->
  (forall kv, _maybe_parse_metadata line = Some kv -> P kv) ->
  Forall P (acc_metadata (absorb st line)).
Proof.
  intros Hst Hline. unfold absorb.
  destruct (_maybe_parse_metadata line) as [[key value]|]; [|exact Hst].
  simpl. apply dict_set_forall; [exact Hst | now apply Hline].
Qed.

Lemma absorb_all_metadata_forall (P : str * option str -> Prop)
    (lines : list str) (st : accum) :
  Forall P (acc_metadata st) ->
  Forall (fun line => forall kv, _maybe_parse_metadata (strip line) = Some kv
                                 -> P kv) lines ->
  Forall P (acc_metadata (absorb_all lines st)).
Proof.
  intros Hst Hlines. revert st Hst.
  induction Hlines as [|line lines Hline Hlines IH]; intros st Hst; [exact Hst|].
  simpl. apply IH. now apply absorb_metadata_forall.
Qed.

Lemma handle_loop_metadata_forall (P : str * option str -> Prop)
    (lines : list str) (st : accum) :
  Forall P (acc_metadata st) ->
  Forall (fun line => forall kv, _maybe_parse_metadata (strip line) = Some kv
                                 -> P kv) lines ->
  Forall (fun u => Forall P (metadata u)) (handle_loop st lines).
Proof.
  intros Hst Hlines. revert st Hst.
  induction Hlines as [|line lines Hline Hlines IH]; intros st Hst.
  - simpl. unfold handle_finish. destruct (pending st); now repeat constructor.
  - destruct (blank line) eqn:Hb.
    + rewrite handle_loop_blank by exact Hb. apply Forall_app. split.
      * unfold handle_finish. destruct (pending st); now repeat constructor.
      * apply IH. constructor.
    + simpl. rewrite handle_step_content by exact Hb. simpl.
      apply IH. now apply absorb_metadata_forall.
Qed.

Lemma trimmed_stripped_line (line : str) (kv : str * option str) :
  free_of is_newline (strip line) ->
  _maybe_parse_metadata (strip line) = Some kv -> trimmed_entry kv = true.
Proof.
  intros Hfree H. destruct kv as [key value].
  destruct (strip_trimmed line) as [E|[_ Hend]].
  - rewrite E in H. discriminate.
  - now apply metadata_trimmed with (strip line).
Qed.

(** X9: in a line without a newline that does not end with whitespace,
    the key that [_maybe_parse_metadata] finds has no whitespace at
    either end, and the value, when there is one, is not empty and has
    none either.  Hence every metadata entry of the unit that
    [parse_from_string] returns, and of every unit that the streaming
    assembler yields for the lines of a text handle or of a file, is
    trimmed in this sense. *)
Theorem parsed_metadata_trimmed (line key : str) (value : option str)
    (buffer text : str) (read_text : str -> option str) (path : str) :
  (free_of is_newline line -> ends_clean line = true ->
   _maybe_parse_metadata line = Some (key, value) ->
   trimmed_entry (key, value) = true)
  /\ Forall (fun kv => trimmed_entry kv = true)
            (metadata (parse_from_string buffer))
  /\ Forall (fun u => Forall (fun kv => trimmed_entry kv = true) (metadata u))
            (_parse_from_handle (readlines text))
  /\ (forall units, parse_from_path read_text path = Some units ->
        Forall (fun u => Forall (fun kv => trimmed_entry kv = true) (metadata u))
               units).
Proof.
  split; [apply metadata_trimmed|]. split; [|split].
  - unfold parse_from_string. fold (absorb_all (splitlines buffer) empty_accum).
    cbn [metadata]. apply absorb_all_metadata_forall; [constructor|].
    eapply Forall_impl; [|apply splitlines_free].
    intros l Hl kv. apply trimmed_stripped_line.
    now apply strip_free, linebreak_free_newline_free.
  - apply handle_loop_metadata_forall; [constructor|].
    eapply Forall_impl; [|apply readlines_strip_free].
    intros l Hl kv. now apply trimmed_stripped_line.
  - intros units H. unfold parse_from_path in H.
    destruct (read_text path) as [content|]; [|discriminate].
    injection H as <-.
    apply handle_loop_metadata_forall; [constructor|].
    eapply Forall_impl; [|apply readlines_strip_free].
    intros l Hl kv. now apply trimmed_stripped_line.
Qed.

Lemma parsed_metadata_trimmed_witness :
  trimmed_entry (py "text", Some (py "a = b")) = true.
Proof.
  destruct (@parsed_metadata_trimmed (py "#  text =   a = b") (py "text")
              (Some (py "a = b")) [] [] (fun _ => None) []) as [H _].
  apply H; [apply free_of_dec|..]; reflexivity.
Defined.

(** ** Parsed units are inside the contract of the serializer *)

Lemma split_free_cells (bad : char -> bool) (sep : char) (s : str) :
  free_of bad s -> Forall (free_of bad) (split sep s).
Proof.
  induction 1 as [|c s Hc Hs IH]; simpl.
  - now repeat constructor.
  - destruct (c =? sep)%N.
    + constructor; [constructor | exact IH].
    + destruct (split sep s) as [|cell cells].
      * now repeat constructor.
      * inversion IH; subst. constructor; [now constructor | assumption].
Qed.

Lemma combine_values_forall (V : Type) (P : V -> Prop) (ks : list str)
    (vs : list V) :
  Forall P vs -> Forall (fun kv => P (snd kv)) (combine ks vs).
Proof.
  intros H. revert ks. induction H as [|v vs Hv Hvs IH]; intros [|k ks];
    simpl; constructor; auto.
Qed.

Lemma dict_get_forall (V : Type) (P : V -> Prop) (key : str) (default : V)
    (d : dict V) :
  Forall (fun kv => P (snd kv)) d -> P default -> P (dict_get key default d).
Proof.
  intros Hd Hdef. unfold dict_get.
  induction Hd as [|[k v] d Hv Hd IH]; simpl; [exact Hdef|].
  destruct (str_eqb k key); [exact Hv | exact IH].
Qed.

Lemma col_buf_free (bad : char -> bool) (token : Token) :
  bad UNDERSCORE = false ->
  Forall (fun kv => free_of bad (snd kv)) token ->
  Forall (free_of bad) (col_buf token).
Proof.
  intros Hu Htok. unfold col_buf. apply Forall_map, Forall_forall.
  intros key _. apply dict_get_forall; [exact Htok | now repeat constructor].
Qed.

Lemma parse_token_free (bad : char -> bool) (line : str) :
  bad UNDERSCORE = false -> free_of bad line ->
  Forall (free_of bad) (col_buf (_parse_token line)).
Proof.
  intros Hu Hline. apply col_buf_free; [exact Hu|].
  rewrite parse_token_combine. apply combine_values_forall.
  now apply split_free_cells.
Qed.

Lemma parse_token_tab_free (line : str) :
  Forall (free_of is_tab) (col_buf (_parse_token line)).
Proof.
  apply col_buf_free; [reflexivity|].
  rewrite parse_token_combine. apply combine_values_forall.
  eapply Forall_impl; [|apply (split_no_sep TAB line)].
  intros cell Hcell. apply Forall_forall. intros c Hc. unfold is_tab.
  destruct (c =? TAB)%N eqn:E; [|reflexivity].
  apply N.eqb_eq in E. subst c. contradiction.
Qed.

Lemma metadata_parts_free (bad : char -> bool) (line : str)
    (kv : str * option str) :
  free_of bad line -> _maybe_parse_metadata line = Some kv ->
  free_of bad (fst kv) /\ forall v, snd kv = Some v -> free_of bad v.
Proof.
  intros Hfree H. destruct kv as [key value].
  apply metadata_match_inv in H
    as (ws1 & s3 & -> & _ & _ & _ & _ & _ & _ & Hvalue).
  inversion Hfree as [|? ? _ Hrest]; subst.
  apply free_of_app in Hrest as [_ Hrest].
  apply free_of_app in Hrest as [Hkey Hs3]. split; [exact Hkey|].
  intros v Ev. cbn [snd] in Ev.
  destruct Hvalue as [[-> _]|(ws2 & ws3 & v' & -> & -> & _)]; [discriminate|].
  injection Ev as ->.
  apply free_of_app in Hs3 as [_ Hs3]. inversion Hs3 as [|? ? _ Hs3']; subst.
  now apply free_of_app in Hs3'.
Qed.

Lemma absorb_all_free (bad : char -> bool) (lines : list str) :
  bad UNDERSCORE = false ->
  Forall (fun line => free_of bad (strip line)) lines ->
  unit_free_of bad (unit_of (absorb_all lines empty_accum)).
Proof.
  intros Hu Hlines. split; cbn [unit_of metadata data].
  - apply (@absorb_all_metadata_forall
             (fun kv => free_of bad (fst kv)
                        /\ forall v, snd kv = Some v -> free_of bad v));
      [constructor|].
    eapply Forall_impl; [|exact Hlines].
    intros line Hline kv. now apply metadata_parts_free.
  - rewrite absorb_all_spec. cbn [acc_tokens app].
    apply Forall_map. unfold token_lines.
    apply Forall_forall. intros line Hin. apply filter_In in Hin as [Hin _].
    rewrite Forall_forall in Hlines. apply parse_token_free; auto.
Qed.

Lemma handle_loop_free (bad : char -> bool) (lines : list str) :
  bad UNDERSCORE = false ->
  Forall (fun line => free_of bad (strip line)) lines ->
  Forall (unit_free_of bad) (handle_loop empty_accum lines).
Proof.
  intros Hu Hlines. unfold unit_free_of. apply Forall_and.
  - apply (@handle_loop_metadata_forall
             (fun kv => free_of bad (fst kv)
                        /\ forall v, snd kv = Some v -> free_of bad v));
      [constructor|].
    eapply Forall_impl; [|exact Hlines].
    intros line Hline kv. now apply metadata_parts_free.
  - assert (H : Forall (fun token => Forall (free_of bad) (col_buf token))
                  (concat (map data (handle_loop empty_accum lines)))).
    { rewrite handle_loop_tokens. cbn [acc_tokens app empty_accum].
      apply Forall_map, Forall_forall. intros line Hin.
      unfold token_lines, content_lines in Hin.
      apply filter_In in Hin as [Hin _]. apply filter_In in Hin as [Hin _].
      rewrite Forall_forall in Hlines. apply parse_token_free; auto. }
    rewrite Forall_concat, Forall_map in H. exact H.
Qed.

Lemma splitlines_strip_free (buffer : str) :
  Forall (fun line => free_of is_linebreak (strip line)) (splitlines buffer).
Proof.
  eapply Forall_impl; [|apply splitlines_free]. intros line. apply strip_free.
Qed.

(** X10: whatever the buffer, the unit that [parse_from_string] returns
    holds no line boundary in any metadata key or value or token cell
    and no tab in any token cell; the units that the streaming assembler
    yields for the lines of a text handle hold no newline.  So the
    serializer writes a parsed unit as exactly one line per entry and
    per token, and each token line cuts into its ten cells. *)
Theorem parsed_unit_in_contract (buffer text : str) :
  let u := parse_from_string buffer in
  unit_free_of is_linebreak u
  /\ Forall (fun token => Forall (free_of is_tab) (col_buf token)) (data u)
  /\ Forall (unit_free_of is_newline) (_parse_from_handle (readlines text))
  /\ split LF (serialize u)
     = match line_buf u with [] => [[]] | _ :: _ => line_buf u end ++ [[]]
  /\ Forall (fun token => split TAB (token_line token) = col_buf token) (data u).
Proof.
  cbv zeta.
  assert (Hlb : unit_free_of is_linebreak (parse_from_string buffer)).
  { apply (@absorb_all_free is_linebreak (splitlines buffer) eq_refl).
    apply splitlines_strip_free. }
  assert (Htab : Forall (fun token => Forall (free_of is_tab) (col_buf token))
                   (data (parse_from_string buffer))).
  { unfold parse_from_string. fold (absorb_all (splitlines buffer) empty_accum).
    rewrite absorb_all_spec. cbn [data acc_tokens app empty_accum].
    apply Forall_map, Forall_forall. intros line _. apply parse_token_tab_free. }
  split; [exact Hlb|]. split; [exact Htab|]. split; [|split].
  - apply handle_loop_free; [reflexivity | apply readlines_strip_free].
  - apply serialize_split. apply unit_free_of_weaken with is_linebreak; [|exact Hlb].
    intros c Hc. unfold is_newline. destruct (c =? LF)%N eqn:E; [|reflexivity].
    apply N.eqb_eq in E. subst c. discriminate Hc.
  - eapply Forall_impl; [|exact Htab]. intros token Hcells.
    unfold token_line. apply split_join; [discriminate | exact Hcells].
Qed.

(** ** Inserting a dotted key into a configuration *)

Lemma dict_set_same (V : Type) (key : str) (value : V) (d : dict V) :
  dict_lookup key d = Some value -> dict_set key value d = d.
Proof.
  induction d as [|[k v] d IH]; simpl; [discriminate|].
  destruct (str_eqb k key); intros H.
  - now injection H as ->.
  - now rewrite IH.
Qed.

Lemma dict_set_twice (V : Type) (key : str) (v1 v2 : V) (d : dict V) :
  dict_set key v2 (dict_set key v1 d) = dict_set key v2 d.
Proof.
  induction d as [|[k v] d IH]; simpl.
  - now rewrite str_eqb_refl.
  - destruct (str_eqb k key) eqn:E; simpl; rewrite E; [reflexivity|].
    now rewrite IH.
Qed.

Lemma dict_lookup_set_other (V : Type) (key k : str) (value : V) (d : dict V) :
  str_eqb k key = false ->
  dict_lookup k (dict_set key value d) = dict_lookup k d.
Proof.
  intros H. rewrite dict_lookup_set. now rewrite str_eqb_sym, H.
Qed.

Lemma dict_lookup_set_same (V : Type) (key : str) (value : V) (d : dict V) :
  dict_lookup key (dict_set key value d) = Some value.
Proof. rewrite dict_lookup_set. now rewrite str_eqb_refl. Qed.

Lemma path_of_pieces (key : str) :
  removelast (path_of key) ++ [last (path_of key) []] = path_of key.
Proof.
  symmetry. apply app_removelast_last. apply split_nonempty.
Qed.

Section SweepFacts.
Variable atom : Type.

Lemma insert_at_empty (most : list str) (last : str) (v : value atom) :
  insert_at (VDict []) most last v = (nest most last v, Returned).
Proof.
  induction most as [|piece rest IH]; [reflexivity|].
  cbn [insert_at dict_lookup nest]. now rewrite IH.
Qed.

Lemma insert_at_lookup (most : list str) (last : str) (v ptr ptr' : value atom) :
  insert_at ptr most last v = (ptr', Returned) ->
  lookup_path (most ++ [last]) ptr' = Some v.
Proof.
  revert ptr ptr'; induction most as [|piece rest IH]; intros [items|a] ptr' H;
    try (simpl in H; discriminate).
  - simpl in H. injection H as <-. simpl. now rewrite dict_lookup_set_same.
  - cbn [insert_at] in H.
    destruct (insert_at _ rest last v) as [child' how] eqn:E.
    injection H as <- ->. cbn [app lookup_path].
    rewrite dict_lookup_set_same. now apply IH in E.
Qed.

Lemma insert_at_blocked (most : list str) (last : str) (v ptr : value atom) :
  snd (insert_at ptr most last v)
  = if blocked most ptr then RaisedTypeError else Returned.
Proof.
  revert ptr; induction most as [|piece rest IH]; intros [items|a];
    try reflexivity.
  cbn [insert_at blocked].
  destruct (insert_at _ rest last v) as [child' how] eqn:Ei. cbn [snd].
  specialize (IH (match dict_lookup piece items with
                  | Some child => child
                  | None => VDict []
                  end)).
  rewrite Ei in IH. cbn [snd] in IH. rewrite IH.
  destruct (dict_lookup piece items); [reflexivity|].
  now destruct rest.
Qed.

Lemma insert_at_raised_unchanged (most : list str) (last : str) (v ptr : value atom) :
  snd (insert_at ptr most last v) = RaisedTypeError ->
  fst (insert_at ptr most last v) = ptr.
Proof.
  revert ptr; induction most as [|piece rest IH]; intros [items|a] H;
    try reflexivity; try discriminate H.
  cbn [insert_at] in *.
  destruct (dict_lookup piece items) as [child|] eqn:El.
  - specialize (IH child).
    destruct (insert_at child rest last v) as [child' how]. cbn [fst snd] in *.
    rewrite (IH H). now rewrite dict_set_same.
  - rewrite insert_at_empty in H. discriminate H.
Qed.

Lemma insert_at_twice (most : list str) (last : str) (v1 v2 ptr : value atom) :
  fst (insert_at (fst (insert_at ptr most last v1)) most last v2)
  = fst (insert_at ptr most last v2).
Proof.
  revert ptr; induction most as [|piece rest IH]; intros [items|a];
    try reflexivity.
  - simpl. now rewrite dict_set_twice.
  - cbn [insert_at].
    set (child := match dict_lookup piece items with
                  | Some child => child
                  | None => VDict []
                  end).
    specialize (IH child).
    destruct (insert_at child rest last v1) as [c1 h1].
    cbn [fst insert_at] in *. rewrite dict_lookup_set_same.
    destruct (insert_at c1 rest last v2) as [c12 h12].
    destruct (insert_at child rest last v2) as [c2 h2].
    cbn [fst] in *. subst c12. now rewrite dict_set_twice.
Qed.

(** Where the blocking value is. *)
Lemma blocked_spec (most : list str) (ptr : value atom) :
  blocked most ptr = true <->
  exists q rest a, most = q ++ rest /\ lookup_path q ptr = Some (VOther a).
Proof.
  revert ptr; induction most as [|piece more IH]; intros [items|a]; simpl.
  - split; [discriminate|]. intros (q & rest & a & E & H).
    symmetry in E. apply app_eq_nil in E as [-> _]. discriminate H.
  - split; [|reflexivity]. intros _. now exists [], [], a.
  - destruct (dict_lookup piece items) as [child|] eqn:El.
    + rewrite IH. split.
      * intros (q & rest & a & -> & H). exists (piece :: q), rest, a.
        split; [reflexivity|]. simpl. now rewrite El.
      * intros (q & rest & a & E & H). destruct q as [|p q]; [discriminate H|].
        injection E as <- ->. simpl in H. rewrite El in H.
        now exists q, rest, a.
    + split; [discriminate|]. intros (q & rest & a & E & H).
      destruct q as [|p q]; [discriminate H|].
      injection E as <- ->. simpl in H. now rewrite El in H.
  - split; [|reflexivity]. intros _. now exists [], (piece :: more), a.
Qed.

Lemma recursive_insert_unfold (config v : value atom) (key : str) :
  _recursive_insert config key v
  = insert_at config (removelast (path_of key)) (last (path_of key) []) v.
Proof. reflexivity. Qed.

(** X11: when [_recursive_insert] returns, the configuration holds the
    value at the path that the dotted key spells:
    [config[p1][p2]...[pn]] is the value.  The configuration is a tree
    here; a configuration that holds itself is in the store further
    down. *)
Theorem recursive_insert_lookup (config config' v : value atom) (key : str) :
  _recursive_insert config key v = (config', Returned) ->
  lookup_path (path_of key) config' = Some v.
Proof.
  rewrite recursive_insert_unfold. intros H.
  rewrite <- path_of_pieces. now apply insert_at_lookup with config.
Qed.

(** X13: [_recursive_insert] raises exactly when, walking down the
    pieces of the key before the last one, it comes to a value that is
    not a dictionary (the configuration itself included); a missing piece
    never makes it raise.  When it raises, the configuration is as it
    was: nothing was created on the way. *)
Theorem recursive_insert_raises (config v : value atom) (key : str) :
  (snd (_recursive_insert config key v) = RaisedTypeError <->
   exists q rest a, removelast (path_of key) = q ++ rest
                    /\ lookup_path q config = Some (VOther a))
  /\ (snd (_recursive_insert config key v) = RaisedTypeError ->
      fst (_recursive_insert config key v) = config).
Proof.
  rewrite recursive_insert_unfold. split.
  - rewrite insert_at_blocked, <- blocked_spec.
    destruct (blocked _ config); split; congruence.
  - apply insert_at_raised_unchanged.
Qed.

(** X14: the last write wins: inserting a value under a key and then
    another value under the same key leaves the configuration that
    inserting the second value alone leaves.  The configuration is a
    tree here. *)
Theorem recursive_insert_last_wins (config v1 v2 : value atom) (key : str) :
  fst (_recursive_insert (fst (_recursive_insert config key v1)) key v2)
  = fst (_recursive_insert config key v2).
Proof. rewrite !recursive_insert_unfold. apply insert_at_twice. Qed.

(** X15: in the empty configuration [_recursive_insert] never raises and
    builds one dictionary per piece of the key, each with the next piece
    as its only key, down to the value. *)
Theorem recursive_insert_empty (v : value atom) (key : str) :
  _recursive_insert (VDict []) key v
  = (nest (removelast (path_of key)) (last (path_of key) []) v, Returned)
  /\ lookup_path (path_of key)
                 (nest (removelast (path_of key)) (last (path_of key) []) v)
     = Some v.
Proof.
  rewrite recursive_insert_unfold, insert_at_empty. split; [reflexivity|].
  rewrite <- path_of_pieces at 1.
  apply insert_at_lookup with (VDict []). apply insert_at_empty.
Qed.
End SweepFacts.

Lemma recursive_insert_lookup_witness :
  lookup_path (path_of (py "trainer.max_epochs"))
    (VDict [(py "seed", VOther 1);
            (py "trainer", VDict [(py "max_epochs", VOther 7)])])
  = Some (VOther 7).
Proof.
  apply (@recursive_insert_lookup nat
           (VDict [(py "seed", VOther 1)]) _ (VOther 7)
           (py "trainer.max_epochs")).
  reflexivity.
Defined.

Lemma recursive_insert_raises_witness :
  fst (_recursive_insert (VDict [(py "seed", VOther 1)]) (py "seed.offset")
         (VOther 7))
  = VDict [(py "seed", VOther 1)].
Proof.
  apply (@recursive_insert_raises nat). reflexivity.
Defined.

(** ** Populating the configuration from the sweep values *)

Section PopulateFacts.
Variable atom : Type.

(** X17: when an insertion raises, the loop of [populate_config] stops
    there: the configuration is left with exactly the sweep values before
    the failing one inserted, and the failing key is one whose path runs
    into a value that is not a dictionary. *)
Theorem populate_stops_at_failure (config config' : value atom)
    (items : list (str * value atom)) :
  insert_items config items = (config', RaisedTypeError) ->
  exists before key v after,
    items = before ++ (key, v) :: after
    /\ insert_items config before = (config', Returned)
    /\ _recursive_insert config' key v = (config', RaisedTypeError)
    /\ blocked (removelast (path_of key)) config' = true.
Proof.
  revert config; induction items as [|[key v] items IH]; intros config H;
    [discriminate|].
  cbn [insert_items] in H.
  destruct (_recursive_insert config key v) as [c1 [|]] eqn:E.
  - apply IH in H as (before & k & x & after & -> & Hb & Hr & Hblocked).
    exists ((key, v) :: before), k, x, after.
    split; [reflexivity|]. split; [|split; assumption].
    cbn [insert_items]. now rewrite E.
  - injection H as ->.
    pose proof (insert_at_raised_unchanged (removelast (path_of key))
                  (last (path_of key) []) v config) as Hu.
    pose proof (insert_at_blocked (removelast (path_of key))
                  (last (path_of key) []) v config) as Hb.
    rewrite <- recursive_insert_unfold in Hu, Hb. rewrite E in Hu, Hb.
    cbn [fst snd] in Hu, Hb. specialize (Hu eq_refl). subst config'.
    exists [], key, v, items. repeat split; auto.
    destruct (blocked _ config); [reflexivity | discriminate].
Qed.
End PopulateFacts.

Lemma populate_stops_at_failure_witness :
  exists before key v after,
    [(py "a", VOther 1); (py "a.b", VOther 2); (py "c", VOther 3)]
    = before ++ (key, v) :: after
    /\ insert_items (VDict []) before = (VDict [(py "a", VOther 1)], Returned)
    /\ _recursive_insert (VDict [(py "a", VOther 1)]) key v
       = (VDict [(py "a", VOther 1)], RaisedTypeError)
    /\ blocked (removelast (path_of key)) (VDict [(py "a", VOther 1)]) = true.
Proof.
  apply (@populate_stops_at_failure nat (VDict [])). reflexivity.
Defined.

(** ** One run, and the next *)

Section RunFacts.
Variable atom : Type.

(** X18: every call of [train_sweep] ends with a call of [wandb.finish],
    and the exit code of this last call is the return code of the
    subprocess, or 1 when [wandb.init] raised or the subprocess could
    not be run.  The subprocess is run whenever [wandb.init] did not
    raise, also when populating the configuration failed: then
    [yaml.dump] was not reached or failed and [wandb.finish] is called
    twice, the first time with 1 and before the subprocess is run.  The
    configuration is written, once, exactly when populating succeeded,
    and it is the configuration with the sweep values inserted. *)
Theorem train_sweep_protocol (w : world atom) (config : value atom)
    (argv : list str) :
  let events := snd (train_sweep w config argv) in
  last events (WandbInit atom) = WandbFinish atom (reported_code w)
  /\ existsb (@is_run atom) events = negb (init_raises w)
  /\ filter (@is_finish atom) events
     = (if init_raises w || populates w config
        then [WandbFinish atom (reported_code w)]
        else [WandbFinish atom 1%Z; WandbFinish atom (reported_code w)])
  /\ filter (fun e => is_run e || is_finish e) events
     = (if init_raises w then [WandbFinish atom 1%Z]
        else if populates w config
        then [SubprocessRun atom argv; WandbFinish atom (reported_code w)]
        else [WandbFinish atom 1%Z; SubprocessRun atom argv;
              WandbFinish atom (reported_code w)])
  /\ filter (@is_dump atom) events
     = (if negb (init_raises w) && populates w config
        then [YamlDump (fst (insert_items config (sweep_values w)))]
        else []).
Proof.
  cbv zeta. unfold train_sweep, populate_config, run_sweep, populates,
    reported_code.
  destruct (init_raises w); [repeat split|].
  destruct (insert_items config (sweep_values w)) as [c' [|]]; cbn [snd fst];
    [destruct (dump_raises w)|];
    (destruct (proc w) as [rc out err|]; [|repeat split]);
    (destruct (rc =? 0)%Z eqn:E;
     [apply Z.eqb_eq in E; subst rc; repeat split|]);
    destruct (truthy out), (truthy err); repeat split.
Qed.

End RunFacts.

(** ** Inserting into a store of dictionary objects *)

Lemma all_distinct_NoDup (ids : list nat) :
  all_distinct ids = true <-> NoDup ids.
Proof.
  induction ids as [|id rest IH]; simpl.
  - split; [constructor | reflexivity].
  - rewrite andb_true_iff, negb_true_iff, IH. split.
    + intros [Hn Hd]. constructor; [|exact Hd]. intros Hin.
      assert (E : existsb (Nat.eqb id) rest = true).
      { apply existsb_exists. exists id. split; [exact Hin | apply Nat.eqb_refl]. }
      congruence.
    + intros H. inversion H as [|x l Hn Hd]; subst. split; [|exact Hd].
      apply not_true_is_false. intros E. apply existsb_exists in E as [x [Hin E]].
      apply Nat.eqb_eq in E. now subst.
Qed.

Section StoreFacts.
Variable atom : Type.

Lemma store_set_length (id : nat) (items : dict (Shared.object atom)) (s : Shared.store atom) :
  length (Shared.store_set id items s) = length s.
Proof.
  revert id; induction s as [|d s IH]; intros [|id]; simpl; auto.
Qed.

Lemma store_set_same (id : nat) (items : dict (Shared.object atom)) (s : Shared.store atom) :
  id < length s -> nth_error (Shared.store_set id items s) id = Some items.
Proof.
  revert id; induction s as [|d s IH]; intros [|id] H; simpl in *; try lia.
  - reflexivity.
  - apply IH. lia.
Qed.

Lemma store_set_other (id i : nat) (items : dict (Shared.object atom)) (s : Shared.store atom) :
  i <> id -> nth_error (Shared.store_set id items s) i = nth_error s i.
Proof.
  revert id i; induction s as [|d s IH]; intros [|id] [|i] H; simpl; auto.
  - congruence.
Qed.

Lemma store_set_split (id : nat) (items old : dict (Shared.object atom)) (s : Shared.store atom) :
  nth_error s id = Some old ->
  exists s1 s2, s = s1 ++ old :: s2
                /\ Shared.store_set id items s = s1 ++ items :: s2.
Proof.
  revert id; induction s as [|d s IH]; intros [|id] H; simpl in *;
    try discriminate.
  - injection H as ->. now exists [], s.
  - destruct (IH id H) as (s1 & s2 & -> & E). exists (d :: s1), s2.
    split; [reflexivity|]. simpl. now rewrite E.
Qed.

Lemma store_set_app (id : nat) (items : dict (Shared.object atom)) (s more : Shared.store atom) :
  id < length s ->
  Shared.store_set id items (s ++ more) = Shared.store_set id items s ++ more.
Proof.
  revert id; induction s as [|d s IH]; intros [|id] H; simpl in *; try lia.
  - reflexivity.
  - rewrite IH by lia. reflexivity.
Qed.

Lemma store_set_last (items old : dict (Shared.object atom)) (s : Shared.store atom) :
  Shared.store_set (length s) items (s ++ [old]) = s ++ [items].
Proof. induction s as [|d s IH]; simpl; [reflexivity | now rewrite IH]. Qed.

(** Walking *)

Lemma walk_app (s : Shared.store atom) (ptr : Shared.object atom) (p q : list str) :
  walk s ptr (p ++ q)
  = match walk s ptr p with
    | Some mid => walk s mid q
    | None => None
    end.
Proof.
  revert ptr; induction p as [|piece p IH]; intros ptr; [reflexivity|].
  simpl. destruct ptr as [id|a]; [|reflexivity].
  destruct (nth_error s id) as [items|]; [|reflexivity].
  destruct (dict_lookup piece items) as [child|]; [apply IH | reflexivity].
Qed.

Lemma walk_step (s : Shared.store atom) (id : nat) (items : dict (Shared.object atom)) (piece : str)
    (rest : list str) :
  nth_error s id = Some items ->
  walk s (Shared.Dict atom id) (piece :: rest)
  = match dict_lookup piece items with
    | Some child => walk s child rest
    | None => None
    end.
Proof. intros H. simpl. now rewrite H. Qed.

(** The links of new dictionaries *)

Lemma link_head (next : nat) (post : list str) (v : Shared.object atom) :
  post <> [] -> fst (link next post v) = Shared.Dict atom next.
Proof.
  destruct post as [|k rest]; [contradiction|]. intros _. simpl.
  now destruct (link (S next) rest v).
Qed.

Lemma link_cons (next : nat) (k : str) (rest : list str) (v : Shared.object atom) :
  link next (k :: rest) v
  = (Shared.Dict atom next, [(k, fst (link (S next) rest v))] :: snd (link (S next) rest v)).
Proof. simpl. now destruct (link (S next) rest v). Qed.

(** From a new empty dictionary at the end of the store every piece is
    missing. *)
Lemma insert_at_fresh (rest : list str) (last : str) (v : Shared.object atom) (base : Shared.store atom) :
  Shared.insert_at (base ++ [[]]) (Shared.Dict atom (length base)) rest last v
  = (base ++ snd (link (length base) (rest ++ [last]) v), Returned).
Proof.
  revert base; induction rest as [|piece rest IH]; intros base.
  - cbn [Shared.insert_at app].
    rewrite nth_error_app2, Nat.sub_diag by lia. cbn [nth_error].
    rewrite store_set_last. reflexivity.
  - cbn [Shared.insert_at].
    rewrite nth_error_app2, Nat.sub_diag by lia. cbn [nth_error dict_lookup].
    rewrite store_set_last. cbn [dict_set].
    rewrite length_app. cbn [length]. rewrite Nat.add_1_r.
    specialize (IH (base ++ [[(piece, Shared.Dict atom (S (length base)))]])).
    rewrite length_app in IH. cbn [length] in IH. rewrite Nat.add_1_r in IH.
    etransitivity; [exact IH|]. cbn [app]. rewrite link_cons. cbn [snd].
    rewrite link_head by (now destruct rest).
    now rewrite <- app_assoc.
Qed.

(** How a call ends and what it leaves: it raises and leaves the store as
    it was, or it returns, and then one key of one dictionary of the
    store is set, to the value or to the first of the new dictionaries,
    which go to the end of the store. *)
Lemma insert_at_shape (most : list str) (last : str) (v ptr : Shared.object atom)
    (s s' : Shared.store atom) (how : outcome) :
  Shared.insert_at s ptr most last v = (s', how) ->
  (how = RaisedTypeError /\ s' = s)
  \/ (how = Returned /\
      exists pre k post id items,
        most ++ [last] = pre ++ k :: post
        /\ walk s ptr pre = Some (Shared.Dict atom id)
        /\ nth_error s id = Some items
        /\ (post <> [] -> dict_lookup k items = None)
        /\ s' = Shared.store_set id
                  (dict_set k (fst (link (length s) post v)) items) s
                ++ snd (link (length s) post v)).
Proof.
  revert ptr s' how; induction most as [|piece rest IH];
    intros [id|a] s' how H; cbn [Shared.insert_at] in H.
  - destruct (nth_error s id) as [items|] eqn:En.
    + injection H as <- <-. right. split; [reflexivity|].
      exists [], last, [], id, items. cbn [link fst snd app].
      rewrite app_nil_r. repeat split; auto. intros C. now elim C.
    + injection H as <- <-. now left.
  - injection H as <- <-. now left.
  - destruct (nth_error s id) as [items|] eqn:En.
    + destruct (dict_lookup piece items) as [child|] eqn:El.
      * apply IH in H as [[-> ->]|[-> H]]; [now left|]. right.
        split; [reflexivity|].
        destruct H as (pre & k & post & i & its & E & Hw & Hn & Hm & ->).
        exists (piece :: pre), k, post, i, its.
        split; [cbn [app]; now rewrite E|].
        split; [rewrite (walk_step _ _ _ _ En);
                now rewrite El|].
        repeat split; auto.
      * pose proof (insert_at_fresh rest last v
                      (Shared.store_set id
                         (dict_set piece (Shared.Dict atom (length s)) items) s)) as Hf.
        rewrite store_set_length in Hf. rewrite Hf in H.
        injection H as <- <-. right. split; [reflexivity|].
        exists [], piece, (rest ++ [last]), id, items.
        split; [reflexivity|]. split; [reflexivity|]. split; [exact En|].
        split; [intros _; exact El|].
        rewrite link_head by (now destruct rest). reflexivity.
    + injection H as <- <-. now left.
  - injection H as <- <-. now left.
Qed.
End StoreFacts.

Lemma diverge_nil_r (q : list str) : diverge q [] = false.
Proof. now destruct q. Qed.

Lemma diverge_cons (a b : str) (p q : list str) :
  diverge (a :: p) (b :: q) = if str_eqb a b then diverge p q else true.
Proof. reflexivity. Qed.

Section WalkFacts.
Variable atom : Type.

Lemma lookup_in_refs_of (k : str) (items : dict (Shared.object atom)) (id : nat) :
  dict_lookup k items = Some (Shared.Dict atom id) -> In id (refs_of items).
Proof.
  induction items as [|[k' v'] items IH]; simpl; [discriminate|].
  destruct (str_eqb k' k).
  - intros H. injection H as ->. now left.
  - intros H. apply in_or_app. right. now apply IH.
Qed.

Lemma nth_in_refs (s : Shared.store atom) (i id : nat)
    (items : dict (Shared.object atom)) :
  nth_error s i = Some items -> In id (refs_of items) -> In id (refs s).
Proof.
  intros Hn Hin. apply in_flat_map. exists items. split; [|exact Hin].
  now apply nth_error_In with i.
Qed.

Lemma inside_child (s : Shared.store atom) (i : nat)
    (items : dict (Shared.object atom)) (k : str) (child : Shared.object atom) :
  inside s (Shared.Dict atom i) -> nth_error s i = Some items ->
  dict_lookup k items = Some child -> inside s child.
Proof.
  intros Hin Hn Hl id H. apply Hin. apply in_or_app. right.
  apply in_app_or in H as [H|H]; [|exact H].
  destruct child as [c|a]; [|contradiction]. destruct H as [<-|[]].
  apply nth_in_refs with i items; [exact Hn|].
  now apply lookup_in_refs_of with k.
Qed.

Lemma inside_dict (s : Shared.store atom) (i : nat) :
  inside s (Shared.Dict atom i) -> i < length s.
Proof. intros H. apply H. now left. Qed.

(** A walk that does not read the key that was set finds what it found
    before. *)
Lemma walk_frame (s : Shared.store atom) (id : nat) (k : str)
    (x : Shared.object atom) (items : dict (Shared.object atom))
    (ds : Shared.store atom) (q : list str) (ptr : Shared.object atom) :
  nth_error s id = Some items ->
  inside s ptr ->
  (forall r rest, q = r ++ k :: rest -> walk s ptr r <> Some (Shared.Dict atom id)) ->
  walk (Shared.store_set id (dict_set k x items) s ++ ds) ptr q = walk s ptr q.
Proof.
  intros Hid. revert ptr; induction q as [|piece q IH]; intros ptr Hin Hread;
    [reflexivity|].
  destruct ptr as [i|a]; [|reflexivity].
  pose proof (inside_dict Hin) as Hi.
  destruct (nth_error s i) as [its|] eqn:En;
    [|apply nth_error_None in En; lia].
  rewrite (walk_step _ _ _ _ En).
  assert (El : forall its',
            nth_error (Shared.store_set id (dict_set k x items) s ++ ds) i
            = Some its' ->
            dict_lookup piece its' = dict_lookup piece its).
  { intros its'. rewrite nth_error_app1 by (now rewrite store_set_length).
    destruct (Nat.eq_dec i id) as [->|Hne].
    - rewrite store_set_same by exact Hi. intros E. injection E as <-.
      rewrite Hid in En. injection En as ->.
      apply dict_lookup_set_other.
      destruct (str_eqb piece k) eqn:E; [|reflexivity].
      apply str_eqb_eq in E. subst piece.
      now elim (Hread [] q eq_refl).
    - rewrite store_set_other by exact Hne. rewrite En. now intros [= <-]. }
  destruct (nth_error (Shared.store_set id (dict_set k x items) s ++ ds) i)
    as [its'|] eqn:En'.
  - rewrite (walk_step _ _ _ _ En').
    rewrite (El its' eq_refl).
    destruct (dict_lookup piece its) as [child|] eqn:Ec; [|reflexivity].
    apply IH.
    + now apply inside_child with i its piece.
    + intros r rest E. specialize (Hread (piece :: r) rest).
      rewrite E in Hread. specialize (Hread eq_refl).
      rewrite (walk_step _ _ _ _ En) in Hread.
      now rewrite Ec in Hread.
  - apply nth_error_None in En'. rewrite length_app, store_set_length in En'.
    lia.
Qed.

(** Walking down the new dictionaries *)
Lemma walk_link (post : list str) (v : Shared.object atom)
    (base : Shared.store atom) :
  walk (base ++ snd (link (length base) post v))
       (fst (link (length base) post v)) post
  = Some v.
Proof.
  revert base; induction post as [|k post IH]; intros base; [reflexivity|].
  rewrite link_cons. cbn [fst snd].
  rewrite walk_step with (items := [(k, fst (link (S (length base)) post v))]).
  - cbn [dict_lookup]. rewrite str_eqb_refl.
    specialize (IH (base ++ [[(k, fst (link (S (length base)) post v))]])).
    rewrite length_app in IH. cbn [length] in IH. rewrite Nat.add_1_r in IH.
    rewrite <- app_assoc in IH. exact IH.
  - rewrite nth_error_app2, Nat.sub_diag by lia. reflexivity.
Qed.

Lemma walk_link_diverge (post q : list str) (v : Shared.object atom)
    (base : Shared.store atom) :
  diverge q post = true ->
  walk (base ++ snd (link (length base) post v))
       (fst (link (length base) post v)) q
  = None.
Proof.
  revert q base; induction post as [|k post IH]; intros q base H;
    [now rewrite diverge_nil_r in H|].
  destruct q as [|b q]; [discriminate H|].
  rewrite link_cons. cbn [fst snd].
  rewrite walk_step with (items := [(k, fst (link (S (length base)) post v))])
    by (rewrite nth_error_app2, Nat.sub_diag by lia; reflexivity).
  cbn [dict_lookup]. rewrite diverge_cons in H.
  rewrite str_eqb_sym. destruct (str_eqb b k); [|reflexivity].
  specialize (IH q (base ++ [[(k, fst (link (S (length base)) post v))]]) H).
  rewrite length_app in IH. cbn [length] in IH. rewrite Nat.add_1_r in IH.
  rewrite <- app_assoc in IH. exact IH.
Qed.

Lemma unique_paths_child (s : Shared.store atom) (i : nat)
    (items : dict (Shared.object atom)) (k : str) (child : Shared.object atom) :
  unique_paths s (Shared.Dict atom i) -> nth_error s i = Some items ->
  dict_lookup k items = Some child -> unique_paths s child.
Proof.
  intros Hu Hn Hl r1 r2 id H1 H2.
  assert (E : k :: r1 = k :: r2).
  { apply Hu with id; rewrite (walk_step _ _ _ _ Hn);
      now rewrite Hl. }
  now injection E.
Qed.

Section OneKeySet.
Variables (s : Shared.store atom) (id : nat) (k : str) (post : list str)
          (v : Shared.object atom) (items : dict (Shared.object atom)).
Hypothesis Hid : nth_error s id = Some items.
Hypothesis Hmissing : post <> [] -> dict_lookup k items = None.

Let s' : Shared.store atom :=
  Shared.store_set id (dict_set k (fst (link (length s) post v)) items) s
  ++ snd (link (length s) post v).

Lemma set_key_read :
  walk s' (Shared.Dict atom id) (k :: post) = Some v.
Proof.
  assert (Hi : id < length s) by (apply nth_error_Some; congruence).
  unfold s'.
  rewrite walk_step with
    (items := dict_set k (fst (link (length s) post v)) items)
    by (rewrite nth_error_app1 by (now rewrite store_set_length);
        now apply store_set_same).
  rewrite dict_lookup_set_same.
  pose proof (walk_link post v
                (Shared.store_set id
                   (dict_set k (fst (link (length s) post v)) items) s)) as H.
  now rewrite store_set_length in H.
Qed.

Lemma set_key_diverge (q : list str) :
  diverge q post = true ->
  walk s' (Shared.Dict atom id) (k :: q) = None
  /\ walk s (Shared.Dict atom id) (k :: q) = None.
Proof.
  intros Hd.
  assert (Hi : id < length s) by (apply nth_error_Some; congruence).
  split.
  - unfold s'.
    rewrite walk_step with
      (items := dict_set k (fst (link (length s) post v)) items)
      by (rewrite nth_error_app1 by (now rewrite store_set_length);
          now apply store_set_same).
    rewrite dict_lookup_set_same.
    pose proof (walk_link_diverge post q v
                  (Shared.store_set id
                     (dict_set k (fst (link (length s) post v)) items) s) Hd)
      as H.
    now rewrite store_set_length in H.
  - rewrite (walk_step _ _ _ _ Hid).
    rewrite Hmissing; [reflexivity|].
    intros ->. now rewrite diverge_nil_r in Hd.
Qed.

Lemma set_key_lookup (pre : list str) (ptr : Shared.object atom) :
  walk s ptr pre = Some (Shared.Dict atom id) ->
  inside s ptr -> unique_paths s ptr ->
  walk s' ptr (pre ++ k :: post) = Some v.
Proof.
  revert ptr; induction pre as [|a pre IH]; intros ptr Hw Hin Hu.
  - injection Hw as ->. apply set_key_read.
  - destruct ptr as [i|b]; [|discriminate Hw].
    pose proof (inside_dict Hin) as Hi.
    destruct (nth_error s i) as [its|] eqn:En;
      [|apply nth_error_None in En; lia].
    rewrite (walk_step _ _ _ _ En) in Hw.
    destruct (dict_lookup a its) as [child|] eqn:El; [|discriminate Hw].
    assert (Hne : i <> id).
    { intros ->.
      assert (E : [] = a :: pre); [|discriminate E].
      apply Hu with id; [reflexivity|].
      rewrite (walk_step _ _ _ _ En). now rewrite El. }
    cbn [app]. unfold s'.
    rewrite walk_step with (items := its)
      by (rewrite nth_error_app1 by (now rewrite store_set_length);
          now rewrite store_set_other).
    rewrite El. apply IH; [exact Hw| |].
    + now apply inside_child with i its a.
    + now apply unique_paths_child with i its a.
Qed.

Lemma set_key_frame (pre q : list str) (ptr : Shared.object atom) :
  walk s ptr pre = Some (Shared.Dict atom id) ->
  inside s ptr -> unique_paths s ptr ->
  diverge q (pre ++ k :: post) = true ->
  walk s' ptr q = walk s ptr q.
Proof.
  revert ptr q; induction pre as [|a pre IH]; intros ptr q Hw Hin Hu Hd.
  - injection Hw as ->. destruct q as [|b q]; [discriminate Hd|].
    cbn [app] in Hd. rewrite diverge_cons in Hd.
    destruct (str_eqb b k) eqn:E.
    + apply str_eqb_eq in E. subst b.
      destruct (set_key_diverge q Hd) as [-> ->]. reflexivity.
    + apply walk_frame; [exact Hid | exact Hin|].
      intros r rest Eq Hr. destruct r as [|c r].
      * injection Eq as -> _. now rewrite str_eqb_refl in E.
      * assert (C : c :: r = []); [|discriminate C].
        now apply Hu with id.
  - destruct ptr as [i|b]; [|discriminate Hw].
    pose proof (inside_dict Hin) as Hi.
    destruct (nth_error s i) as [its|] eqn:En;
      [|apply nth_error_None in En; lia].
    pose proof Hw as Hw0.
    rewrite (walk_step _ _ _ _ En) in Hw.
    destruct (dict_lookup a its) as [child|] eqn:El; [|discriminate Hw].
    destruct q as [|b q]; [discriminate Hd|].
    cbn [app] in Hd. rewrite diverge_cons in Hd.
    destruct (str_eqb b a) eqn:E.
    + apply str_eqb_eq in E. subst b.
      assert (Hne : i <> id).
      { intros ->.
        assert (C : [] = a :: pre); [|discriminate C].
        now apply Hu with id. }
      unfold s'.
      rewrite walk_step with (items := its)
        by (rewrite nth_error_app1 by (now rewrite store_set_length);
            now rewrite store_set_other).
      rewrite (walk_step _ _ _ _ En).
      rewrite El. apply IH; [exact Hw| | |exact Hd].
      * now apply inside_child with i its a.
      * now apply unique_paths_child with i its a.
    + apply walk_frame; [exact Hid | exact Hin|].
      intros r rest Eq Hr.
      assert (C : r = a :: pre) by now apply Hu with id.
      subst r. injection Eq as -> _. now rewrite str_eqb_refl in E.
Qed.
End OneKeySet.

(** What [insert_at] leaves at the path of the key and off that path,
    when no dictionary is reached by two paths. *)
Lemma shared_insert_at_lookup (most : list str) (last : str)
    (v ptr : Shared.object atom) (s s' : Shared.store atom) :
  inside s ptr -> unique_paths s ptr ->
  Shared.insert_at s ptr most last v = (s', Returned) ->
  walk s' ptr (most ++ [last]) = Some v.
Proof.
  intros Hin Hu H.
  apply insert_at_shape in H as [[C _]|[_ H]]; [discriminate C|].
  destruct H as (pre & k & post & id & items & -> & Hw & Hn & Hm & ->).
  apply set_key_lookup with (pre := pre); assumption.
Qed.

Lemma shared_insert_at_frame (most : list str) (last : str)
    (v ptr : Shared.object atom) (s : Shared.store atom) (q : list str) :
  inside s ptr -> unique_paths s ptr ->
  diverge q (most ++ [last]) = true ->
  walk (fst (Shared.insert_at s ptr most last v)) ptr q = walk s ptr q.
Proof.
  intros Hin Hu Hd.
  destruct (Shared.insert_at s ptr most last v) as [s' how] eqn:H.
  cbn [fst].
  apply insert_at_shape in H as [[_ ->]|[_ H]]; [reflexivity|].
  destruct H as (pre & k & post & id & items & E & Hw & Hn & Hm & ->).
  rewrite E in Hd. apply set_key_frame with (pre := pre) (post := post) (k := k);
    assumption.
Qed.
End WalkFacts.

(** ** Dictionaries held once *)

Section HeldOnce.
Variable atom : Type.

Lemma count_seq (start len m : nat) :
  count_occ Nat.eq_dec (seq start len) m <= 1
  /\ (m < start -> count_occ Nat.eq_dec (seq start len) m = 0)
  /\ (0 < count_occ Nat.eq_dec (seq start len) m -> m < start + len).
Proof.
  split; [|split].
  - apply NoDup_count_occ. apply seq_NoDup.
  - intros H. apply count_occ_not_In. rewrite in_seq. lia.
  - intros H. apply count_occ_In in H. apply in_seq in H. lia.
Qed.

Lemma unshared_spec (s : Shared.store atom) (roots : list (Shared.object atom)) :
  unshared s roots = true <->
  forall m, count_occ Nat.eq_dec (flat_map (@held atom) roots) m
            + count_occ Nat.eq_dec (refs s) m <= 1.
Proof.
  unfold unshared. rewrite all_distinct_NoDup, (NoDup_count_occ Nat.eq_dec).
  split; intros H m; specialize (H m); now rewrite count_occ_app in *.
Qed.

Lemma closed_spec (s : Shared.store atom) (roots : list (Shared.object atom)) :
  closed s roots = true <->
  forall m, 0 < count_occ Nat.eq_dec (flat_map (@held atom) roots) m
                + count_occ Nat.eq_dec (refs s) m ->
            m < length s.
Proof.
  unfold closed. rewrite forallb_forall. split.
  - intros H m Hm. apply Nat.ltb_lt, H.
    rewrite <- count_occ_app in Hm. now apply count_occ_In in Hm.
  - intros H m Hm. apply Nat.ltb_lt, H.
    rewrite <- count_occ_app. now apply count_occ_In.
Qed.

Lemma closed_inside (s : Shared.store atom) (ptr : Shared.object atom)
    (others : list (Shared.object atom)) :
  closed s (ptr :: others) = true -> inside s ptr.
Proof.
  rewrite closed_spec. intros H m Hm. apply H.
  cbn [flat_map]. rewrite count_occ_app.
  apply (count_occ_In Nat.eq_dec) in Hm. rewrite count_occ_app in Hm. lia.
Qed.

Lemma refs_cons (d : dict (Shared.object atom)) (s : Shared.store atom) :
  refs (d :: s) = refs_of d ++ refs s.
Proof. reflexivity. Qed.

Lemma refs_app (s1 s2 : Shared.store atom) : refs (s1 ++ s2) = refs s1 ++ refs s2.
Proof. apply flat_map_app. Qed.

Lemma refs_of_cons (k : str) (x : Shared.object atom)
    (items : dict (Shared.object atom)) :
  refs_of ((k, x) :: items) = held x ++ refs_of items.
Proof. reflexivity. Qed.

Lemma count_refs_nth (s : Shared.store atom) (j m : nat)
    (d : dict (Shared.object atom)) :
  nth_error s j = Some d ->
  count_occ Nat.eq_dec (refs_of d) m <= count_occ Nat.eq_dec (refs s) m.
Proof.
  revert j; induction s as [|d0 s IH]; intros [|j] H; simpl in H;
    try discriminate; rewrite refs_cons, count_occ_app.
  - injection H as ->. lia.
  - specialize (IH j H). lia.
Qed.

Lemma count_refs_two (s : Shared.store atom) (j1 j2 m : nat)
    (d1 d2 : dict (Shared.object atom)) :
  nth_error s j1 = Some d1 -> nth_error s j2 = Some d2 -> j1 <> j2 ->
  count_occ Nat.eq_dec (refs_of d1) m + count_occ Nat.eq_dec (refs_of d2) m
  <= count_occ Nat.eq_dec (refs s) m.
Proof.
  revert j1 j2; induction s as [|d0 s IH]; intros [|j1] [|j2] H1 H2 Hne;
    simpl in H1, H2; try discriminate; try congruence;
    rewrite refs_cons, count_occ_app.
  - injection H1 as ->. pose proof (@count_refs_nth _ _ m _ H2). lia.
  - injection H2 as ->. pose proof (@count_refs_nth _ _ m _ H1). lia.
  - assert (Hne' : j1 <> j2) by congruence.
    specialize (IH j1 j2 H1 H2 Hne'). lia.
Qed.

Lemma count_lookup_one (a : str) (items : dict (Shared.object atom)) (i : nat) :
  dict_lookup a items = Some (Shared.Dict atom i) ->
  1 <= count_occ Nat.eq_dec (refs_of items) i.
Proof.
  intros H. apply count_occ_In. now apply lookup_in_refs_of with a.
Qed.

Lemma count_lookup_two (a b : str) (items : dict (Shared.object atom)) (i : nat) :
  dict_lookup a items = Some (Shared.Dict atom i) ->
  dict_lookup b items = Some (Shared.Dict atom i) -> a <> b ->
  2 <= count_occ Nat.eq_dec (refs_of items) i.
Proof.
  induction items as [|[k x] items IH]; [discriminate|].
  cbn [dict_lookup]. rewrite refs_of_cons, count_occ_app.
  intros Ha Hb Hne.
  destruct (str_eqb k a) eqn:Eka; destruct (str_eqb k b) eqn:Ekb.
  - apply str_eqb_eq in Eka, Ekb. congruence.
  - injection Ha as ->. pose proof (@count_lookup_one _ _ _ Hb).
    cbn [held count_occ]. destruct (Nat.eq_dec i i); [simpl; lia | congruence].
  - injection Hb as ->. pose proof (@count_lookup_one _ _ _ Ha).
    cbn [held count_occ]. destruct (Nat.eq_dec i i); [simpl; lia | congruence].
  - specialize (IH Ha Hb Hne). lia.
Qed.

(** A dictionary that is held once is the value of one key of one
    dictionary. *)
Lemma one_holder (s : Shared.store atom) (j1 j2 i : nat) (a b : str)
    (d1 d2 : dict (Shared.object atom)) :
  (forall m, count_occ Nat.eq_dec (refs s) m <= 1) ->
  nth_error s j1 = Some d1 -> dict_lookup a d1 = Some (Shared.Dict atom i) ->
  nth_error s j2 = Some d2 -> dict_lookup b d2 = Some (Shared.Dict atom i) ->
  j1 = j2 /\ a = b.
Proof.
  intros Hc Hn1 Hl1 Hn2 Hl2. specialize (Hc i).
  destruct (Nat.eq_dec j1 j2) as [->|Hne].
  - split; [reflexivity|]. rewrite Hn1 in Hn2. injection Hn2 as <-.
    destruct (str_eq_dec a b) as [|Hab]; [assumption|].
    pose proof (@count_lookup_two _ _ _ _ Hl1 Hl2 Hab).
    pose proof (@count_refs_nth _ _ i _ Hn1). lia.
  - pose proof (@count_refs_two _ _ _ i _ _ Hn1 Hn2 Hne).
    pose proof (@count_lookup_one _ _ _ Hl1). pose proof (@count_lookup_one _ _ _ Hl2).
    lia.
Qed.

Lemma walk_snoc (s : Shared.store atom) (ptr x : Shared.object atom)
    (r : list str) (a : str) :
  walk s ptr (r ++ [a]) = Some x ->
  exists j d, walk s ptr r = Some (Shared.Dict atom j)
              /\ nth_error s j = Some d /\ dict_lookup a d = Some x.
Proof.
  rewrite walk_app. destruct (walk s ptr r) as [[j|b]|]; try discriminate.
  simpl. destruct (nth_error s j) as [d|] eqn:En; [|discriminate].
  destruct (dict_lookup a d) as [child|] eqn:E; [|discriminate].
  intros H. injection H as <-. now exists j, d.
Qed.

(** When no dictionary is held twice and the first object nowhere, one
    path at most leads from it to a dictionary. *)
Lemma unshared_unique (s : Shared.store atom) (ptr : Shared.object atom)
    (others : list (Shared.object atom)) :
  unshared s (ptr :: others) = true -> unique_paths s ptr.
Proof.
  rewrite unshared_spec. cbn [flat_map]. intros Hc.
  assert (Hrefs : forall m, count_occ Nat.eq_dec (refs s) m <= 1).
  { intros m. specialize (Hc m). lia. }
  assert (Hroot : forall r a i,
            walk s ptr [] = Some (Shared.Dict atom i) ->
            walk s ptr (r ++ [a]) = Some (Shared.Dict atom i) -> False).
  { intros r a i H0 H1. injection H0 as ->.
    apply walk_snoc in H1 as (j & d & _ & Hn & Hl).
    pose proof (@count_lookup_one _ _ _ Hl). pose proof (@count_refs_nth _ _ i _ Hn).
    specialize (Hc i). rewrite count_occ_app in Hc. cbn [held count_occ] in Hc.
    destruct (Nat.eq_dec i i); [simpl in Hc; lia | congruence]. }
  intros r1. induction r1 as [|a r1 IH] using rev_ind; intros r2 i H1 H2.
  - destruct r2 as [|b r2 _] using rev_ind; [reflexivity|].
    now elim (Hroot r2 b i).
  - destruct r2 as [|b r2 _] using rev_ind; [now elim (Hroot r1 a i)|].
    apply walk_snoc in H1 as (j1 & d1 & Hw1 & Hn1 & Hl1).
    apply walk_snoc in H2 as (j2 & d2 & Hw2 & Hn2 & Hl2).
    destruct (@one_holder _ _ _ _ _ _ _ _ Hrefs Hn1 Hl1 Hn2 Hl2) as [-> ->].
    now rewrite (IH r2 j2 Hw1 Hw2).
Qed.

(** What one insertion adds to the dictionaries held. *)
Lemma link_length (next : nat) (post : list str) (v : Shared.object atom) :
  length (snd (link next post v)) = length post.
Proof.
  revert next; induction post as [|k post IH]; intros next; [reflexivity|].
  rewrite link_cons. cbn [snd length]. now rewrite IH.
Qed.

Lemma link_count (next m : nat) (post : list str) (v : Shared.object atom) :
  count_occ Nat.eq_dec (refs (snd (link next post v))) m
  + count_occ Nat.eq_dec (held (fst (link next post v))) m
  = count_occ Nat.eq_dec (held v) m
    + count_occ Nat.eq_dec (seq next (length post)) m.
Proof.
  revert next; induction post as [|k post IH]; intros next.
  - simpl. lia.
  - rewrite link_cons. cbn [fst snd length seq].
    rewrite refs_cons, refs_of_cons, !count_occ_app.
    specialize (IH (S next)). cbn [refs_of flat_map held count_occ] in *.
    destruct (Nat.eq_dec next m); lia.
Qed.

Lemma dict_set_count (k : str) (x : Shared.object atom)
    (items : dict (Shared.object atom)) (m : nat) :
  count_occ Nat.eq_dec (refs_of (dict_set k x items)) m
  <= count_occ Nat.eq_dec (refs_of items) m + count_occ Nat.eq_dec (held x) m.
Proof.
  induction items as [|[k' x'] items IH]; cbn [dict_set].
  - rewrite refs_of_cons, count_occ_app. cbn [refs_of flat_map count_occ]. lia.
  - destruct (str_eqb k' k); rewrite !refs_of_cons, !count_occ_app; lia.
Qed.

Lemma insert_at_refs (most : list str) (last : str) (v ptr : Shared.object atom)
    (s s' : Shared.store atom) (how : outcome) :
  Shared.insert_at s ptr most last v = (s', how) ->
  length s <= length s'
  /\ forall m, count_occ Nat.eq_dec (refs s') m
               <= count_occ Nat.eq_dec (refs s) m
                  + count_occ Nat.eq_dec (held v) m
                  + count_occ Nat.eq_dec (seq (length s) (length s' - length s)) m.
Proof.
  intros H. apply insert_at_shape in H as [[_ ->]|[_ H]].
  - split; [lia|]. intros m. lia.
  - destruct H as (pre & k & post & id & items & _ & _ & Hn & _ & ->).
    rewrite length_app, store_set_length, link_length. split; [lia|].
    intros m. replace (length s + length post - length s) with (length post) by lia.
    destruct (@store_set_split _ _
                (dict_set k (fst (link (length s) post v)) items) _ _ Hn)
      as (s1 & s2 & Es & ->).
    pose proof (link_count (length s) m post v) as Hl.
    pose proof (dict_set_count k (fst (link (length s) post v)) items m) as Hd.
    assert (Hs : count_occ Nat.eq_dec (refs s) m
                 = count_occ Nat.eq_dec (refs s1) m
                   + (count_occ Nat.eq_dec (refs_of items) m
                      + count_occ Nat.eq_dec (refs s2) m)).
    { rewrite Es at 1. now rewrite refs_app, refs_cons, !count_occ_app. }
    rewrite !refs_app, !refs_cons, !count_occ_app. lia.
Qed.

(** An insertion keeps the store closed and its dictionaries held once;
    the value that was inserted is now held in the store. *)
Lemma insert_at_keeps (most : list str) (last : str)
    (v config : Shared.object atom) (others : list (Shared.object atom))
    (s s' : Shared.store atom) (how : outcome) :
  closed s (config :: v :: others) = true ->
  unshared s (config :: v :: others) = true ->
  Shared.insert_at s config most last v = (s', how) ->
  closed s' (config :: others) = true /\ unshared s' (config :: others) = true.
Proof.
  rewrite !closed_spec, !unshared_spec. cbn [flat_map].
  intros Hc Hu H. apply insert_at_refs in H as [Hlen Hcount].
  split; intros m; specialize (Hc m); specialize (Hu m); specialize (Hcount m);
    rewrite !count_occ_app in *;
    destruct (count_seq (length s) (length s' - length s) m) as (Hs1 & Hs0 & Hs2);
    destruct (Nat.lt_ge_cases m (length s)) as [Hm|Hm].
  - intros _. lia.
  - intros Hpos. lia.
  - specialize (Hs0 Hm). lia.
  - lia.
Qed.

Lemma invariants_drop (s : Shared.store atom) (config : Shared.object atom)
    (gone others : list (Shared.object atom)) :
  closed s (config :: gone ++ others) = true ->
  unshared s (config :: gone ++ others) = true ->
  closed s (config :: others) = true /\ unshared s (config :: others) = true.
Proof.
  rewrite !closed_spec, !unshared_spec. cbn [flat_map].
  rewrite flat_map_app. intros Hc Hu.
  split; intros m; specialize (Hc m); specialize (Hu m);
    rewrite !count_occ_app in *; lia.
Qed.
End HeldOnce.

(** ** The insertion loop and the runs on a store *)

Section SharedLoop.
Variable atom : Type.

Lemma shared_recursive_insert_unfold (s : Shared.store atom)
    (config v : Shared.object atom) (key : str) :
  Shared._recursive_insert s config key v
  = Shared.insert_at s config (removelast (path_of key))
      (last (path_of key) []) v.
Proof. reflexivity. Qed.

Lemma shared_insert_items_app (s : Shared.store atom) (config : Shared.object atom)
    (a b : list (str * Shared.object atom)) :
  Shared.insert_items s config (a ++ b)
  = match Shared.insert_items s config a with
    | (s', Returned) => Shared.insert_items s' config b
    | (s', RaisedTypeError) => (s', RaisedTypeError)
    end.
Proof.
  revert s; induction a as [|[key v] a IH]; intros s; [reflexivity|].
  cbn [app Shared.insert_items].
  destruct (Shared._recursive_insert s config key v) as [s' [|]];
    [apply IH | reflexivity].
Qed.

Lemma shared_insert_items_keep (s : Shared.store atom)
    (config : Shared.object atom) (items : list (str * Shared.object atom))
    (others : list (Shared.object atom)) :
  closed s (config :: map snd items ++ others) = true ->
  unshared s (config :: map snd items ++ others) = true ->
  closed (fst (Shared.insert_items s config items)) (config :: others) = true
  /\ unshared (fst (Shared.insert_items s config items)) (config :: others) = true.
Proof.
  revert s; induction items as [|[key v] items IH]; intros s Hc Hu;
    [now split|].
  cbn [map snd app] in Hc, Hu. cbn [Shared.insert_items].
  destruct (Shared._recursive_insert s config key v) as [s1 how] eqn:E.
  rewrite shared_recursive_insert_unfold in E.
  destruct (@insert_at_keeps atom _ _ _ _ _ _ _ _ Hc Hu E) as [Hc1 Hu1].
  destruct how; cbn [fst].
  - now apply IH.
  - now apply invariants_drop with (map snd items).
Qed.

Lemma shared_insert_items_frame (s : Shared.store atom)
    (config : Shared.object atom) (items : list (str * Shared.object atom))
    (others : list (Shared.object atom)) (q : list str) :
  closed s (config :: map snd items ++ others) = true ->
  unshared s (config :: map snd items ++ others) = true ->
  forallb (fun kv => diverge q (path_of (fst kv))) items = true ->
  walk (fst (Shared.insert_items s config items)) config q = walk s config q.
Proof.
  revert s; induction items as [|[key v] items IH]; intros s Hc Hu Hd;
    [reflexivity|].
  cbn [map snd app] in Hc, Hu. cbn [forallb fst] in Hd.
  apply andb_true_iff in Hd as [Hkey Hitems].
  cbn [Shared.insert_items].
  pose proof (@shared_insert_at_frame atom (removelast (path_of key))
                (last (path_of key) []) v config s q
                (@closed_inside atom _ _ _ Hc)
                (@unshared_unique atom _ _ _ Hu)) as Hf.
  rewrite path_of_pieces in Hf. specialize (Hf Hkey).
  rewrite <- shared_recursive_insert_unfold in Hf.
  destruct (Shared._recursive_insert s config key v) as [s1 how] eqn:E.
  rewrite shared_recursive_insert_unfold in E.
  destruct (@insert_at_keeps atom _ _ _ _ _ _ _ _ Hc Hu E) as [Hc1 Hu1].
  cbn [fst] in Hf. destruct how; cbn [fst]; [|exact Hf].
  rewrite IH by assumption. exact Hf.
Qed.

Lemma shared_insert_items_present (s s1 : Shared.store atom)
    (config v : Shared.object atom) (before : list (str * Shared.object atom))
    (key : str) (others : list (Shared.object atom)) :
  closed s (config :: map snd (before ++ [(key, v)]) ++ others) = true ->
  unshared s (config :: map snd (before ++ [(key, v)]) ++ others) = true ->
  Shared.insert_items s config (before ++ [(key, v)]) = (s1, Returned) ->
  walk s1 config (path_of key) = Some v.
Proof.
  revert s; induction before as [|[k0 v0] before IH]; intros s Hc Hu H.
  - cbn [app Shared.insert_items] in H. cbn [app map snd] in Hc, Hu.
    destruct (Shared._recursive_insert s config key v) as [s' [|]] eqn:E;
      [|discriminate H].
    injection H as <-. rewrite shared_recursive_insert_unfold in E.
    rewrite <- path_of_pieces.
    apply shared_insert_at_lookup with s; [| |exact E].
    + now apply closed_inside with (v :: others).
    + now apply unshared_unique with (v :: others).
  - cbn [app Shared.insert_items] in H. cbn [app map snd] in Hc, Hu.
    destruct (Shared._recursive_insert s config k0 v0) as [s' [|]] eqn:E;
      [|discriminate H].
    rewrite shared_recursive_insert_unfold in E.
    destruct (@insert_at_keeps atom _ _ _ _ _ _ _ _ Hc Hu E) as [Hc1 Hu1].
    now apply IH with s'.
Qed.

(** A value that the loop has inserted stays at the path of its key
    while the keys that follow part from that path, however the loop
    goes on. *)
Lemma shared_insert_items_stays (s : Shared.store atom)
    (config v : Shared.object atom)
    (before after : list (str * Shared.object atom)) (key : str)
    (others : list (Shared.object atom)) :
  closed s (config :: map snd (before ++ (key, v) :: after) ++ others) = true ->
  unshared s (config :: map snd (before ++ (key, v) :: after) ++ others) = true ->
  snd (Shared.insert_items s config (before ++ [(key, v)])) = Returned ->
  forallb (fun kv => diverge (path_of key) (path_of (fst kv))) after = true ->
  walk (fst (Shared.insert_items s config (before ++ (key, v) :: after)))
       config (path_of key) = Some v
  /\ closed (fst (Shared.insert_items s config (before ++ (key, v) :: after)))
            (config :: others) = true
  /\ unshared (fst (Shared.insert_items s config (before ++ (key, v) :: after)))
              (config :: others) = true.
Proof.
  intros Hc Hu Hret Hd.
  assert (E : before ++ (key, v) :: after = (before ++ [(key, v)]) ++ after)
    by now rewrite <- app_assoc.
  rewrite E in *. rewrite map_app, <- app_assoc in Hc, Hu.
  destruct (Shared.insert_items s config (before ++ [(key, v)])) as [s1 how] eqn:E1.
  cbn [snd] in Hret. subst how.
  pose proof (@shared_insert_items_present _ _ _ _ _ _ _ Hc Hu E1) as Hv.
  pose proof (@shared_insert_items_keep _ _ _ _ Hc Hu) as Hk.
  rewrite E1 in Hk. cbn [fst] in Hk. destruct Hk as [Hc1 Hu1].
  rewrite shared_insert_items_app, E1.
  split.
  - rewrite shared_insert_items_frame with (others := others) by assumption.
    exact Hv.
  - now apply shared_insert_items_keep.
Qed.

Lemma shared_populate_config_store (w : Shared.world atom)
    (s : Shared.store atom) (config : Shared.object atom) :
  fst (fst (Shared.populate_config w s config))
  = fst (Shared.insert_items s config (inserted w)).
Proof.
  unfold Shared.populate_config, inserted.
  destruct (Shared.init_raises w); [reflexivity|].
  destruct (Shared.insert_items s config (Shared.sweep_values w)) as [s' [|]];
    [|reflexivity].
  now destruct (Shared.dump_raises w).
Qed.

Lemma shared_train_sweep_store (w : Shared.world atom) (s : Shared.store atom)
    (config : Shared.object atom) (argv : list str) :
  fst (Shared.train_sweep w s config argv)
  = fst (Shared.insert_items s config (inserted w)).
Proof.
  rewrite <- shared_populate_config_store. unfold Shared.train_sweep.
  destruct (Shared.populate_config w s config) as [[s' events] [|]];
    [reflexivity|].
  now destruct (Shared.run_sweep w argv) as [events' [code|]].
Qed.

Lemma insert_at_cells (most : list str) (last : str)
    (v ptr : Shared.object atom) (s : Shared.store atom) :
  exists id k, forall i piece,
    i < length s -> i <> id \/ piece <> k ->
    cell (fst (Shared.insert_at s ptr most last v)) i piece = cell s i piece.
Proof.
  destruct (Shared.insert_at s ptr most last v) as [s' how] eqn:H. cbn [fst].
  apply insert_at_shape in H as [[_ ->]|[_ H]].
  - now exists 0, [].
  - destruct H as (pre & k & post & id & items & _ & _ & Hn & _ & ->).
    exists id, k. intros i piece Hi Hne. unfold cell.
    rewrite nth_error_app1 by (now rewrite store_set_length).
    destruct (Nat.eq_dec i id) as [->|Hid].
    + rewrite store_set_same by exact Hi. rewrite Hn.
      apply dict_lookup_set_other.
      destruct (str_eqb piece k) eqn:E; [|reflexivity].
      apply str_eqb_eq in E. destruct Hne as [C|C]; now elim C.
    + now rewrite store_set_other.
Qed.

(** X12: [_recursive_insert] sets at most one key of one dictionary that
    was in the store: every other key of every dictionary of the store
    is after the call what it was before, however the call ends, also
    when dictionaries are shared.  When the store is closed and no
    dictionary is held at two places, the call leaves alone whatever
    lies off the path of its key: at a path that parts from the key's
    path at some piece, the configuration holds after the call the
    object it held before.  With an anchor and an alias this is not so:
    where [a] and [b] are one dictionary, inserting under [a.k] puts the
    value at [b.k] as well, which was not there. *)
Theorem recursive_insert_frame (s : Shared.store atom)
    (config v : Shared.object atom) (key : str) (q : list str) :
  (exists id k, forall i piece,
     i < length s -> i <> id \/ piece <> k ->
     cell (fst (Shared._recursive_insert s config key v)) i piece
     = cell s i piece)
  /\ (closed s [config] = true -> unshared s [config] = true ->
      diverge q (path_of key) = true ->
      walk (fst (Shared._recursive_insert s config key v)) config q
      = walk s config q)
  /\ (closed (aliased atom) [Shared.Dict atom 0] = true
      /\ unshared (aliased atom) [Shared.Dict atom 0] = false
      /\ diverge [py "b"; py "k"] (path_of (py "a.k")) = true
      /\ walk (aliased atom) (Shared.Dict atom 0) [py "b"; py "k"] = None
      /\ walk (fst (Shared._recursive_insert (aliased atom) (Shared.Dict atom 0)
                      (py "a.k") v))
              (Shared.Dict atom 0) [py "b"; py "k"]
         = Some v).
Proof.
  split; [|split].
  - rewrite shared_recursive_insert_unfold. apply insert_at_cells.
  - intros Hc Hu Hd. rewrite shared_recursive_insert_unfold.
    apply shared_insert_at_frame.
    + now apply closed_inside with [].
    + now apply unshared_unique with [].
    + now rewrite path_of_pieces.
  - repeat split.
Qed.

(** X16: a sweep value that the loop of [populate_config] has inserted
    is in the configuration at the path of its key when the loop ends,
    however it ends, unless a later sweep key is on that path (the same,
    above or below it); and at any path that parts from the paths of all
    the sweep keys the configuration holds what it held before.  This is
    so when the store is closed and no dictionary is held at two places,
    the configuration and the sweep values that are dictionaries held
    nowhere. *)
Theorem populate_keeps_values (s : Shared.store atom)
    (config v : Shared.object atom)
    (before after : list (str * Shared.object atom)) (key : str)
    (q : list str) :
  (closed s (config :: map snd (before ++ (key, v) :: after)) = true ->
   unshared s (config :: map snd (before ++ (key, v) :: after)) = true ->
   snd (Shared.insert_items s config (before ++ [(key, v)])) = Returned ->
   forallb (fun kv => diverge (path_of key) (path_of (fst kv))) after = true ->
   walk (fst (Shared.insert_items s config (before ++ (key, v) :: after)))
        config (path_of key)
   = Some v)
  /\ (closed s (config :: map snd (before ++ after)) = true ->
      unshared s (config :: map snd (before ++ after)) = true ->
      forallb (fun kv => diverge q (path_of (fst kv))) (before ++ after) = true ->
      walk (fst (Shared.insert_items s config (before ++ after))) config q
      = walk s config q).
Proof.
  split.
  - intros Hc Hu Hret Hd.
    apply shared_insert_items_stays with (others := []);
      try assumption; now rewrite app_nil_r.
  - intros Hc Hu Hd.
    apply shared_insert_items_frame with (others := []);
      try assumption; now rewrite app_nil_r.
Qed.

(** X19: [train_sweep] changes the configuration it is given, in the
    store, and [main] hands the same one to every run: the store after a
    run is the store after the insertions of its sweep values (none when
    [wandb.init] raised), whatever else happens in the run, and the next
    run starts from it.  So a value that the first run has inserted is
    still at the path of its key after the second run, unless a later
    key of the first run or a key of the second is on that path; this
    when the store is closed and no dictionary is held at two places. *)
Theorem runs_share_config (w1 w2 : Shared.world atom) (s : Shared.store atom)
    (config v : Shared.object atom) (argv1 argv2 : list str)
    (before after : list (str * Shared.object atom)) (key : str) :
  let s1 := fst (Shared.train_sweep w1 s config argv1) in
  let s2 := fst (Shared.train_sweep w2 s1 config argv2) in
  s1 = fst (Shared.insert_items s config (inserted w1))
  /\ s2 = fst (Shared.insert_items s1 config (inserted w2))
  /\ (closed s (config :: map snd (inserted w1 ++ inserted w2)) = true ->
      unshared s (config :: map snd (inserted w1 ++ inserted w2)) = true ->
      inserted w1 = before ++ (key, v) :: after ->
      snd (Shared.insert_items s config (before ++ [(key, v)])) = Returned ->
      forallb (fun kv => diverge (path_of key) (path_of (fst kv)))
              (after ++ inserted w2) = true ->
      walk s2 config (path_of key) = Some v).
Proof.
  cbv zeta. rewrite !shared_train_sweep_store.
  split; [reflexivity|]. split; [reflexivity|].
  intros Hc Hu E Hret Hd. rewrite E in *.
  rewrite forallb_app in Hd. apply andb_true_iff in Hd as [Hafter Hnext].
  rewrite map_app in Hc, Hu.
  destruct (@shared_insert_items_stays s config v before after key
              (map snd (inserted w2)) Hc Hu Hret Hafter) as (Hv & Hc1 & Hu1).
  rewrite shared_insert_items_frame with (others := []);
    [exact Hv | now rewrite app_nil_r | now rewrite app_nil_r | exact Hnext].
Qed.

(** X21: when [_recursive_insert] returns, the configuration holds the
    value at the path that the dotted key spells, if the store is closed
    and no dictionary is held at two places.  Where the configuration
    holds itself (a recursive anchor) it need not: in the configuration
    whose [a] is the configuration, inserting a value that is not a
    dictionary under [a.a] leaves no path [a.a]. *)
Theorem shared_insert_lookup (s s' : Shared.store atom)
    (config v : Shared.object atom) (key : str) (x : atom) :
  (closed s [config] = true -> unshared s [config] = true ->
   Shared._recursive_insert s config key v = (s', Returned) ->
   walk s' config (path_of key) = Some v)
  /\ (closed [[(py "a", Shared.Dict atom 0)]] [Shared.Dict atom 0] = true
      /\ unshared [[(py "a", Shared.Dict atom 0)]] [Shared.Dict atom 0] = false
      /\ Shared._recursive_insert [[(py "a", Shared.Dict atom 0)]]
           (Shared.Dict atom 0) (py "a.a") (Shared.Other x)
         = ([[(py "a", Shared.Other x)]], Returned)
      /\ walk [[(py "a", Shared.Other x)]] (Shared.Dict atom 0) (path_of (py "a.a"))
         = None).
Proof.
  split; [|repeat split].
  intros Hc Hu H. rewrite shared_recursive_insert_unfold in H.
  rewrite <- path_of_pieces.
  apply shared_insert_at_lookup with s; [| |exact H].
  - now apply closed_inside with [].
  - now apply unshared_unique with [].
Qed.
End SharedLoop.

Lemma recursive_insert_frame_witness :
  walk (fst (Shared._recursive_insert
               [[(py "trainer", Shared.Dict nat 1)]; [(py "devices", Shared.Other 2)]]
               (Shared.Dict nat 0) (py "trainer.max_epochs") (Shared.Other 7)))
       (Shared.Dict nat 0) [py "trainer"; py "devices"]
  = Some (Shared.Other 2).
Proof.
  destruct (@recursive_insert_frame nat
              [[(py "trainer", Shared.Dict nat 1)]; [(py "devices", Shared.Other 2)]]
              (Shared.Dict nat 0) (Shared.Other 7) (py "trainer.max_epochs")
              [py "trainer"; py "devices"]) as (_ & H & _).
  rewrite H by reflexivity. reflexivity.
Defined.

Lemma populate_keeps_values_witness :
  walk (fst (Shared.insert_items [[]] (Shared.Dict nat 0)
               ([(py "seed", Shared.Other 1)] ++ (py "a.b", Shared.Other 2)
                :: [(py "a.c", Shared.Other 3)])))
       (Shared.Dict nat 0) (path_of (py "a.b"))
  = Some (Shared.Other 2).
Proof.
  destruct (@populate_keeps_values nat [[]] (Shared.Dict nat 0) (Shared.Other 2)
              [(py "seed", Shared.Other 1)] [(py "a.c", Shared.Other 3)]
              (py "a.b") []) as [H _].
  apply H; reflexivity.
Defined.

Lemma runs_share_config_witness :
  walk (fst (Shared.train_sweep
               (Shared.mkWorld false [(py "c", Shared.Other 3)] false NotStarted)
               (fst (Shared.train_sweep
                       (Shared.mkWorld false [(py "a.b", Shared.Other 2)] false
                          (Completed 0%Z [] []))
                       [[]] (Shared.Dict nat 0) [py "udtube"]))
               (Shared.Dict nat 0) [py "udtube"]))
       (Shared.Dict nat 0) (path_of (py "a.b"))
  = Some (Shared.Other 2).
Proof.
  destruct (@runs_share_config nat
              (Shared.mkWorld false [(py "a.b", Shared.Other 2)] false
                 (Completed 0%Z [] []))
              (Shared.mkWorld false [(py "c", Shared.Other 3)] false NotStarted)
              [[]] (Shared.Dict nat 0) (Shared.Other 2)
              [py "udtube"] [py "udtube"] [] [] (py "a.b")) as (_ & _ & H).
  apply H; reflexivity.
Defined.

Lemma shared_insert_lookup_witness :
  walk [[(py "seed", Shared.Other 1); (py "trainer", Shared.Dict nat 1)];
        [(py "max_epochs", Shared.Other 7)]]
       (Shared.Dict nat 0) (path_of (py "trainer.max_epochs"))
  = Some (Shared.Other 7).
Proof.
  destruct (@shared_insert_lookup nat [[(py "seed", Shared.Other 1)]]
              [[(py "seed", Shared.Other 1); (py "trainer", Shared.Dict nat 1)];
               [(py "max_epochs", Shared.Other 7)]]
              (Shared.Dict nat 0) (Shared.Other 7) (py "trainer.max_epochs") 0)
    as [H _].
  apply H; reflexivity.
Defined.
